(** * proto-tap.js: a shallow embedding of the WebSocket protobuf tap

    The development follows [src/inject/proto-tap.js] section by section:
    host values (numbers, byte arrays, strings, JSON values, sockets), the
    relay with its offline queue, the schema registry and the two ID maps,
    the ring buffers, the in-page event bus, [decodeFrame], the socket
    registry and [sendAction].  The module-level variables of the script
    are the fields of one [State] record that every function threads. *)

From Stdlib Require Import ZArith List String Ascii Bool Lia.
From Stdlib Require Import Strings.Byte DecimalString.
From stdpp Require Import base option list gmap strings.

Local Open Scope Z_scope.

(** ** Host values *)

(** *** Numbers

    The bit operators of JavaScript convert both operands with ToInt32 and
    yield a signed 32-bit result; the shift count is taken modulo 32. *)

Definition toInt32 (z : Z) : Z := (z + 2 ^ 31) mod 2 ^ 32 - 2 ^ 31.

Definition js_shl (a n : Z) : Z := toInt32 (Z.shiftl (toInt32 a) (n mod 32)).

Definition js_or (a b : Z) : Z := Z.lor (toInt32 a) (toInt32 b).

(** *** Byte arrays

    A [Uint8Array] is the list of its elements.  Reading past the end gives
    [undefined], which the bit operators turn into 0: the default byte. *)

Definition byteZ (b : byte) : Z := Z.of_N (Byte.to_N b).

Definition at_index (bytes : list byte) (i : nat) : Z := byteZ (nth i bytes x00).

Definition byteLength (bytes : list byte) : Z := Z.of_nat (length bytes).

(** *** Strings

    A string is the sequence of its code units (here: of the Latin-1
    range). *)

Fixpoint str_startsWith (needle s : string) : bool :=
  match needle, s with
  | EmptyString, _ => true
  | String a n', String b s' => if Ascii.eqb a b then str_startsWith n' s' else false
  | String _ _, EmptyString => false
  end.

(** [s.includes(needle)] *)
Fixpoint str_includes (needle s : string) : bool :=
  str_startsWith needle s ||
  match s with
  | EmptyString => false
  | String _ s' => str_includes needle s'
  end.

(** The text after the last ["."] of [s], if [s] has one: with [acc = None]
    at the start, [Some seg] holds the segment read since the last dot. *)
Fixpoint after_last_dot (s : string) (acc : option string) : option string :=
  match s with
  | EmptyString => acc
  | String c s' =>
      if Ascii.eqb c "."%char then after_last_dot s' (Some EmptyString)
      else after_last_dot s' (option_map (fun seg => seg +:+ String c EmptyString) acc)
  end.

(** [s.includes('.') ? s.split('.').pop() : s] *)
Definition last_segment (s : string) : string :=
  match after_last_dot s None with
  | Some seg => seg
  | None => s
  end.

Definition is_line_terminator (c : ascii) : bool :=
  Ascii.eqb c "010"%char || Ascii.eqb c "013"%char.

Fixpoint has_line_terminator (s : string) : bool :=
  match s with
  | EmptyString => false
  | String c s' => is_line_terminator c || has_line_terminator s'
  end.

(** [s.replace(/[?#].*$/, '')]: the match starts at the first ["?"] or
    ["#"] that no line terminator follows ([.] does not match one, and [$]
    is the end of the input). *)
Fixpoint strip_query (s : string) : string :=
  match s with
  | EmptyString => EmptyString
  | String c s' =>
      if (Ascii.eqb c "?"%char || Ascii.eqb c "#"%char) && negb (has_line_terminator s')
      then EmptyString
      else String c (strip_query s')
  end.

(** [wsUrl.replace(/[?#].*$/, '').substring(0, 80)] *)
Definition trimUrl (wsUrl : string) : string :=
  String.substring 0 80 (strip_query wsUrl).

Definition hex_digit (d : Z) : ascii :=
  Ascii.ascii_of_N (Z.to_N (if d <? 10 then 48 + d else 87 + d)).

(** [b.toString(16).padStart(2, '0')] *)
Definition hex2 (b : byte) : string :=
  String (hex_digit (byteZ b / 16)) (String (hex_digit (byteZ b mod 16)) EmptyString).

(** [Array.from(bytes).map(hex2).join(' ')] *)
Fixpoint hex_join (bytes : list byte) : string :=
  match bytes with
  | [] => EmptyString
  | [b] => hex2 b
  | b :: rest => hex2 b +:+ String " "%char (hex_join rest)
  end.

(** *** JSON values and plain objects

    Numbers are the integers; an object is the list of its own properties
    in creation order. *)

#[warnings="-register-all"]
Inductive json : Type :=
| JNull
| JBool (b : bool)
| JNum (n : Z)
| JStr (s : string)
| JArr (items : list json)
| JObj (fields : list (string * json)).

Definition jsobj : Type := list (string * json).

Definition truthy (v : json) : bool :=
  match v with
  | JNull => false
  | JBool b => b
  | JNum n => negb (n =? 0)
  | JStr s => negb (String.eqb s EmptyString)
  | JArr _ | JObj _ => true
  end.

Fixpoint obj_get (o : jsobj) (k : string) : option json :=
  match o with
  | [] => None
  | (k', v) :: o' => if String.eqb k k' then Some v else obj_get o' k
  end.

(** [v.k] for a value that is not null; absent ([undefined]) is [None]. *)
Definition get_prop (v : json) (k : string) : option json :=
  match v with
  | JObj o => obj_get o k
  | _ => None
  end.

(** Defining property [k]: an existing property keeps its place and takes
    the new value, a new one goes last. *)
Fixpoint obj_set (k : string) (v : json) (o : jsobj) : jsobj :=
  match o with
  | [] => [(k, v)]
  | (k', v') :: o' => if String.eqb k k' then (k, v) :: o' else (k', v') :: obj_set k v o'
  end.

(** [{ ...init, ...src }]: the properties of [src] are defined in order on
    top of [init]. *)
Definition obj_spread (init src : jsobj) : jsobj :=
  fold_left (fun acc kv => obj_set (fst kv) (snd kv) acc) src init.

(** *** Calls that may raise *)

Inductive result (A : Type) : Type :=
| Return (a : A)
| Throw.
Arguments Return {A} a.
Arguments Throw {A}.

(** *** Sockets

    What the tap sees of a host [WebSocket]: its [readyState], and [send],
    which either takes the data or raises.  Whether the n-th call of [send]
    on a socket raises is up to the host: [send_throws]. *)

Inductive wsdata : Type :=
| Text (s : string)
| Binary (b : list byte).

Record WebSocket : Type := mkWebSocket {
  readyState : Z;
  send_throws : nat -> bool;
  send_calls : nat;
  sent : list wsdata
}.

Definition CONNECTING : Z := 0.
Definition OPEN : Z := 1.
Definition CLOSING : Z := 2.
Definition CLOSED : Z := 3.

Definition ws_send (data : wsdata) (ws : WebSocket) : result unit * WebSocket :=
  if send_throws ws (send_calls ws)
  then (Throw, mkWebSocket (readyState ws) (send_throws ws) (S (send_calls ws)) (sent ws))
  else (Return tt,
        mkWebSocket (readyState ws) (send_throws ws) (S (send_calls ws)) (sent ws ++ [data])).

Definition ws_with_readyState (rs : Z) (ws : WebSocket) : WebSocket :=
  mkWebSocket rs (send_throws ws) (send_calls ws) (sent ws).

(** A key of the map [sockets].  [patchSocket] stores what it is given as
    the URL: a string (from the proxy and from the [send] hook), or any
    other truthy value that the [url] of an object handed to
    [attachToSocket] has.  [url.includes(s)] on a string is the method of
    strings; on another value the call raises when the value has no method
    of that name, and is what that method does otherwise: its result as a
    condition, or a raise. *)
Inductive url_key : Type :=
| UrlStr (s : string)
| UrlValue (includes : string -> result bool).

(** [url.includes(needle)], as a condition *)
Definition key_includes (needle : string) (url : url_key) : result bool :=
  match url with
  | UrlStr s => Return (str_includes needle s)
  | UrlValue includes => includes needle
  end.

(** ** Config *)

Definition RELAY_URL : string := "ws://localhost:13030/ws".
Definition MAX_RETRIES : Z := 8.
Definition RING_SIZE : Z := 200.
Definition SKIP_TOPICS : list string := ["Ping"; "Pong"; "RealIp"; "AnimMsg"; "VoiceMsg"]%string.
Definition GAME_NAMESPACES : list string := ["holdem"; "commonProto"; "mttPro"; "pineapple"]%string.
Definition UNKNOWN_RING : Z := 500.

(** [SKIP_TOPICS.has(typeName)] *)
Definition SKIP_TOPICS_has (typeName : string) : bool :=
  existsb (String.eqb typeName) SKIP_TOPICS.

(** ** The schema registry ([window.protobuf.roots['default']])

    The registry is supplied by the page.  A message type is known by its
    codec; [decode] stands for the whole expression
    [JSON.parse(JSON.stringify(decoder.decode(body)))] and raises when any
    step of it does (a property that is not a codec raises on every call).
    [encode] stands for [Type.encode(obj).finish()]. *)

Record Codec : Type := mkCodec {
  decode : list byte -> result json;
  encode : jsobj -> result (list byte)
}.

Record WrapperMsg : Type := mkWrapperMsg {
  topic : string;
  body : list byte
}.

(** [wdecode] may raise, or return nothing ([!w]); an absent topic is the
    empty string, an absent body the empty array.  [wencode] stands for
    [Wrapper.encode(msg).finish()] with the copy of its bytes into the
    buffer that is sent. *)
Record WrapperCodec : Type := mkWrapperCodec {
  wdecode : list byte -> result (option WrapperMsg);
  wencode : WrapperMsg -> result (list byte)
}.

(** A namespace: [MessageId] is [Object.entries(pb[ns].MessageId)], the
    pairs of type name and numeric ID in enumeration order. *)
Record Namespace : Type := mkNamespace {
  MessageId : option (list (string * Z));
  Wrapper : option WrapperCodec;
  member : string -> option Codec
}.

Definition Registry : Type := list (string * Namespace).

Fixpoint registry_get (r : Registry) (ns : string) : option Namespace :=
  match r with
  | [] => None
  | (k, n) :: r' => if String.eqb ns k then Some n else registry_get r' ns
  end.

(** ** The state of the tap *)

(** A subscribed function is known by its identity. *)
Definition handler : Type := nat.

(** Calls out of the tap that the properties speak of, in the order
    made. *)
Inductive effect : Type :=
| Invoke (fn : handler) (arg : jsobj)
| WrapperDecode (ns : string).

(** An object with numeric keys, as [Object.entries] lists it. *)
Definition idmap : Type := list (Z * string).

Record State : Type := mkState {
  relay : option WebSocket;
  relayOk : bool;
  retries : Z;
  queue : list string;
  _lastRoomId : json;
  pb : option Registry;
  msgIdMaps : gmap string idmap;
  _idToType : gmap Z (string * string);
  lastEvents : list jsobj;
  unknownFrames : list jsobj;
  _handlers : gmap string (list handler);
  sockets : list (url_key * WebSocket);
  log : list effect
}.

Definition initial : State :=
  mkState None false 0 [] JNull None ∅ ∅ [] [] ∅ [] [].

Definition set_relay (x : option WebSocket) (s : State) : State :=
  mkState x (relayOk s) (retries s) (queue s) (_lastRoomId s) (pb s) (msgIdMaps s)
          (_idToType s) (lastEvents s) (unknownFrames s) (_handlers s) (sockets s) (log s).
Definition set_relayOk (x : bool) (s : State) : State :=
  mkState (relay s) x (retries s) (queue s) (_lastRoomId s) (pb s) (msgIdMaps s)
          (_idToType s) (lastEvents s) (unknownFrames s) (_handlers s) (sockets s) (log s).
Definition set_retries (x : Z) (s : State) : State :=
  mkState (relay s) (relayOk s) x (queue s) (_lastRoomId s) (pb s) (msgIdMaps s)
          (_idToType s) (lastEvents s) (unknownFrames s) (_handlers s) (sockets s) (log s).
Definition set_queue (x : list string) (s : State) : State :=
  mkState (relay s) (relayOk s) (retries s) x (_lastRoomId s) (pb s) (msgIdMaps s)
          (_idToType s) (lastEvents s) (unknownFrames s) (_handlers s) (sockets s) (log s).
Definition set_lastRoomId (x : json) (s : State) : State :=
  mkState (relay s) (relayOk s) (retries s) (queue s) x (pb s) (msgIdMaps s)
          (_idToType s) (lastEvents s) (unknownFrames s) (_handlers s) (sockets s) (log s).
Definition set_pb (x : option Registry) (s : State) : State :=
  mkState (relay s) (relayOk s) (retries s) (queue s) (_lastRoomId s) x (msgIdMaps s)
          (_idToType s) (lastEvents s) (unknownFrames s) (_handlers s) (sockets s) (log s).
Definition set_msgIdMaps (x : gmap string idmap) (s : State) : State :=
  mkState (relay s) (relayOk s) (retries s) (queue s) (_lastRoomId s) (pb s) x
          (_idToType s) (lastEvents s) (unknownFrames s) (_handlers s) (sockets s) (log s).
Definition set_idToType (x : gmap Z (string * string)) (s : State) : State :=
  mkState (relay s) (relayOk s) (retries s) (queue s) (_lastRoomId s) (pb s) (msgIdMaps s)
          x (lastEvents s) (unknownFrames s) (_handlers s) (sockets s) (log s).
Definition set_lastEvents (x : list jsobj) (s : State) : State :=
  mkState (relay s) (relayOk s) (retries s) (queue s) (_lastRoomId s) (pb s) (msgIdMaps s)
          (_idToType s) x (unknownFrames s) (_handlers s) (sockets s) (log s).
Definition set_unknownFrames (x : list jsobj) (s : State) : State :=
  mkState (relay s) (relayOk s) (retries s) (queue s) (_lastRoomId s) (pb s) (msgIdMaps s)
          (_idToType s) (lastEvents s) x (_handlers s) (sockets s) (log s).
Definition set_handlers (x : gmap string (list handler)) (s : State) : State :=
  mkState (relay s) (relayOk s) (retries s) (queue s) (_lastRoomId s) (pb s) (msgIdMaps s)
          (_idToType s) (lastEvents s) (unknownFrames s) x (sockets s) (log s).
Definition set_sockets (x : list (url_key * WebSocket)) (s : State) : State :=
  mkState (relay s) (relayOk s) (retries s) (queue s) (_lastRoomId s) (pb s) (msgIdMaps s)
          (_idToType s) (lastEvents s) (unknownFrames s) (_handlers s) x (log s).
Definition emit (e : list effect) (s : State) : State :=
  mkState (relay s) (relayOk s) (retries s) (queue s) (_lastRoomId s) (pb s) (msgIdMaps s)
          (_idToType s) (lastEvents s) (unknownFrames s) (_handlers s) (sockets s) (log s ++ e).

(** ** Relay *)

(** [relay.send(json)]; with no relay object the call raises. *)
Definition relay_send (json : string) (st : State) : result unit * State :=
  match relay st with
  | None => (Throw, st)
  | Some ws => let (r, ws') := ws_send (Text json) ws in (r, set_relay (Some ws') st)
  end.

(** [while (queue.length) { try { relay.send(queue.shift()); } catch (_) { break; } }]:
    the head has left the queue when [send] is called with it. *)
Fixpoint flush (q : list string) (st : State) : State :=
  match q with
  | [] => set_queue [] st
  | item :: rest =>
      match relay_send item (set_queue rest st) with
      | (Return _, st') => flush rest st'
      | (Throw, st') => st'
      end
  end.

(** [relay.onopen] *)
Definition relay_onopen (st : State) : State :=
  let st := set_retries 0 (set_relayOk true st) in
  flush (queue st) st.

(** [relay.onclose]; the result is the delay of the timer set for
    [openRelay], if one is set. *)
Definition relay_onclose (st : State) : option Z * State :=
  let st := set_relayOk false st in
  let st := set_retries (retries st + 1) st in
  if retries st <=? MAX_RETRIES
  then (Some (Z.min 30000 (1000 * retries st * retries st)), st)
  else (None, st).

(** [openRelay]; [fresh] is what [new _OrigWS(RELAY_URL)] gives, [None]
    when the constructor raises. *)
Definition openRelay (fresh : option WebSocket) (st : State) : State :=
  match relay st with
  | Some ws => if readyState ws <=? OPEN then st
               else match fresh with Some n => set_relay (Some n) st | None => st end
  | None => match fresh with Some n => set_relay (Some n) st | None => st end
  end.

Definition relayEmit (json : string) (st : State) : State :=
  let enqueue st :=
    if Z.of_nat (length (queue st)) <? 500 then set_queue (queue st ++ [json]) st else st in
  if relayOk st then
    match relay_send json st with
    | (Return _, st') => st'
    | (Throw, st') => enqueue st'
    end
  else enqueue st.

(** ** Ring buffers *)

(** [buf.push(x); if (buf.length > cap) buf.shift();] *)
Definition push_shift {A : Type} (cap : Z) (x : A) (buf : list A) : list A :=
  let buf := buf ++ [x] in
  if cap <? Z.of_nat (length buf) then tail buf else buf.

Definition pushRing (evt : jsobj) (st : State) : State :=
  set_lastEvents (push_shift RING_SIZE evt (lastEvents st)) st.

Definition pushUnknown (entry : jsobj) (st : State) : State :=
  set_unknownFrames (push_shift UNKNOWN_RING entry (unknownFrames st)) st.

(** ** Protobuf *)

(** [resolvePb]; [window_protobuf] is [window.protobuf.roots['default']]
    at the time of the call, [None] while the page has not loaded it. *)
Definition resolvePb (window_protobuf : option Registry) (st : State) : bool * State :=
  match pb st with
  | Some _ => (true, st)
  | None =>
      match window_protobuf with
      | Some r => (true, set_pb (Some r) st)
      | None => (false, st)
      end
  end.

(** [pb[ns]] *)
Definition pb_get (st : State) (ns : string) : option Namespace :=
  match pb st with
  | Some r => registry_get r ns
  | None => None
  end.

(** Integer keys that are array indices are listed first, in ascending
    order, and the other keys after them in the order of their creation. *)
Definition is_array_index (id : Z) : bool := (0 <=? id) && (id <? 2 ^ 32 - 1).

(** [m[id] = name] *)
Fixpoint idmap_set (id : Z) (name : string) (m : idmap) : idmap :=
  match m with
  | [] => [(id, name)]
  | (k, v) :: m' =>
      if k =? id then (id, name) :: m'
      else if is_array_index id && (negb (is_array_index k) || (id <? k))
           then (id, name) :: (k, v) :: m'
           else (k, v) :: idmap_set id name m'
  end.

Definition buildIdMap (ns : string) (st : State) : State :=
  match msgIdMaps st !! ns with
  | Some _ => st
  | None =>
      match pb_get st ns with
      | None => st
      | Some nsObj =>
          match MessageId nsObj with
          | None => st
          | Some entries =>
              let m := fold_left (fun m e => idmap_set (snd e) (fst e) m) entries [] in
              set_msgIdMaps (<[ns := m]> (msgIdMaps st)) st
          end
      end
  end.

(** The first digit of the exponent form [d.ddde+n] in which
    [Number::toString] writes an integer [x] of 10 ^ 21 or more: the
    digits are the fewest that read back as [x], so the form is [1e+n] when
    the next power of ten rounds to [x] (it lies within half the spacing of
    the numbers at [x], the half included when the significand of [x] is
    even), and has the first decimal digit of [x] otherwise. *)
Definition exponent_lead (x : Z) : Z :=
  let p := 10 ^ Z.of_nat (Decimal.nb_digits (N.to_uint (Z.to_N x))) in
  let ulp := 2 ^ (Z.log2 x - 52) in
  if (2 * (p - x) <? ulp) || ((2 * (p - x) =? ulp) && Z.even (x / ulp)) then 1
  else x / (p / 10).

(** [parseInt(key, 10)] on the key that a property set as [m[id]] has.
    The key of an integer below 10 ^ 21 in magnitude is a decimal numeral
    that reads back as the number; from 10 ^ 21 on the key is in exponent
    form, and [parseInt] stops at its point or at its [e]: it reads the
    first digit, with the sign. *)
Definition parseInt_key (id : Z) : Z :=
  if Z.abs id <? 10 ^ 21 then id else Z.sgn id * exponent_lead (Z.abs id).

Definition lookupMsgId (ns typeName : string) (st : State) : option Z :=
  match msgIdMaps st !! ns with
  | None => None
  | Some m =>
      match List.find (fun e => String.eqb (snd e) typeName) m with
      | Some e => Some (parseInt_key (fst e))
      | None => None
      end
  end.

(** ** Reverse ID map (for length-prefixed format) *)

Definition priorityOrder : list string := ["pineapple"; "commonProto"; "mttPro"; "holdem"]%string.

(** The inner loop of [buildReverseIdMap], over the entries of one
    namespace. *)
Definition reverse_entries (ns : string) (entries : list (string * Z))
    (m : gmap Z (string * string)) : gmap Z (string * string) :=
  fold_left (fun m e => if snd e =? 0 then m else <[snd e := (ns, fst e)]> m) entries m.

(** [buildReverseIdMap], on the registry [pb] and the map [_idToType]. *)
Definition buildReverseIdMap (pb : Registry) (m : gmap Z (string * string))
    : gmap Z (string * string) :=
  fold_left
    (fun m ns =>
       match registry_get pb ns with
       | None => m
       | Some nsObj =>
           match MessageId nsObj with
           | None => m
           | Some entries => reverse_entries ns entries m
           end
       end)
    priorityOrder m.

(** ** In-page event bus

    [_handlers] maps a topic to the set of functions subscribed to it, in
    the order they were added.  A subscribed function is an observer: what
    it does with its argument stays outside the tap, and what it raises is
    dropped by the [try] around each call.

    [_handlers] is a plain object ([{}]), so reading [_handlers[topic]]
    for a topic it has no property for goes on to [Object.prototype]: the
    names below read as a function or, for [__proto__], as the prototype
    itself, which are truthy and have no [add], [delete] or [forEach]. *)

Definition Object_prototype_names : list string :=
  ["constructor"; "__defineGetter__"; "__defineSetter__"; "hasOwnProperty";
   "__lookupGetter__"; "__lookupSetter__"; "isPrototypeOf"; "propertyIsEnumerable";
   "toString"; "valueOf"; "__proto__"; "toLocaleString"]%string.

Definition inherited (topic : string) : bool :=
  existsb (String.eqb topic) Object_prototype_names.

(** What [_handlers[topic]] reads as. *)
Inductive slot : Type :=
| Absent
| Subscribers (s : list handler)
| Inherited.

Definition handlers_get (st : State) (topic : string) : slot :=
  match _handlers st !! topic with
  | Some s => Subscribers s
  | None => if inherited topic then Inherited else Absent
  end.

(** The functions subscribed to [topic], none when it has no set. *)
Definition handlers_of (st : State) (topic : string) : list handler :=
  default [] (_handlers st !! topic).

(** [busOn]: on an inherited member the call of [add] raises. *)
Definition busOn (topic : string) (fn : handler) (st : State) : result unit * State :=
  match handlers_get st topic with
  | Inherited => (Throw, st)
  | Absent => (Return tt, set_handlers (<[topic := [fn]]> (_handlers st)) st)
  | Subscribers s =>
      (Return tt,
       set_handlers (<[topic := if bool_decide (fn ∈ s) then s else s ++ [fn]]> (_handlers st)) st)
  end.

(** [busOff]: on an inherited member the call of [delete] raises. *)
Definition busOff (topic : string) (fn : handler) (st : State) : result unit * State :=
  match handlers_get st topic with
  | Inherited => (Throw, st)
  | Absent => (Return tt, st)
  | Subscribers s =>
      (Return tt, set_handlers (<[topic := filter (fun g => g ≠ fn) s]> (_handlers st)) st)
  end.

(** [{ topic, ...data }] *)
Definition with_topic (topic : string) (data : jsobj) : jsobj :=
  obj_spread [("topic"%string, JStr topic)] data.

(** [set.forEach(fn => { try { fn(arg); } catch (_) {} })] *)
Definition call_each (s : list handler) (arg : jsobj) (st : State) : State :=
  emit (map (fun fn => Invoke fn arg) s) st.

(** [busEmit]: on an inherited member the call of [forEach] raises, before
    any function is called. *)
Definition busEmit (topic : string) (data : jsobj) (st : State) : result unit * State :=
  let wildcard st :=
    match handlers_get st "*" with
    | Subscribers s => (Return tt, call_each s (with_topic topic data) st)
    | Absent => (Return tt, st)
    | Inherited => (Throw, st)
    end in
  match handlers_get st topic with
  | Inherited => (Throw, st)
  | Absent => wildcard st
  | Subscribers s => wildcard (call_each s data st)
  end.

(** ** Decode *)

Section Decode.

(** [JSON.stringify] on the records the tap builds. *)
Variable JSON_stringify : jsobj -> string.

(** [{ _raw: Array.from(body).slice(0, 32) }] *)
Definition raw_payload (body : list byte) : json :=
  JObj [("_raw"%string, JArr (map (fun b => JNum (byteZ b)) (take 32 body)))].

(** [try { decoded = JSON.parse(JSON.stringify(decoder.decode(body))); }
     catch (_) { decoded = { _raw: ... }; }] *)
Definition decode_or_raw (decoder : Codec) (body : list byte) : json :=
  match decode decoder body with
  | Return v => v
  | Throw => raw_payload body
  end.

(** [if (decoded && decoded.roomId) _lastRoomId = decoded.roomId;] *)
Definition track_roomId (decoded : json) (st : State) : State :=
  if truthy decoded then
    match get_prop decoded "roomId" with
    | Some v => if truthy v then set_lastRoomId v st else st
    | None => st
    end
  else st.

Definition proto_event (ns typeName : string) (msgId : json) (now : Z) (wsUrl : string)
    (decoded : json) : jsobj :=
  [("type", JStr "proto_event"); ("ns", JStr ns); ("topic", JStr typeName);
   ("msgId", msgId); ("ts", JNum now); ("wsUrl", JStr (trimUrl wsUrl));
   ("data", decoded)]%string.

Definition unknown_frame (msgId frameLen now : Z) (wsUrl : string)
    (bytes bodyBytes : list byte) : jsobj :=
  [("type", JStr "unknown_frame"); ("msgId", JNum msgId); ("len", JNum frameLen);
   ("ts", JNum now); ("wsUrl", JStr (trimUrl wsUrl)); ("hex", JStr (hex_join bytes));
   ("bodyHex", JStr (hex_join bodyBytes)); ("bodyLen", JNum (byteLength bodyBytes))]%string.

(** [(bytes[0] << 24) | (bytes[1] << 16) | (bytes[2] << 8) | bytes[3]] *)
Definition frameLen (bytes : list byte) : Z :=
  js_or (js_or (js_or (js_shl (at_index bytes 0) 24) (js_shl (at_index bytes 1) 16))
               (js_shl (at_index bytes 2) 8))
        (at_index bytes 3).

(** [(bytes[4] << 8) | bytes[5]] *)
Definition frameMsgId (bytes : list byte) : Z :=
  js_or (js_shl (at_index bytes 4) 8) (at_index bytes 5).

(** [call; return v;]: a raise of [call] is the outcome, with the state
    as it was left. *)
Definition then_return {A : Type} (call : result unit * State) (v : A) : result A * State :=
  match call with
  | (Return _, st) => (Return v, st)
  | (Throw, st) => (Throw, st)
  end.

(** The branch taken when [frameLen === bytes.length && frameLen >= 6]. *)
Definition decodeLengthPrefixed (now : Z) (bytes : list byte) (wsUrl : string) (st : State)
    : result (option jsobj) * State :=
  let msgId := frameMsgId bytes in
  match _idToType st !! msgId with
  | Some (ns, typeName) =>
      if SKIP_TOPICS_has typeName then (Return None, st)
      else
        let decoder :=
          match pb_get st ns with
          | Some nsObj => member nsObj typeName
          | None => None
          end in
        let decoded :=
          match decoder with
          | Some d => if 6 <? byteLength bytes then decode_or_raw d (drop 6 bytes) else JNull
          | None => JNull
          end in
        let st := track_roomId decoded st in
        let evt := proto_event ns typeName (JNum msgId) now wsUrl decoded in
        let st := relayEmit (JSON_stringify evt) st in
        let st := pushRing evt st in
        then_return (busEmit typeName evt st) (Some evt)
  | None =>
      let bodyBytes := if 6 <? byteLength bytes then drop 6 bytes else [] in
      let entry := unknown_frame msgId (frameLen bytes) now wsUrl bytes bodyBytes in
      let st := pushUnknown entry st in
      let st := relayEmit (JSON_stringify entry) st in
      (Return None, st)
  end.

(** The inner loop of the fallback: the first of [nss] that has a member
    [typeName], with its name. *)
Fixpoint search_decoder (typeName : string) (nss : list string) (st : State)
    : option (Codec * string) :=
  match nss with
  | [] => None
  | tryNs :: rest =>
      match pb_get st tryNs with
      | Some o =>
          match member o typeName with
          | Some d => Some (d, tryNs)
          | None => search_decoder typeName rest st
          end
      | None => search_decoder typeName rest st
      end
  end.

(** The body of the fallback loop once namespace [ns] has decoded the
    frame as the wrapper [w] with a topic. *)
Definition decodeWrapped (now : Z) (wsUrl ns : string) (nsObj : Namespace) (w : WrapperMsg)
    (st : State) : result (option jsobj) * State :=
  let typeName := last_segment (topic w) in
  if SKIP_TOPICS_has typeName then (Return None, st)
  else
    let '(decoder, decoderNs) :=
      match member nsObj typeName with
      | Some d => (Some d, ns)
      | None =>
          match search_decoder typeName GAME_NAMESPACES st with
          | Some (d, tryNs) => (Some d, tryNs)
          | None => (None, ns)
          end
      end in
    let decoded :=
      match decoder, body w with
      | Some d, _ :: _ => decode_or_raw d (body w)
      | _, _ => JNull
      end in
    let st := track_roomId decoded st in
    let msgId :=
      match lookupMsgId decoderNs typeName st with
      | Some id => JNum id
      | None => JNull
      end in
    let evt := proto_event decoderNs typeName msgId now wsUrl decoded in
    let st := relayEmit (JSON_stringify evt) st in
    let st := pushRing evt st in
    match busEmit typeName evt st with
    | (Throw, st) => (Throw, st)
    | (Return _, st) =>
        if String.eqb decoderNs ns then (Return (Some evt), st)
        else then_return (busEmit (decoderNs +:+ "." +:+ typeName) evt st) (Some evt)
    end.

(** [for (const ns of GAME_NAMESPACES) { ... } return null;] *)
Fixpoint decodeWrapper (nss : list string) (now : Z) (bytes : list byte) (wsUrl : string)
    (st : State) : result (option jsobj) * State :=
  match nss with
  | [] => (Return None, st)
  | ns :: rest =>
      match pb_get st ns with
      | None => decodeWrapper rest now bytes wsUrl st
      | Some nsObj =>
          match Wrapper nsObj with
          | None => decodeWrapper rest now bytes wsUrl st
          | Some W =>
              let st := emit [WrapperDecode ns] st in
              match wdecode W bytes with
              | Throw | Return None => decodeWrapper rest now bytes wsUrl st
              | Return (Some w) =>
                  if String.eqb (topic w) EmptyString
                  then decodeWrapper rest now bytes wsUrl st
                  else decodeWrapped now wsUrl ns nsObj w st
              end
          end
      end
  end.

Definition is_length_prefixed (bytes : list byte) : bool :=
  (frameLen bytes =? byteLength bytes) && (6 <=? frameLen bytes).

(** [decodeFrame(buffer, wsUrl)], with [Date.now()] as [now]: the event
    or null returned, or a raise. *)
Definition decodeFrame (window_protobuf : option Registry) (now : Z) (bytes : list byte)
    (wsUrl : string) (st : State) : result (option jsobj) * State :=
  match resolvePb window_protobuf st with
  | (false, st) => (Return None, st)
  | (true, st) =>
      if byteLength bytes <? 6 then (Return None, st)
      else if is_length_prefixed bytes
           then decodeLengthPrefixed now bytes wsUrl st
           else decodeWrapper GAME_NAMESPACES now bytes wsUrl st
  end.

End Decode.

(** ** Socket registry and action sender

    [sockets] is a [Map] from URL to socket: the list of its entries in
    insertion order. *)

(** [!url.includes('localhost') && !url.includes('127.0.0.1') &&
     ws.readyState === _OrigWS.OPEN], left to right. *)
Definition is_open_game_socket (e : url_key * WebSocket) : result bool :=
  match key_includes "localhost" (fst e) with
  | Throw => Throw
  | Return true => Return false
  | Return false =>
      match key_includes "127.0.0.1" (fst e) with
      | Throw => Throw
      | Return true => Return false
      | Return false => Return (readyState (snd e) =? OPEN)
      end
  end.

(** [for (const [url, ws] of sockets) { if (...) { gameWs = ws; break; } }]:
    the position and the socket of the first entry that qualifies, or the
    raise of a test made before one did. *)
Fixpoint select_game (l : list (url_key * WebSocket)) : result (option (nat * WebSocket)) :=
  match l with
  | [] => Return None
  | e :: l' =>
      match is_open_game_socket e with
      | Throw => Throw
      | Return true => Return (Some (0%nat, snd e))
      | Return false =>
          match select_game l' with
          | Return (Some (i, ws)) => Return (Some (S i, ws))
          | r => r
          end
      end
  end.

(** The encoding steps inside the [try] of [sendAction]; calling [encode]
    on a missing [ActionReq] or [Wrapper] raises. *)
Definition encode_action (holdem : Namespace) (roomId action coin : json)
    : result (list byte) :=
  match member holdem "ActionReq" with
  | None => Throw
  | Some ActionReq =>
      match encode ActionReq [("roomId", roomId); ("action", action); ("coin", coin)]%string with
      | Throw => Throw
      | Return body =>
          match Wrapper holdem with
          | None => Throw
          | Some W => wencode W (mkWrapperMsg "holdem.ActionReq" body)
          end
      end
  end.

(** The [try] block of [sendAction] on the selected socket, entry [i]. *)
Definition transmit_action (holdem : Namespace) (i : nat) (gameWs : WebSocket)
    (roomId action coin : json) (st : State) : result bool * State :=
  match encode_action holdem roomId action coin with
  | Throw => (Throw, st)
  | Return buf =>
      let (r, ws') := ws_send (Binary buf) gameWs in
      let st := set_sockets (alter (fun e => (fst e, ws')) i (sockets st)) st in
      match r with
      | Return _ => (Return true, st)
      | Throw => (Throw, st)
      end
  end.

(** [try { body } catch (e) { return v; }] *)
Definition try_catch {A S : Type} (body : result A * S) (v : A) : result A * S :=
  match body with
  | (Return a, s) => (Return a, s)
  | (Throw, s) => (Return v, s)
  end.

(** [sendAction]: the loop over [sockets] is outside the [try]. *)
Definition sendAction (roomId action coin : json) (st : State) : result bool * State :=
  match pb_get st "holdem" with
  | None => (Return false, st)
  | Some holdem =>
      match select_game (sockets st) with
      | Throw => (Throw, st)
      | Return None => (Return false, st)
      | Return (Some (i, gameWs)) =>
          try_catch (transmit_action holdem i gameWs roomId action coin st) false
      end
  end.

(** ** Startup and the life of the tap *)

Section Run.

Variable JSON_stringify : jsobj -> string.

(** One tick of the [pbPoll] interval; the state it leaves. *)
Definition pbPoll (window_protobuf : option Registry) (st : State) : State :=
  match resolvePb window_protobuf st with
  | (false, st) => st
  | (true, st) =>
      let st := fold_left (fun st ns => buildIdMap ns st) GAME_NAMESPACES st in
      match pb st with
      | None => st
      | Some r =>
          let st := set_idToType (buildReverseIdMap r (_idToType st)) st in
          let ns := List.filter (fun k => negb (str_startsWith "_" k)) (map fst r) in
          snd (busEmit "__proto_ready" [("namespaces"%string, JArr (map JStr ns))] st)
      end
  end.

(** The callbacks the host can run, one at a time: timers, relay events,
    frames of tracked sockets, calls of the public API.  The host also
    owns the sockets: it moves the relay between ready states and fills
    and empties the registry. *)
Inductive step : State -> State -> Prop :=
| step_openRelay fresh st :
    step st (openRelay fresh st)
| step_relay_readyState rs ws st :
    relay st = Some ws ->
    step st (set_relay (Some (ws_with_readyState rs ws)) st)
| step_relay_onopen st :
    step st (relay_onopen st)
| step_relay_onclose st :
    step st (snd (relay_onclose st))
| step_pbPoll w st :
    step st (pbPoll w st)
| step_message w now bytes wsUrl st :
    step st (snd (decodeFrame JSON_stringify w now bytes wsUrl st))
| step_on topic fn st :
    step st (snd (busOn topic fn st))
| step_off topic fn st :
    step st (snd (busOff topic fn st))
| step_sockets l st :
    step st (set_sockets l st)
| step_sendAction roomId action coin st :
    step st (snd (sendAction roomId action coin st)).

Definition reachable (st : State) : Prop := rtc step initial st.

End Run.

(** ** Notions the properties are stated with *)

(** The reading of the frame header that the format description gives:
    bytes 0 to 3 as a big-endian 32-bit unsigned integer. *)
Definition declaredLength (bytes : list byte) : Z :=
  at_index bytes 0 * 2 ^ 24 + at_index bytes 1 * 2 ^ 16 + at_index bytes 2 * 2 ^ 8
  + at_index bytes 3.

(** The close event of the relay: the host has closed the socket when it
    runs [onclose]. *)
Definition relay_closed (st : State) : State :=
  match relay st with
  | Some ws => set_relay (Some (ws_with_readyState CLOSED ws)) st
  | None => st
  end.

(** One failed connection: the relay closes and, when [onclose] set the
    timer, the timer runs [openRelay]. *)
Definition failed_attempt (fresh : option WebSocket) (st : State) : option Z * State :=
  let (t, st) := relay_onclose (relay_closed st) in
  (t, match t with Some _ => openRelay fresh st | None => st end).

(** Failures in a row, one per element of [fresh], with the delay each one
    scheduled. *)
Fixpoint failed_attempts (fresh : list (option WebSocket)) (st : State)
    : list (option Z) * State :=
  match fresh with
  | [] => ([], st)
  | f :: rest =>
      let (t, st) := failed_attempt f st in
      let (ts, st) := failed_attempts rest st in
      (t :: ts, st)
  end.

(** The topic the fallback loop of [decodeFrame] settles on: that of the
    first namespace of [nss] whose wrapper decodes the frame and gives a
    topic. *)
Fixpoint wrapperTopic (nss : list string) (bytes : list byte) (st : State) : option string :=
  match nss with
  | [] => None
  | ns :: rest =>
      match pb_get st ns with
      | None => wrapperTopic rest bytes st
      | Some nsObj =>
          match Wrapper nsObj with
          | None => wrapperTopic rest bytes st
          | Some W =>
              match wdecode W bytes with
              | Throw | Return None => wrapperTopic rest bytes st
              | Return (Some w) =>
                  if String.eqb (topic w) EmptyString then wrapperTopic rest bytes st
                  else Some (topic w)
              end
          end
      end
  end.

(** The type name [decodeFrame] resolves for a frame, under either scheme. *)
Definition resolvedTypeName (window_protobuf : option Registry) (bytes : list byte)
    (st : State) : option string :=
  match resolvePb window_protobuf st with
  | (false, _) => None
  | (true, st) =>
      if byteLength bytes <? 6 then None
      else if is_length_prefixed bytes
           then option_map snd (_idToType st !! frameMsgId bytes)
           else option_map last_segment (wrapperTopic GAME_NAMESPACES bytes st)
  end.

(** All pushes of [xs], oldest first, into a buffer of capacity [cap]. *)
Definition pushes {A : Type} (cap : Z) (xs : list A) (buf : list A) : list A :=
  fold_left (fun buf x => push_shift cap x buf) xs buf.

(** What becomes of an entry of [sockets] in the loop of [sendAction],
    told from its key and its socket.  The entry is taken: the socket is
    open, and the key has neither ["localhost"] nor ["127.0.0.1"] (for a
    key that is not a string: its [includes] answers with a falsy value
    twice). *)
Definition eligible (e : url_key * WebSocket) : Prop :=
  readyState (snd e) = OPEN /\
  match fst e with
  | UrlStr s => str_includes "localhost" s = false /\ str_includes "127.0.0.1" s = false
  | UrlValue includes =>
      includes "localhost" = Return false /\ includes "127.0.0.1" = Return false
  end.

(** The entry is passed over: the key has one of the two loopback names,
    or the socket is not open. *)
Definition passed_over (e : url_key * WebSocket) : Prop :=
  match fst e with
  | UrlStr s =>
      str_includes "localhost" s = true \/ str_includes "127.0.0.1" s = true \/
      readyState (snd e) <> OPEN
  | UrlValue includes =>
      includes "localhost" = Return true \/
      includes "localhost" = Return false /\
      (includes "127.0.0.1" = Return true \/
       includes "127.0.0.1" = Return false /\ readyState (snd e) <> OPEN)
  end.

(** The test raises: the key is not a string and a call of [includes] on
    it raises. *)
Definition test_raises (e : url_key * WebSocket) : Prop :=
  match fst e with
  | UrlStr _ => False
  | UrlValue includes =>
      includes "localhost" = Throw \/
      includes "localhost" = Return false /\ includes "127.0.0.1" = Throw
  end.

(** The socket [ws] after a call of [send] that took [data], and after
    one that raised. *)
Definition after_send (data : wsdata) (ws : WebSocket) : WebSocket :=
  mkWebSocket (readyState ws) (send_throws ws) (S (send_calls ws)) (sent ws ++ [data]).

Definition after_failed_send (ws : WebSocket) : WebSocket :=
  mkWebSocket (readyState ws) (send_throws ws) (S (send_calls ws)) (sent ws).

(** ** A serializer for the examples

    [JSON.stringify] on the values above, for strings of the Latin-1 range
    and numbers printed in decimal.  The general statements below hold for
    every serializer. *)

Definition dquote : ascii := "034"%char.
Definition backslash : ascii := "092"%char.

Definition json_escape (c : ascii) : string :=
  let n := Z.of_N (N_of_ascii c) in
  if n =? 34 then String backslash (String dquote EmptyString)
  else if n =? 92 then String backslash (String backslash EmptyString)
  else if n =? 8 then "\b"
  else if n =? 9 then "\t"
  else if n =? 10 then "\n"
  else if n =? 12 then "\f"
  else if n =? 13 then "\r"
  else if n <? 32 then "\u00" +:+ String (hex_digit (n / 16)) (String (hex_digit (n mod 16)) EmptyString)
  else String c EmptyString.

Fixpoint json_escape_all (s : string) : string :=
  match s with
  | EmptyString => EmptyString
  | String c s' => json_escape c +:+ json_escape_all s'
  end.

Definition json_quote (s : string) : string :=
  String dquote (json_escape_all s) +:+ String dquote EmptyString.

Fixpoint join_with (sep : string) (l : list string) : string :=
  match l with
  | [] => EmptyString
  | [s] => s
  | s :: l' => s +:+ sep +:+ join_with sep l'
  end.

Fixpoint stringify_value (v : json) : string :=
  match v with
  | JNull => "null"
  | JBool true => "true"
  | JBool false => "false"
  | JNum n => DecimalString.NilZero.string_of_int (Z.to_int n)
  | JStr s => json_quote s
  | JArr items => "[" +:+ join_with "," (map stringify_value items) +:+ "]"
  | JObj fields =>
      "{" +:+ join_with "," (map (fun kv => json_quote (fst kv) +:+ ":" +:+ stringify_value (snd kv)) fields)
      +:+ "}"
  end.

Definition stringify (o : jsobj) : string := stringify_value (JObj o).

(** The delay the format description gives for the retry counter [n]:
    the minimum of 30000 and 1000 times its square, up to the maximum
    retry count, and no retry past it. *)
Definition backoff (n : Z) : option Z :=
  if n <=? 8 then Some (Z.min 30000 (1000 * n ^ 2)) else None.

Definition is_wrapper_decode (e : effect) : bool :=
  match e with
  | WrapperDecode _ => true
  | Invoke _ _ => false
  end.

(** What holds of the buffers, of the reverse ID map and of the
    subscriptions all along. *)
Record bounded (st : State) : Prop := mkBounded {
  queue_bounded : (length (queue st) <= 500)%nat;
  lastEvents_bounded : (length (lastEvents st) <= 200)%nat;
  unknownFrames_bounded : (length (unknownFrames st) <= 500)%nat;
  id_zero_absent : _idToType st !! 0 = None;
  topics_own : forall t, inherited t = true -> _handlers st !! t = None
}.

(** Two states with the same buffers, relay and room: they differ at most
    in the registry handle and in the calls logged. *)
Record same_buffers (st st' : State) : Prop := mkSameBuffers {
  same_relay : relay st' = relay st;
  same_relayOk : relayOk st' = relayOk st;
  same_queue : queue st' = queue st;
  same_lastEvents : lastEvents st' = lastEvents st;
  same_unknownFrames : unknownFrames st' = unknownFrames st;
  same_lastRoomId : _lastRoomId st' = _lastRoomId st
}.

(** Two states that differ at most in the last room seen. *)
Record same_buffers_but_room (st st' : State) : Prop := mkSameButRoom {
  sbr_relay : relay st' = relay st;
  sbr_relayOk : relayOk st' = relayOk st;
  sbr_queue : queue st' = queue st;
  sbr_lastEvents : lastEvents st' = lastEvents st;
  sbr_unknownFrames : unknownFrames st' = unknownFrames st;
  sbr_log : log st' = log st;
  sbr_idToType : _idToType st' = _idToType st;
  sbr_pb : pb st' = pb st
}.

(** ** Scenarios *)

(** A relay whose second [send] raises, with three records queued. *)
Definition flaky_relay : WebSocket := mkWebSocket OPEN (fun n => Nat.eqb n 1) 0 [].

Definition st_queued : State :=
  set_queue ["a"; "b"; "c"]%string (set_relay (Some flaky_relay) initial).

(** 201 decoded events, told apart by a number. *)
Definition evts_201 : list jsobj :=
  map (fun n => [("n"%string, JNum (Z.of_nat n))]) (seq 0 201).

(** A disconnected tap whose queue is full. *)
Definition st_full : State := set_queue (repeat "x"%string 500) initial.

(** A registry with two namespaces.  [holdem] numbers its types (one of
    them with 0), has the type [ActionReq] and a wrapper codec that tells
    frames by their first byte; the type [Foo] is in [commonProto] only. *)
Definition codec_ActionReq : Codec :=
  mkCodec (fun body => Return (JObj [("roomId"%string, JNum 5)]))
          (fun obj => Return [x08; x05]).

Definition codec_Foo : Codec :=
  mkCodec (fun body => match body with
                       | x01 :: _ => Return (JObj [("roomId"%string, JNum 5)])
                       | _ => Throw
                       end)
          (fun obj => Return []).

Definition wrapper_holdem : WrapperCodec :=
  mkWrapperCodec
    (fun bytes => match bytes with
                  | x0a :: _ => Return (Some (mkWrapperMsg "holdem.Foo" [x01]))
                  | x80 :: _ => Return (Some (mkWrapperMsg "holdem.Foo" [x01]))
                  | x0b :: _ => Return (Some (mkWrapperMsg "holdem.Ping" []))
                  | _ => Throw
                  end)
    (fun w => Return (x0a :: body w)).

Definition ns_holdem : Namespace :=
  mkNamespace (Some [("Unknown", 0); ("Ping", 1); ("ActionReq", 42)]%string)
              (Some wrapper_holdem)
              (fun n => if String.eqb n "ActionReq" then Some codec_ActionReq else None).

Definition ns_commonProto : Namespace :=
  mkNamespace (Some [("Foo", 7)]%string) None
              (fun n => if String.eqb n "Foo" then Some codec_Foo else None).

Definition registry_example : Registry :=
  [("holdem", ns_holdem); ("commonProto", ns_commonProto)]%string.

(** The tap with one subscriber for ["*"], one for the composite topic
    and one for ["Foo"], after the poll that found the registry. *)
Definition st_ready : State :=
  pbPoll (Some registry_example)
         (snd (busOn "Foo" 3%nat
                 (snd (busOn "commonProto.Foo" 2%nat (snd (busOn "*" 1%nat initial)))))).

Definition game_url : string := "wss://game.example/ws?token=1".

(** A frame of the wrapper scheme: topic [holdem.Foo], a body of one
    byte. *)
Definition frame_wrapped_Foo : list byte :=
  [x0a; x0a; x68; x6f; x6c; x64; x65; x6d; x2e; x46; x6f; x6f; x12; x01; x01].

(** The event decoded from it, at time 0. *)
Definition evt_Foo : jsobj :=
  proto_event "commonProto" "Foo" (JNum 7) 0 game_url (JObj [("roomId"%string, JNum 5)]).

(** A length-prefixed frame of 10 bytes with the ID 9999, which no
    namespace of the registry has. *)
Definition frame_9999 : list byte := [x00; x00; x00; x0a; x27; x0f; x01; x02; x03; x04].

(** A frame of 2 GiB: the header gives its length, 2 ^ 31. *)
Definition huge_frame : list byte :=
  x80 :: x00 :: x00 :: x00 :: x00 :: x2a :: repeat x00 (Z.to_nat 2147483642).

(** Two frames for a type of the skip set: [Ping] by its ID under the
    length-prefixed scheme, and by its topic under the wrapper scheme. *)
Definition frame_Ping : list byte := [x00; x00; x00; x06; x00; x01].

Definition frame_wrapped_Ping : list byte :=
  [x0b; x0b; x68; x6f; x6c; x64; x65; x6d; x2e; x50; x69; x6e; x67].

(** A length-prefixed frame with the message ID 0. *)
Definition frame_zero : list byte := [x00; x00; x00; x08; x00; x00; x01; x02].

(** A frame of 2 GiB with the message ID 0. *)
Definition huge_frame_zero : list byte :=
  x80 :: x00 :: x00 :: x00 :: x00 :: x00 :: repeat x00 (Z.to_nat 2147483642).

(** An open socket, and a registry of three entries: one keyed by a
    loopback address, one whose socket has closed, one open. *)
Definition ws_open : WebSocket := mkWebSocket OPEN (fun _ => false) 0 [].

Definition sockets_example : list (url_key * WebSocket) :=
  [(UrlStr "ws://localhost:9/ws", ws_open);
   (UrlStr "wss://a.example/ws", ws_with_readyState CLOSED ws_open);
   (UrlStr "wss://b.example/ws", ws_open)].

(** The registry after [attachToSocket] was given an object whose [url] is
    the number 7: a number has no [includes]. *)
Definition sockets_number_key : list (url_key * WebSocket) :=
  [(UrlValue (fun _ => Throw), ws_open); (UrlStr "wss://b.example/ws", ws_open)].

(** ** The fallback loop, step by step *)

(** What the loop over [nss] settles on, with the wrapper codecs it called
    on the way: the namespace whose wrapper decoded the frame, that
    namespace's object and the wrapper decoded. *)
Fixpoint wrapperResolve (nss : list string) (bytes : list byte) (st : State)
    : list effect * option (string * Namespace * WrapperMsg) :=
  match nss with
  | [] => ([], None)
  | ns :: rest =>
      match pb_get st ns with
      | None => wrapperResolve rest bytes st
      | Some nsObj =>
          match Wrapper nsObj with
          | None => wrapperResolve rest bytes st
          | Some W =>
              match wdecode W bytes with
              | Return (Some w) =>
                  if String.eqb (topic w) EmptyString
                  then let (es, r) := wrapperResolve rest bytes st in (WrapperDecode ns :: es, r)
                  else ([WrapperDecode ns], Some (ns, nsObj, w))
              | _ => let (es, r) := wrapperResolve rest bytes st in (WrapperDecode ns :: es, r)
              end
          end
      end
  end.

(** The decoder and its namespace for [typeName], as the loop body picks
    them for a wrapper decoded by [ns]. *)
Definition pick_decoder (ns : string) (nsObj : Namespace) (typeName : string) (st : State)
    : option Codec * string :=
  match member nsObj typeName with
  | Some d => (Some d, ns)
  | None =>
      match search_decoder typeName GAME_NAMESPACES st with
      | Some (d, tryNs) => (Some d, tryNs)
      | None => (None, ns)
      end
  end.

(** The calls a publish makes, in order, on a topic that is not an
    inherited member. *)
Definition published (topic : string) (data : jsobj) (st : State) : list effect :=
  map (fun fn => Invoke fn data) (handlers_of st topic)
  ++ map (fun fn => Invoke fn (with_topic topic data)) (handlers_of st "*").

(** ** WebSocket proxy and socket tracking, by the identity of the sockets

    [patchSocket], the proxy constructor, [attachToSocket] and the [send]
    hook look at a socket only through its identity and its URL.  Here a
    socket is a handle; [tracked] is the [Map] [sockets] with the handles
    as values, [_patchedSockets] the [WeakSet], and the listeners added
    to the sockets are listed in the order added. *)

Definition handle : Type := nat.

Record Tracker : Type := mkTracker {
  tracked : list (string * handle);
  _patchedSockets : gset handle;
  message_listeners : list handle;
  close_listeners : list (handle * string)
}.

Definition no_tracker : Tracker := mkTracker [] ∅ [] [].

(** [sockets.get(url)] *)
Fixpoint map_get (url : string) (m : list (string * handle)) : option handle :=
  match m with
  | [] => None
  | (k, v) :: m' => if String.eqb url k then Some v else map_get url m'
  end.

(** [sockets.set(url, ws)]: a key that is there keeps its place. *)
Fixpoint map_set (url : string) (ws : handle) (m : list (string * handle))
    : list (string * handle) :=
  match m with
  | [] => [(url, ws)]
  | (k, v) :: m' => if String.eqb url k then (k, ws) :: m' else (k, v) :: map_set url ws m'
  end.

(** [sockets.delete(url)] *)
Fixpoint map_delete (url : string) (m : list (string * handle)) : list (string * handle) :=
  match m with
  | [] => []
  | (k, v) :: m' => if String.eqb url k then m' else (k, v) :: map_delete url m'
  end.

Definition patchSocket (ws : handle) (url : string) (t : Tracker) : Tracker :=
  if bool_decide (ws ∈ _patchedSockets t) then t
  else mkTracker (map_set url ws (tracked t)) ({[ws]} ∪ _patchedSockets t)
                 (message_listeners t ++ [ws]) (close_listeners t ++ [(ws, url)]).

(** The close listener that [patchSocket] adds to [ws] for [url]. *)
Definition close_listener (ws : handle) (url : string) (t : Tracker) : Tracker :=
  match map_get url (tracked t) with
  | Some ws' =>
      if Nat.eqb ws' ws
      then mkTracker (map_delete url (tracked t)) (_patchedSockets t) (message_listeners t)
                     (close_listeners t)
      else t
  | None => t
  end.

(** The close event of the socket [ws]: its close listeners run. *)
Definition socket_onclose (ws : handle) (t : Tracker) : Tracker :=
  fold_left (fun t l => if Nat.eqb (fst l) ws then close_listener ws (snd l) t else t)
            (close_listeners t) t.

Definition isLocal (urlStr : string) : bool :=
  str_includes "localhost" urlStr || str_includes "127.0.0.1" urlStr.

(** The first argument of the constructor: a string, a value with a
    [toString] (its result is kept), or anything else. *)
Inductive url_arg : Type :=
| UrlString (s : string)
| UrlObject (toString : string)
| UrlOther.

(** [typeof url === 'string' ? url : (url && url.toString ? url.toString() : '')] *)
Definition urlStr_of (url : url_arg) : string :=
  match url with
  | UrlString s => s
  | UrlObject s => s
  | UrlOther => EmptyString
  end.

(** [ProxiedWebSocket(url, protocols)]; [ws] is the socket the original
    constructor made.  The result is that socket. *)
Definition ProxiedWebSocket (url : url_arg) (ws : handle) (t : Tracker) : handle * Tracker :=
  (ws, if isLocal (urlStr_of url) then t else patchSocket ws (urlStr_of url) t).

(** The argument of [attachToSocket]: nothing, or an object, which may
    have an [addEventListener] function and a [url]. *)
Record SocketLike : Type := mkSocketLike {
  sl_handle : handle;
  sl_addEventListener : bool;
  sl_url : option string
}.

(** [ws.url || ''] *)
Definition url_or_empty (url : option string) : string :=
  match url with
  | Some u => u
  | None => EmptyString
  end.

Definition attachToSocket (ws : option SocketLike) (t : Tracker) : bool * Tracker :=
  match ws with
  | None => (false, t)
  | Some o =>
      if sl_addEventListener o
      then (true, patchSocket (sl_handle o) (url_or_empty (sl_url o)) t)
      else (false, t)
  end.

(** The [send] hook on the original prototype, called on the socket [ws]
    with the URL [url]; the call goes on to the original [send] in every
    case. *)
Definition hooked_send (ws : handle) (url : option string) (t : Tracker) : Tracker :=
  if bool_decide (ws ∈ _patchedSockets t) then t
  else if isLocal (url_or_empty url) then t
       else patchSocket ws (url_or_empty url) t.

(** What the page and the host can do to the tracker. *)
Inductive tracker_step : Tracker -> Tracker -> Prop :=
| tstep_new url ws t :
    tracker_step t (snd (ProxiedWebSocket url ws t))
| tstep_attach ws t :
    tracker_step t (snd (attachToSocket ws t))
| tstep_send ws url t :
    tracker_step t (hooked_send ws url t)
| tstep_close ws t :
    tracker_step t (socket_onclose ws t).

Definition tracker_reachable (t : Tracker) : Prop := rtc tracker_step no_tracker t.

(** ** Diagnostics *)

Record Stats : Type := mkStats {
  relayConnected : bool;
  relayRetries : Z;
  queuedEvents : Z;
  protobufReady : bool;
  trackedSockets : Z;
  ringBufferSize : Z;
  unknownFrameCount : Z;
  namespaces : list string
}.

(** [stats()], without the two constants of the build. *)
Definition stats (st : State) : Stats :=
  mkStats (relayOk st) (retries st) (Z.of_nat (length (queue st)))
          (match pb st with Some _ => true | None => false end)
          (Z.of_nat (length (sockets st)))
          (Z.of_nat (length (lastEvents st)))
          (Z.of_nat (length (unknownFrames st)))
          (match pb st with
           | Some r => List.filter (fun k => negb (str_startsWith "_" k)) (map fst r)
           | None => []
           end).

(** ** The order of the keys of an ID map

    What [Object.entries] guarantees of an object with numeric keys: no
    key twice, and every array index before the keys that follow it,
    which are larger when they are array indices. *)
Fixpoint js_ordered (m : idmap) : Prop :=
  match m with
  | [] => True
  | (a, _) :: m' =>
      ~ In a (map fst m') /\
      (forall b, In b (map fst m') -> is_array_index b = true ->
                 is_array_index a = true /\ a < b) /\
      js_ordered m'
  end.

(** ** More scenarios *)

(** A length-prefixed frame for the ID 42 with a body of four bytes, and
    one for the ID 7 whose body the codec of [Foo] does not decode. *)
Definition frame_42 : list byte := [x00; x00; x00; x0a; x00; x2a; x01; x02; x03; x04].

Definition frame_7_bad : list byte := [x00; x00; x00; x08; x00; x07; x02; x03].

(** A frame that is of neither scheme for the example registry. *)
Definition frame_noise : list byte := [xff; x01; x02; x03; x04; x05; x06].

(** Whether the character [c] is in [s]. *)
Fixpoint str_mem (c : ascii) (s : string) : bool :=
  match s with
  | EmptyString => false
  | String a s' => Ascii.eqb a c || str_mem c s'
  end.

(** What holds of the tracker all along: a socket has its listeners once
    and only when it is in [_patchedSockets], the sockets of the map are
    in [_patchedSockets], and the map has one entry for a URL. *)
Record tracker_ok (t : Tracker) : Prop := mkTrackerOk {
  message_once : List.NoDup (message_listeners t);
  message_patched : forall h, In h (message_listeners t) <-> h ∈ _patchedSockets t;
  close_once : List.NoDup (map fst (close_listeners t));
  close_patched : forall h, In h (map fst (close_listeners t)) <-> h ∈ _patchedSockets t;
  tracked_patched : forall url h, In (url, h) (tracked t) -> h ∈ _patchedSockets t;
  tracked_once : List.NoDup (map fst (tracked t))
}.

(** A socket opened to a loopback address and two to the same game
    server. *)
Definition url_relay : string := "ws://localhost:13030/ws".
Definition url_game : string := "wss://game.example/ws".

(** * Properties *)

(** ** The frame header *)

Lemma byteZ_range (b : byte) : 0 <= byteZ b < 256.
Proof. unfold byteZ. pose proof (Byte.to_N_bounded b). lia. Qed.

Lemma at_index_range (bytes : list byte) (i : nat) : 0 <= at_index bytes i < 256.
Proof. apply byteZ_range. Qed.

Lemma toInt32_small (z : Z) : - 2 ^ 31 <= z < 2 ^ 31 -> toInt32 z = z.
Proof. intros H. unfold toInt32. rewrite Z.mod_small; lia. Qed.

Lemma toInt32_wrap (z : Z) : 2 ^ 31 <= z < 2 ^ 32 -> toInt32 z = z - 2 ^ 32.
Proof.
  intros H. unfold toInt32.
  replace (z + 2 ^ 31) with (z - 2 ^ 31 + 1 * 2 ^ 32) by lia.
  rewrite Z.mod_add by lia. rewrite Z.mod_small; lia.
Qed.

(** Bits that do not overlap: [x] is a multiple of [2 ^ k] and [y] is below
    it, so or-ing is adding. *)
Lemma lor_disjoint (q y k : Z) :
  0 <= k -> 0 <= y < 2 ^ k -> Z.lor (q * 2 ^ k) y = q * 2 ^ k + y.
Proof.
  intros Hk Hy.
  assert (Hland : Z.land (q * 2 ^ k) y = 0).
  { apply Z.bits_inj'. intros n Hn. rewrite Z.land_spec, Z.bits_0.
    destruct (Z.lt_ge_cases n k) as [Hlt | Hge].
    - rewrite Z.mul_pow2_bits_low by lia. reflexivity.
    - destruct (Z.eq_dec y 0) as [-> | Hy0].
      + rewrite Z.bits_0. apply andb_false_r.
      + rewrite (Z.bits_above_log2 y n); [apply andb_false_r | lia |].
        apply Z.lt_le_trans with k; [| lia]. apply Z.log2_lt_pow2; lia. }
  pose proof (Z.add_lor_land (q * 2 ^ k) y) as H. rewrite Hland in H. lia.
Qed.

Lemma js_shl_byte_small (a n : Z) :
  0 <= a < 256 -> 0 <= n <= 16 -> js_shl a n = a * 2 ^ n.
Proof.
  intros Ha Hn. unfold js_shl.
  rewrite (toInt32_small a) by lia.
  rewrite (Z.mod_small n 32) by lia.
  rewrite Z.shiftl_mul_pow2 by lia.
  assert (0 < 2 ^ n <= 2 ^ 16) by (split; [apply Z.pow_pos_nonneg | apply Z.pow_le_mono_r]; lia).
  apply toInt32_small. nia.
Qed.

Lemma js_shl_byte_24 (a : Z) :
  0 <= a < 256 -> js_shl a 24 = if a <? 128 then a * 2 ^ 24 else a * 2 ^ 24 - 2 ^ 32.
Proof.
  intros Ha. unfold js_shl.
  rewrite (toInt32_small a) by lia.
  change (24 mod 32) with 24. rewrite Z.shiftl_mul_pow2 by lia.
  destruct (a <? 128) eqn:E.
  - apply Z.ltb_lt in E. apply toInt32_small. lia.
  - apply Z.ltb_ge in E. apply toInt32_wrap. lia.
Qed.

(** The header as the code reads it is the unsigned reading brought back
    into the signed 32-bit range. *)
Lemma frameLen_declaredLength (bytes : list byte) :
  frameLen bytes =
  if at_index bytes 0 <? 128 then declaredLength bytes else declaredLength bytes - 2 ^ 32.
Proof.
  unfold frameLen, declaredLength.
  pose proof (at_index_range bytes 0) as H0. pose proof (at_index_range bytes 1) as H1.
  pose proof (at_index_range bytes 2) as H2. pose proof (at_index_range bytes 3) as H3.
  set (b0 := at_index bytes 0) in *. set (b1 := at_index bytes 1) in *.
  set (b2 := at_index bytes 2) in *. set (b3 := at_index bytes 3) in *.
  rewrite (js_shl_byte_24 b0), (js_shl_byte_small b1 16), (js_shl_byte_small b2 8) by lia.
  set (h := if b0 <? 128 then b0 * 2 ^ 24 else b0 * 2 ^ 24 - 2 ^ 32).
  assert (Hh : exists q, h = q * 2 ^ 24 /\ -128 <= q < 128).
  { unfold h. destruct (b0 <? 128) eqn:E.
    - apply Z.ltb_lt in E. exists b0. lia.
    - apply Z.ltb_ge in E. exists (b0 - 256). lia. }
  destruct Hh as (q & Hq & Hqr).
  unfold js_or.
  rewrite (toInt32_small h), (toInt32_small (b1 * 2 ^ 16)) by lia.
  rewrite Hq. rewrite (lor_disjoint q (b1 * 2 ^ 16) 24) by lia.
  rewrite (toInt32_small (q * 2 ^ 24 + b1 * 2 ^ 16)), (toInt32_small (b2 * 2 ^ 8)) by lia.
  replace (q * 2 ^ 24 + b1 * 2 ^ 16) with ((q * 2 ^ 8 + b1) * 2 ^ 16) by lia.
  rewrite (lor_disjoint (q * 2 ^ 8 + b1) (b2 * 2 ^ 8) 16) by lia.
  rewrite (toInt32_small ((q * 2 ^ 8 + b1) * 2 ^ 16 + b2 * 2 ^ 8)), (toInt32_small b3) by lia.
  replace ((q * 2 ^ 8 + b1) * 2 ^ 16 + b2 * 2 ^ 8)
    with (((q * 2 ^ 8 + b1) * 2 ^ 8 + b2) * 2 ^ 8) by lia.
  rewrite (lor_disjoint ((q * 2 ^ 8 + b1) * 2 ^ 8 + b2) b3 8) by lia.
  unfold h in Hq. destruct (b0 <? 128); lia.
Qed.

Lemma declaredLength_range (bytes : list byte) : 0 <= declaredLength bytes < 2 ^ 32.
Proof.
  unfold declaredLength.
  pose proof (at_index_range bytes 0). pose proof (at_index_range bytes 1).
  pose proof (at_index_range bytes 2). pose proof (at_index_range bytes 3). lia.
Qed.

(** Below 2 GiB the two readings of the header agree. *)
Lemma frameLen_unsigned (bytes : list byte) :
  declaredLength bytes < 2 ^ 31 -> frameLen bytes = declaredLength bytes.
Proof.
  intros H. rewrite frameLen_declaredLength.
  destruct (at_index bytes 0 <? 128) eqn:E; [reflexivity |].
  apply Z.ltb_ge in E. unfold declaredLength in H.
  pose proof (at_index_range bytes 1). pose proof (at_index_range bytes 2).
  pose proof (at_index_range bytes 3). lia.
Qed.

Lemma frameMsgId_unsigned (bytes : list byte) :
  frameMsgId bytes = at_index bytes 4 * 2 ^ 8 + at_index bytes 5.
Proof.
  unfold frameMsgId.
  pose proof (at_index_range bytes 4) as H4. pose proof (at_index_range bytes 5) as H5.
  rewrite (js_shl_byte_small _ 8) by lia.
  unfold js_or. rewrite !toInt32_small by lia.
  apply lor_disjoint; lia.
Qed.

(** ** Relay *)

Lemma relay_send_queue (json : string) (st : State) :
  queue (snd (relay_send json st)) = queue st.
Proof. unfold relay_send. destruct (relay st); [destruct (ws_send _ _) |]; reflexivity. Qed.

(** What [flush] does with the queue [q] on the relay [ws]: a prefix is
    delivered in order, at most one record is lost (the one whose [send]
    raised), and what follows it stays queued. *)
Lemma flush_spec (q : list string) :
  forall (st : State) (ws : WebSocket),
    relay st = Some ws ->
    exists delivered lost rest ws',
      q = delivered ++ lost ++ rest /\
      relay (flush q st) = Some ws' /\
      sent ws' = sent ws ++ map Text delivered /\
      queue (flush q st) = rest /\
      (lost = [] /\ rest = [] \/
       exists item, lost = [item] /\
                    send_throws ws (send_calls ws + length delivered)%nat = true).
Proof.
  induction q as [| item q IH]; intros st ws Hr.
  - exists [], [], [], ws. simpl. rewrite Hr, app_nil_r. auto 10.
  - cbn [flush]. unfold relay_send. cbn [relay set_queue]. rewrite Hr. unfold ws_send.
    destruct (send_throws ws (send_calls ws)) eqn:E.
    + exists [], [item], q,
        (mkWebSocket (readyState ws) (send_throws ws) (S (send_calls ws)) (sent ws)).
      simpl. rewrite app_nil_r, Nat.add_0_r. repeat split; eauto.
    + match goal with |- context [flush q ?s] => set (st1 := s) end.
      destruct (IH st1 _ eq_refl) as (d & l & r & ws' & Hq & Hrel & Hsent & Hqueue & Hlost).
      exists (item :: d), l, r, ws'. cbn [sent send_calls send_throws] in Hsent, Hlost.
      rewrite Hrel, Hsent, Hqueue, Hq, <- app_assoc. repeat split; try reflexivity.
      destruct Hlost as [? | (i & ? & Hthrow)]; [left; assumption | right].
      exists i. split; [assumption |]. cbn [length].
      replace (send_calls ws + S (length d))%nat with (S (send_calls ws) + length d)%nat by lia.
      exact Hthrow.
Qed.

Lemma flush_queue_length (q : list string) :
  forall st : State, (length (queue (flush q st)) <= length q)%nat.
Proof.
  induction q as [| item q IH]; intros st; simpl; [lia |].
  pose proof (relay_send_queue item (set_queue q st)) as Hq.
  destruct (relay_send item (set_queue q st)) as [[[] |] st'] eqn:E; simpl in *.
  - specialize (IH st'). lia.
  - rewrite Hq. lia.
Qed.

(** C3, at a queue of three records on a relay whose second [send]
    raises: on entering Open the retry counter is reset and the queue is
    flushed from its head, and the flush stops at the failure with the
    last record still queued; but the record whose [send] raised has left
    the queue without being sent. *)
Theorem relay_onopen_loses_failed_record :
  retries (relay_onopen st_queued) = 0 /\
  relayOk (relay_onopen st_queued) = true /\
  option_map sent (relay (relay_onopen st_queued)) = Some [Text "a"] /\
  queue (relay_onopen st_queued) = ["c"]%string.
Proof. repeat split. Qed.

Lemma failed_attempt_delay (f : option WebSocket) (st : State) :
  fst (failed_attempt f st) = backoff (retries st + 1) /\
  retries (snd (failed_attempt f st)) = retries st + 1.
Proof.
  unfold failed_attempt, relay_onclose, relay_closed, backoff, MAX_RETRIES.
  destruct (relay st); simpl;
    (destruct (retries st + 1 <=? 8); simpl;
     [ split; [f_equal; f_equal; lia |]; unfold openRelay; simpl;
       repeat (match goal with |- context [match ?x with _ => _ end] => destruct x end; simpl);
       reflexivity
     | split; reflexivity ]).
Qed.

Lemma failed_attempts_delays (fresh : list (option WebSocket)) :
  forall st : State,
    fst (failed_attempts fresh st) =
    map (fun k => backoff (retries st + Z.of_nat k)) (seq 1 (length fresh)).
Proof.
  induction fresh as [| f fresh IH]; intros st; simpl; [reflexivity |].
  destruct (failed_attempt_delay f st) as [Hd Hr].
  destruct (failed_attempt f st) as [t st1]. simpl in *.
  specialize (IH st1). destruct (failed_attempts fresh st1) as [ts st2]. simpl in *.
  subst t. f_equal.
  rewrite IH, Hr, <- (seq_shift (length fresh) 1), map_map.
  apply map_ext. intros k. f_equal. lia.
Qed.

(** C5: counted from a retry counter of 0, the delays scheduled by nine
    connection failures in a row are 1000, 4000, 9000, 16000, 25000, 30000,
    30000, 30000 milliseconds and then none; the k-th failure schedules
    min(30000, 1000 * k * k) while k is at most 8, and nothing after. *)
Theorem reconnect_backoff (st : State) (fresh : list (option WebSocket)) :
  retries st = 0 ->
  (length fresh = 9%nat ->
   fst (failed_attempts fresh st) =
   [Some 1000; Some 4000; Some 9000; Some 16000; Some 25000; Some 30000; Some 30000;
    Some 30000; None]) /\
  (forall k : nat,
     (k < length fresh)%nat ->
     nth k (fst (failed_attempts fresh st)) None =
     if (k <? 8)%nat then Some (Z.min 30000 (1000 * (Z.of_nat k + 1) * (Z.of_nat k + 1)))
     else None).
Proof.
  intros H0. rewrite failed_attempts_delays, H0. split.
  - intros ->. reflexivity.
  - intros k Hk.
    rewrite (nth_indep _ None (backoff (0 + Z.of_nat 0))) by (rewrite length_map, length_seq; exact Hk).
    rewrite (map_nth (fun k => backoff (0 + Z.of_nat k))), seq_nth by exact Hk.
    unfold backoff. destruct (k <? 8)%nat eqn:E.
    + apply Nat.ltb_lt in E. rewrite (proj2 (Z.leb_le _ _)) by lia. f_equal. f_equal. lia.
    + apply Nat.ltb_ge in E. rewrite (proj2 (Z.leb_gt _ _)) by lia. reflexivity.
Qed.

Lemma reconnect_backoff_witness :
  fst (failed_attempts (repeat None 9) initial) =
  [Some 1000; Some 4000; Some 9000; Some 16000; Some 25000; Some 30000; Some 30000;
   Some 30000; None].
Proof. apply (proj1 (reconnect_backoff initial (repeat None 9) eq_refl)). reflexivity. Defined.

Lemma relayEmit_queue (json : string) (st : State) :
  queue (relayEmit json st) = queue st \/
  (length (queue st) < 500)%nat /\ queue (relayEmit json st) = queue st ++ [json].
Proof.
  unfold relayEmit.
  destruct (relayOk st).
  - pose proof (relay_send_queue json st) as Hq.
    destruct (relay_send json st) as [[[] |] st']; simpl in Hq; [left; exact Hq |].
    cbv beta zeta. rewrite Hq. destruct (Z.of_nat (length (queue st)) <? 500) eqn:E.
    + apply Z.ltb_lt in E. right. simpl. split; [lia | reflexivity].
    + left. exact Hq.
  - destruct (Z.of_nat (length (queue st)) <? 500) eqn:E.
    + apply Z.ltb_lt in E. right. simpl. split; [lia | reflexivity].
    + left. reflexivity.
Qed.

Lemma relay_queue_capacity_aux (json : string) (st : State) :
  ((length (queue st) <= 500)%nat -> (length (queue (relayEmit json st)) <= 500)%nat) /\
  (length (queue st) = 500%nat -> queue (relayEmit json st) = queue st).
Proof.
  destruct (relayEmit_queue json st) as [Hq | [Hlt Hq]]; rewrite Hq; split; intros H.
  - exact H.
  - reflexivity.
  - rewrite length_app. simpl. lia.
  - lia.
Qed.

(** ** Ring buffers *)

Section Ring.

Context {A : Type}.
Variable c : nat.

Lemma tail_drop (l : list A) : tail l = drop 1 l.
Proof. destruct l; reflexivity. Qed.

Lemma push_shift_length (x : A) (buf : list A) :
  (length buf <= c)%nat -> (length (push_shift (Z.of_nat c) x buf) <= c)%nat.
Proof.
  intros H. unfold push_shift.
  destruct (Z.of_nat c <? Z.of_nat (length (buf ++ [x]))) eqn:E.
  - rewrite tail_drop, length_drop, length_app. simpl. lia.
  - apply Z.ltb_ge in E. lia.
Qed.

Lemma push_shift_full (x : A) (buf : list A) :
  (0 < c)%nat -> length buf = c -> push_shift (Z.of_nat c) x buf = tail buf ++ [x].
Proof.
  intros Hc H. unfold push_shift.
  rewrite (proj2 (Z.ltb_lt _ _)) by (rewrite length_app; simpl; lia).
  destruct buf; [simpl in H; lia | reflexivity].
Qed.

Lemma push_shift_window (x : A) (all : list A) :
  push_shift (Z.of_nat c) x (drop (length all - c) all) =
  drop (length (all ++ [x]) - c) (all ++ [x]).
Proof.
  unfold push_shift. rewrite !length_app, length_drop. simpl.
  destruct (le_lt_dec c (length all)) as [Hge | Hlt].
  - rewrite (proj2 (Z.ltb_lt _ _)) by lia.
    rewrite tail_drop, <- drop_app_le by lia. rewrite drop_drop. f_equal. lia.
  - rewrite (proj2 (Z.ltb_ge _ _)) by lia.
    replace (length all - c)%nat with 0%nat by lia.
    replace (length all + 1 - c)%nat with 0%nat by lia. reflexivity.
Qed.

Lemma pushes_window (xs : list A) :
  forall all : list A,
    pushes (Z.of_nat c) xs (drop (length all - c) all) =
    drop (length (all ++ xs) - c) (all ++ xs).
Proof.
  induction xs as [| x xs IH]; intros all; simpl.
  - rewrite app_nil_r. reflexivity.
  - rewrite push_shift_window, IH, <- app_assoc. reflexivity.
Qed.

(** From the empty buffer, what is kept is the last [c] pushes, oldest
    first. *)
Lemma pushes_from_empty (xs : list A) :
  pushes (Z.of_nat c) xs [] = drop (length xs - c) xs.
Proof. apply (pushes_window xs []). Qed.

End Ring.

Lemma pushRing_all (evts : list jsobj) :
  forall st : State,
    lastEvents (fold_left (fun s e => pushRing e s) evts st) =
    pushes RING_SIZE evts (lastEvents st).
Proof. induction evts as [| e evts IH]; intros st; simpl; [| rewrite IH]; reflexivity. Qed.

Lemma pushUnknown_all (entries : list jsobj) :
  forall st : State,
    unknownFrames (fold_left (fun s e => pushUnknown e s) entries st) =
    pushes UNKNOWN_RING entries (unknownFrames st).
Proof. induction entries as [| e entries IH]; intros st; simpl; [| rewrite IH]; reflexivity. Qed.



(** ** Event bus *)

Lemma emit_nil (st : State) : emit [] st = st.
Proof. destruct st. unfold emit. cbn. rewrite app_nil_r. reflexivity. Qed.

Lemma emit_emit (es1 es2 : list effect) (st : State) :
  emit es2 (emit es1 st) = emit (es1 ++ es2) st.
Proof. unfold emit. cbn. rewrite app_assoc. reflexivity. Qed.

Lemma invokes_not_wrapper (data : jsobj) (fns : list handler) :
  forallb (fun e => negb (is_wrapper_decode e)) (map (fun fn => Invoke fn data) fns) = true.
Proof. induction fns; simpl; auto. Qed.

(** A topic that is not an inherited member reads as the set it has, if
    any. *)
Lemma handlers_get_own (st : State) (topic : string) :
  inherited topic = false ->
  handlers_get st topic
  = match _handlers st !! topic with Some s => Subscribers s | None => Absent end.
Proof. intros H. unfold handlers_get. rewrite H. reflexivity. Qed.

Lemma handlers_get_emit (es : list effect) (st : State) (topic : string) :
  handlers_get (emit es st) topic = handlers_get st topic.
Proof. reflexivity. Qed.

(** A publish on a topic that is not an inherited member returns, having
    called the subscribers of the topic and then those of ["*"]. *)
Lemma busEmit_publishes (topic : string) (data : jsobj) (st : State) :
  inherited topic = false ->
  busEmit topic data st = (Return tt, emit (published topic data st) st).
Proof.
  intros H. unfold busEmit, published, handlers_of, call_each.
  rewrite (handlers_get_own st topic H).
  destruct (_handlers st !! topic) as [s |]; cbn [default].
  - rewrite handlers_get_emit, (handlers_get_own st "*" eq_refl).
    destruct (_handlers st !! "*") as [s' |]; cbn [default].
    + rewrite emit_emit. reflexivity.
    + cbn [map]. rewrite app_nil_r. reflexivity.
  - rewrite (handlers_get_own st "*" eq_refl).
    destruct (_handlers st !! "*") as [s' |]; cbn [default map app]; [reflexivity |].
    rewrite emit_nil. reflexivity.
Qed.

(** A publish on an inherited member raises before any call. *)
Lemma busEmit_raises (topic : string) (data : jsobj) (st : State) :
  inherited topic = true -> _handlers st !! topic = None ->
  busEmit topic data st = (Throw, st).
Proof. intros H Hown. unfold busEmit, handlers_get. rewrite Hown, H. reflexivity. Qed.

(** Whatever the topic, a publish only adds calls of subscribers to the
    log. *)
Lemma busEmit_emit (topic : string) (data : jsobj) (st : State) :
  exists es,
    snd (busEmit topic data st) = emit es st /\
    forallb (fun e => negb (is_wrapper_decode e)) es = true.
Proof.
  unfold busEmit, call_each.
  assert (Hw : forall es0 st0, st0 = emit es0 st ->
    forallb (fun e => negb (is_wrapper_decode e)) es0 = true ->
    exists es,
      snd (match handlers_get st0 "*" with
           | Subscribers s => (Return tt, emit (map (fun fn => Invoke fn (with_topic topic data)) s) st0)
           | Absent => (Return tt, st0)
           | Inherited => (Throw, st0)
           end) = emit es st /\
      forallb (fun e => negb (is_wrapper_decode e)) es = true).
  { intros es0 st0 -> Hes0. destruct (handlers_get (emit es0 st) "*") as [| s |]; cbn [snd].
    - exists es0. auto.
    - eexists. rewrite emit_emit. split; [reflexivity |].
      rewrite forallb_app, Hes0, invokes_not_wrapper. reflexivity.
    - exists es0. auto. }
  destruct (handlers_get st topic) as [| s |].
  - apply (Hw []); [symmetry; apply emit_nil | reflexivity].
  - apply (Hw (map (fun fn => Invoke fn data) s)); [reflexivity | apply invokes_not_wrapper].
  - exists []. cbn [snd]. rewrite emit_nil. auto.
Qed.

Lemma then_return_snd {A : Type} (call : result unit * State) (v : A) :
  snd (then_return call v) = snd call.
Proof. destruct call as [[[] |] st]; reflexivity. Qed.

Lemma obj_get_set (k k' : string) (v : json) (o : jsobj) :
  obj_get (obj_set k v o) k' = if String.eqb k' k then Some v else obj_get o k'.
Proof.
  induction o as [| [k0 v0] o IH]; simpl.
  - reflexivity.
  - destruct (String.eqb k k0) eqn:E; simpl.
    + apply String.eqb_eq in E. subst k0. destruct (String.eqb k' k); reflexivity.
    + rewrite IH. destruct (String.eqb k' k0) eqn:E0; [| reflexivity].
      apply String.eqb_eq in E0. subst k0.
      rewrite String.eqb_sym, E. reflexivity.
Qed.

Lemma obj_get_absent (k : string) (o : jsobj) :
  ~ In k (map fst o) -> obj_get o k = None.
Proof.
  induction o as [| [k0 v0] o IH]; simpl; intros H; [reflexivity |].
  destruct (String.eqb k k0) eqn:E.
  - apply String.eqb_eq in E. subst. tauto.
  - apply IH. tauto.
Qed.

(** A spread lets the properties of the source win over those set
    before. *)
Lemma obj_get_spread (k : string) (src : jsobj) :
  forall init : jsobj,
    List.NoDup (map fst src) ->
    obj_get (obj_spread init src) k =
    match obj_get src k with
    | Some v => Some v
    | None => obj_get init k
    end.
Proof.
  unfold obj_spread.
  induction src as [| [k0 v0] src IH]; intros init Hnd; simpl; [reflexivity |].
  inversion Hnd as [| ? ? Hnotin Hnd']; subst.
  rewrite (IH _ Hnd'), obj_get_set. simpl.
  destruct (String.eqb k k0) eqn:E.
  - apply String.eqb_eq in E. subst k0. rewrite (obj_get_absent k src Hnotin). reflexivity.
  - reflexivity.
Qed.

(** ** What each operation leaves alone *)

Ltac break_match :=
  match goal with
  | |- context [match ?x with _ => _ end] => destruct x eqn:?
  end.

Ltac by_cases := repeat (simpl; try break_match); simpl; auto 12.

Lemma same_buffers_refl (st : State) : same_buffers st st.
Proof. constructor; reflexivity. Qed.

Lemma same_buffers_trans (st1 st2 st3 : State) :
  same_buffers st1 st2 -> same_buffers st2 st3 -> same_buffers st1 st3.
Proof. intros [] []. constructor; congruence. Qed.

Lemma bounded_same_buffers (st st' : State) :
  same_buffers st st' -> _idToType st' = _idToType st -> _handlers st' = _handlers st ->
  bounded st -> bounded st'.
Proof.
  intros [] Hid Hh []. constructor; try congruence.
  intros t Ht. rewrite Hh. auto.
Qed.

Lemma relay_send_others (json : string) (st : State) :
  lastEvents (snd (relay_send json st)) = lastEvents st /\
  unknownFrames (snd (relay_send json st)) = unknownFrames st /\
  _idToType (snd (relay_send json st)) = _idToType st /\
  log (snd (relay_send json st)) = log st /\
  pb (snd (relay_send json st)) = pb st /\
  relayOk (snd (relay_send json st)) = relayOk st.
Proof. unfold relay_send, ws_send. by_cases. Qed.

Lemma relayEmit_others (json : string) (st : State) :
  lastEvents (relayEmit json st) = lastEvents st /\
  unknownFrames (relayEmit json st) = unknownFrames st /\
  _idToType (relayEmit json st) = _idToType st /\
  log (relayEmit json st) = log st /\
  pb (relayEmit json st) = pb st.
Proof.
  unfold relayEmit. destruct (relayOk st).
  - destruct (relay_send_others json st) as (H1 & H2 & H3 & H4 & H5 & _).
    destruct (relay_send json st) as [[[] |] st']; simpl in *; [auto 10 |].
    destruct (Z.of_nat (length (queue st')) <? 500); simpl; auto 10.
  - destruct (Z.of_nat (length (queue st)) <? 500); simpl; auto 10.
Qed.

Lemma relayEmit_rest (json : string) (st : State) :
  _handlers (relayEmit json st) = _handlers st /\
  _lastRoomId (relayEmit json st) = _lastRoomId st /\
  msgIdMaps (relayEmit json st) = msgIdMaps st /\
  relayOk (relayEmit json st) = relayOk st.
Proof.
  unfold relayEmit, relay_send, ws_send.
  destruct (relayOk st) eqn:Hok; [destruct (relay st) as [ws |];
    [destruct (send_throws ws (send_calls ws)) |] |];
    cbv beta zeta; cbn [queue set_relay];
    try (destruct (Z.of_nat (length (queue st)) <? 500)); cbn; auto.
Qed.

Lemma track_roomId_rest (decoded : json) (st : State) :
  _handlers (track_roomId decoded st) = _handlers st /\
  msgIdMaps (track_roomId decoded st) = msgIdMaps st.
Proof. unfold track_roomId. by_cases. Qed.

Lemma relayEmit_bounded (json : string) (st : State) :
  bounded st -> bounded (relayEmit json st).
Proof.
  intros [Hq He Hu Hz Ht].
  destruct (relayEmit_others json st) as (H1 & H2 & H3 & _).
  destruct (relayEmit_rest json st) as (H4 & _).
  constructor; [| congruence | congruence | congruence | rewrite H4; exact Ht].
  apply (proj1 (relay_queue_capacity_aux json st)). exact Hq.
Qed.

Lemma flush_others (q : list string) :
  forall st : State,
    lastEvents (flush q st) = lastEvents st /\
    unknownFrames (flush q st) = unknownFrames st /\
    _idToType (flush q st) = _idToType st.
Proof.
  induction q as [| item q IH]; intros st; simpl; [auto |].
  destruct (relay_send_others item (set_queue q st)) as (H1 & H2 & H3 & _).
  destruct (relay_send item (set_queue q st)) as [[[] |] st']; simpl in *.
  - destruct (IH st') as (I1 & I2 & I3). rewrite I1, I2, I3. auto.
  - auto.
Qed.

Lemma flush_handlers (q : list string) :
  forall st : State, _handlers (flush q st) = _handlers st.
Proof.
  induction q as [| item q IH]; intros st; cbn [flush]; [reflexivity |].
  unfold relay_send. cbn [relay set_queue].
  destruct (relay st) as [ws |]; [| reflexivity].
  unfold ws_send. destruct (send_throws ws (send_calls ws)); [reflexivity |].
  rewrite IH. reflexivity.
Qed.

Lemma relay_onopen_bounded (st : State) : bounded st -> bounded (relay_onopen st).
Proof.
  intros [Hq He Hu Hz Ht]. unfold relay_onopen.
  set (st1 := set_retries 0 (set_relayOk true st)).
  destruct (flush_others (queue st1) st1) as (H1 & H2 & H3).
  pose proof (flush_queue_length (queue st1) st1) as Hlen.
  constructor; [| rewrite H1 | rewrite H2 | rewrite H3 | rewrite flush_handlers];
    simpl in *; try assumption. lia.
Qed.

Lemma openRelay_bounded (fresh : option WebSocket) (st : State) :
  bounded st -> bounded (openRelay fresh st).
Proof. intros []. unfold openRelay. by_cases; constructor; assumption. Qed.

Lemma pushRing_bounded (evt : jsobj) (st : State) : bounded st -> bounded (pushRing evt st).
Proof.
  intros []. constructor; simpl; try assumption.
  change RING_SIZE with (Z.of_nat 200). apply push_shift_length. assumption.
Qed.

Lemma pushUnknown_bounded (entry : jsobj) (st : State) :
  bounded st -> bounded (pushUnknown entry st).
Proof.
  intros []. constructor; simpl; try assumption.
  change UNKNOWN_RING with (Z.of_nat 500). apply push_shift_length. assumption.
Qed.

Lemma emit_bounded (es : list effect) (st : State) : bounded st -> bounded (emit es st).
Proof. intros []. constructor; assumption. Qed.

Lemma busEmit_bounded (topic : string) (data : jsobj) (st : State) :
  bounded st -> bounded (snd (busEmit topic data st)).
Proof.
  intros Hb. destruct (busEmit_emit topic data st) as (es & -> & _).
  apply emit_bounded. exact Hb.
Qed.

Lemma track_roomId_bounded (decoded : json) (st : State) :
  bounded st -> bounded (track_roomId decoded st).
Proof. intros []. unfold track_roomId. by_cases; constructor; assumption. Qed.

Lemma buildIdMap_bounded (ns : string) (st : State) : bounded st -> bounded (buildIdMap ns st).
Proof. intros []. unfold buildIdMap. by_cases; constructor; assumption. Qed.

Lemma buildIdMap_pb (ns : string) (st : State) : pb (buildIdMap ns st) = pb st.
Proof. unfold buildIdMap. by_cases. Qed.

Lemma resolvePb_same (w : option Registry) (st : State) :
  same_buffers st (snd (resolvePb w st)) /\
  _idToType (snd (resolvePb w st)) = _idToType st /\
  log (snd (resolvePb w st)) = log st /\
  (fst (resolvePb w st) = true -> pb (snd (resolvePb w st)) <> None).
Proof.
  unfold resolvePb. destruct (pb st) eqn:E; [| destruct w]; simpl;
    (split; [constructor; reflexivity |]); repeat split; congruence.
Qed.

Lemma resolvePb_handlers (w : option Registry) (st : State) :
  _handlers (snd (resolvePb w st)) = _handlers st.
Proof. unfold resolvePb. destruct (pb st); [| destruct w]; reflexivity. Qed.

(** ** Reverse ID map *)

Lemma reverse_entries_zero (ns : string) (entries : list (string * Z)) :
  forall m : gmap Z (string * string),
    m !! 0 = None -> reverse_entries ns entries m !! 0 = None.
Proof.
  unfold reverse_entries.
  induction entries as [| [name id] entries IH]; intros m Hm; simpl; [exact Hm |].
  apply IH. destruct (id =? 0) eqn:E; [exact Hm |].
  apply Z.eqb_neq in E. rewrite lookup_insert_ne by exact E. exact Hm.
Qed.

Lemma buildReverseIdMap_zero (r : Registry) (m : gmap Z (string * string)) :
  m !! 0 = None -> buildReverseIdMap r m !! 0 = None.
Proof.
  unfold buildReverseIdMap. generalize priorityOrder. intros nss. revert m.
  induction nss as [| ns nss IH]; intros m Hm; simpl; [exact Hm |].
  apply IH. destruct (registry_get r ns) as [nsObj |]; [| exact Hm].
  destruct (MessageId nsObj) as [entries |]; [| exact Hm].
  apply reverse_entries_zero. exact Hm.
Qed.

Lemma pbPoll_bounded (w : option Registry) (st : State) : bounded st -> bounded (pbPoll w st).
Proof.
  intros Hb. unfold pbPoll.
  destruct (resolvePb_same w st) as (Hs & Hid & _).
  pose proof (resolvePb_handlers w st) as Hh.
  destruct (resolvePb w st) as [[] st1]; simpl in *;
    [| exact (bounded_same_buffers _ _ Hs Hid Hh Hb)].
  assert (Hb1 : bounded st1) by exact (bounded_same_buffers _ _ Hs Hid Hh Hb).
  assert (Hb2 : bounded (fold_left (fun st ns => buildIdMap ns st) GAME_NAMESPACES st1)).
  { clear Hs Hid Hh. generalize GAME_NAMESPACES. intros nss. revert st1 Hb1.
    induction nss as [| ns nss IH]; intros st1 Hb1; simpl; [exact Hb1 |].
    apply IH. apply buildIdMap_bounded. exact Hb1. }
  destruct (pb _); [| exact Hb2].
  apply busEmit_bounded. destruct Hb2. constructor; simpl; try assumption.
  apply buildReverseIdMap_zero. assumption.
Qed.

(** ** Decode *)

Lemma track_roomId_others (decoded : json) (st : State) :
  same_buffers_but_room st (track_roomId decoded st).
Proof. unfold track_roomId. by_cases; constructor; reflexivity. Qed.

Lemma is_length_prefixed_length (bytes : list byte) :
  is_length_prefixed bytes = true -> frameLen bytes = byteLength bytes /\ 6 <= byteLength bytes.
Proof.
  unfold is_length_prefixed. intros H. apply andb_true_iff in H. destruct H as [H1 H2].
  apply Z.eqb_eq in H1. apply Z.leb_le in H2. lia.
Qed.

(** The code's test on the header is the unsigned reading for every frame
    shorter than 2 GiB. *)
Lemma is_length_prefixed_declared (bytes : list byte) :
  byteLength bytes < 2 ^ 31 ->
  declaredLength bytes = byteLength bytes -> 6 <= byteLength bytes ->
  is_length_prefixed bytes = true.
Proof.
  intros Hlt Hd H6. unfold is_length_prefixed.
  rewrite frameLen_unsigned by lia. rewrite Hd.
  apply andb_true_iff. split; [apply Z.eqb_eq; reflexivity | apply Z.leb_le; exact H6].
Qed.

Section DecodeProperties.

Variable JSON_stringify : jsobj -> string.

Lemma decodeFrame_not_ready (w : option Registry) (now : Z) (bytes : list byte)
    (wsUrl : string) (st : State) :
  fst (resolvePb w st) = false ->
  decodeFrame JSON_stringify w now bytes wsUrl st = (Return None, st).
Proof.
  unfold decodeFrame, resolvePb. destruct (pb st); [discriminate |].
  destruct w; [discriminate | reflexivity].
Qed.

Lemma decodeFrame_length_prefixed (w : option Registry) (now : Z) (bytes : list byte)
    (wsUrl : string) (st : State) :
  fst (resolvePb w st) = true -> is_length_prefixed bytes = true ->
  decodeFrame JSON_stringify w now bytes wsUrl st =
  decodeLengthPrefixed JSON_stringify now bytes wsUrl (snd (resolvePb w st)).
Proof.
  intros Hr Hlp. unfold decodeFrame.
  destruct (resolvePb w st) as [[] st1]; [| discriminate]. cbn [snd].
  destruct (is_length_prefixed_length bytes Hlp) as [_ H6].
  rewrite (proj2 (Z.ltb_ge _ _)) by exact H6. rewrite Hlp. reflexivity.
Qed.

Lemma decodeLengthPrefixed_unknown (now : Z) (bytes : list byte) (wsUrl : string) (st : State) :
  _idToType st !! frameMsgId bytes = None ->
  decodeLengthPrefixed JSON_stringify now bytes wsUrl st =
  (Return None,
   relayEmit
     (JSON_stringify (unknown_frame (frameMsgId bytes) (frameLen bytes) now wsUrl bytes
                        (if 6 <? byteLength bytes then drop 6 bytes else [])))
     (pushUnknown (unknown_frame (frameMsgId bytes) (frameLen bytes) now wsUrl bytes
                     (if 6 <? byteLength bytes then drop 6 bytes else [])) st)).
Proof. intros H. unfold decodeLengthPrefixed. rewrite H. reflexivity. Qed.

Lemma decodeLengthPrefixed_skip (now : Z) (bytes : list byte) (wsUrl : string) (st : State)
    (ns typeName : string) :
  _idToType st !! frameMsgId bytes = Some (ns, typeName) ->
  SKIP_TOPICS_has typeName = true ->
  decodeLengthPrefixed JSON_stringify now bytes wsUrl st = (Return None, st).
Proof. intros H Hs. unfold decodeLengthPrefixed. rewrite H, Hs. reflexivity. Qed.

(** The length-prefixed branch makes no call of a wrapper codec. *)
Lemma decodeLengthPrefixed_log (now : Z) (bytes : list byte) (wsUrl : string) (st : State) :
  exists es,
    log (snd (decodeLengthPrefixed JSON_stringify now bytes wsUrl st)) = log st ++ es /\
    forallb (fun e => negb (is_wrapper_decode e)) es = true.
Proof.
  unfold decodeLengthPrefixed.
  destruct (_idToType st !! frameMsgId bytes) as [[ns typeName] |].
  - destruct (SKIP_TOPICS_has typeName).
    + exists []. simpl. rewrite app_nil_r. auto.
    + cbv zeta. rewrite then_return_snd.
      match goal with |- context [busEmit ?t ?d ?s] =>
        destruct (busEmit_emit t d s) as (es & -> & Hes) end.
      cbn [log emit pushRing set_lastEvents].
      match goal with |- context [relayEmit ?j ?s] =>
        destruct (relayEmit_others j s) as (_ & _ & _ & Hlog & _); rewrite Hlog end.
      match goal with |- context [track_roomId ?d st] =>
        destruct (track_roomId_others d st) as [_ _ _ _ _ Hl _ _]; rewrite Hl end.
      exists es. auto.
  - exists []. cbn [snd].
    match goal with |- context [relayEmit ?j ?s] =>
      destruct (relayEmit_others j s) as (_ & _ & _ & Hlog & _); rewrite Hlog end.
    simpl. rewrite app_nil_r. auto.
Qed.

Lemma length_prefixed_never_wrapper (w : option Registry) (now : Z) (bytes : list byte)
    (wsUrl : string) (st : State) :
  is_length_prefixed bytes = true ->
  (fst (resolvePb w st) = true ->
   decodeFrame JSON_stringify w now bytes wsUrl st =
   decodeLengthPrefixed JSON_stringify now bytes wsUrl (snd (resolvePb w st))) /\
  exists es,
    log (snd (decodeFrame JSON_stringify w now bytes wsUrl st)) = log st ++ es /\
    forallb (fun e => negb (is_wrapper_decode e)) es = true.
Proof.
  intros Hlp. split; [intros Hr; apply decodeFrame_length_prefixed; assumption |].
  destruct (resolvePb_same w st) as (_ & _ & Hlog & _).
  destruct (fst (resolvePb w st)) eqn:Hr.
  - rewrite decodeFrame_length_prefixed by assumption. rewrite <- Hlog.
    apply decodeLengthPrefixed_log.
  - rewrite decodeFrame_not_ready by assumption. exists []. simpl.
    rewrite app_nil_r. auto.
Qed.

(** With the registry resolved, what [decodeFrame] does with a frame that
    passes the length test and has an ID the reverse map lacks. *)
Lemma decodeFrame_unknown_id (w : option Registry) (now : Z) (bytes : list byte)
    (wsUrl : string) (st : State) :
  fst (resolvePb w st) = true ->
  is_length_prefixed bytes = true ->
  _idToType st !! frameMsgId bytes = None ->
  let entry :=
    unknown_frame (frameMsgId bytes) (byteLength bytes) now wsUrl bytes (drop 6 bytes) in
  let r := decodeFrame JSON_stringify w now bytes wsUrl st in
  fst r = Return None /\
  snd r = relayEmit (JSON_stringify entry) (pushUnknown entry (snd (resolvePb w st))) /\
  obj_get entry "bodyLen" = Some (JNum (byteLength bytes - 6)) /\
  unknownFrames (snd r) = push_shift UNKNOWN_RING entry (unknownFrames st) /\
  lastEvents (snd r) = lastEvents st /\
  log (snd r) = log st.
Proof.
  intros Hr Hlp Hid entry r.
  destruct (is_length_prefixed_length bytes Hlp) as [Hlen H6].
  destruct (resolvePb_same w st) as ([] & Hid1 & Hlog1 & _).
  assert (Hbody : (if 6 <? byteLength bytes then drop 6 bytes else []) = drop 6 bytes).
  { destruct (6 <? byteLength bytes) eqn:E; [reflexivity |].
    apply Z.ltb_ge in E. symmetry. apply drop_ge. unfold byteLength in *. lia. }
  assert (Hdec : r = (Return None, relayEmit (JSON_stringify entry)
                              (pushUnknown entry (snd (resolvePb w st))))).
  { unfold r. rewrite decodeFrame_length_prefixed by assumption.
    rewrite decodeLengthPrefixed_unknown by (rewrite Hid1; exact Hid).
    rewrite Hbody, Hlen. reflexivity. }
  rewrite Hdec. cbn [fst snd].
  destruct (relayEmit_others (JSON_stringify entry) (pushUnknown entry (snd (resolvePb w st))))
    as (He & Hu & _ & Hl & _).
  rewrite He, Hu, Hl. cbn [lastEvents unknownFrames log pushUnknown set_unknownFrames].
  repeat split; try congruence.
  unfold entry, unknown_frame. simpl. f_equal. f_equal.
  unfold byteLength in *. rewrite length_drop. lia.
Qed.


End DecodeProperties.



(** ** The skip set *)

Lemma wrapperTopic_emit (nss : list string) (bytes : list byte) (es : list effect) (st : State) :
  wrapperTopic nss bytes (emit es st) = wrapperTopic nss bytes st.
Proof.
  induction nss as [| ns nss IH]; simpl; [reflexivity |].
  unfold pb_get in *. simpl. rewrite IH. reflexivity.
Qed.

Section SkipProperties.

Variable JSON_stringify : jsobj -> string.

Lemma decodeWrapper_skip (now : Z) (bytes : list byte) (wsUrl : string) (nss : list string) :
  forall (st : State) (t : string),
    wrapperTopic nss bytes st = Some t ->
    SKIP_TOPICS_has (last_segment t) = true ->
    fst (decodeWrapper JSON_stringify nss now bytes wsUrl st) = Return None /\
    same_buffers st (snd (decodeWrapper JSON_stringify nss now bytes wsUrl st)) /\
    exists es,
      log (snd (decodeWrapper JSON_stringify nss now bytes wsUrl st)) = log st ++ es /\
      forallb is_wrapper_decode es = true.
Proof.
  induction nss as [| ns nss IH]; intros st t Ht Hskip; simpl in *; [discriminate |].
  destruct (pb_get st ns) as [nsObj |]; [| exact (IH st t Ht Hskip)].
  destruct (Wrapper nsObj) as [W |]; [| exact (IH st t Ht Hskip)].
  assert (Hcont :
    wrapperTopic nss bytes st = Some t ->
    fst (decodeWrapper JSON_stringify nss now bytes wsUrl (emit [WrapperDecode ns] st)) = Return None /\
    same_buffers st
      (snd (decodeWrapper JSON_stringify nss now bytes wsUrl (emit [WrapperDecode ns] st))) /\
    exists es,
      log (snd (decodeWrapper JSON_stringify nss now bytes wsUrl (emit [WrapperDecode ns] st)))
      = log st ++ es /\
      forallb is_wrapper_decode es = true).
  { intros Ht'. rewrite <- (wrapperTopic_emit nss bytes [WrapperDecode ns] st) in Ht'.
    destruct (IH (emit [WrapperDecode ns] st) t Ht' Hskip) as (Hn & [] & es' & Hl & Hw).
    split; [exact Hn |]. split; [constructor; assumption |].
    exists (WrapperDecode ns :: es'). simpl in Hl. rewrite Hl, <- app_assoc. auto. }
  destruct (wdecode W bytes) as [[w |] |]; [| exact (Hcont Ht) | exact (Hcont Ht)].
  destruct (String.eqb (topic w) EmptyString); [exact (Hcont Ht) |].
  injection Ht as <-. unfold decodeWrapped. rewrite Hskip. simpl.
  split; [reflexivity |]. split; [constructor; reflexivity |].
  exists [WrapperDecode ns]. auto.
Qed.

(** C8: when the type name resolved for a frame, under either scheme, is
    in the skip set, [decodeFrame] returns null and has pushed nothing on
    either ring, handed nothing to the relay (its socket and its queue are
    as they were), called no subscriber and left the last room alone: all
    it may have called are the wrapper codecs. *)
Theorem skip_topics_no_side_effect (w : option Registry) (now : Z) (bytes : list byte)
    (wsUrl : string) (st : State) (typeName : string) :
  resolvedTypeName w bytes st = Some typeName ->
  SKIP_TOPICS_has typeName = true ->
  fst (decodeFrame JSON_stringify w now bytes wsUrl st) = Return None /\
  same_buffers st (snd (decodeFrame JSON_stringify w now bytes wsUrl st)) /\
  exists es,
    log (snd (decodeFrame JSON_stringify w now bytes wsUrl st)) = log st ++ es /\
    forallb is_wrapper_decode es = true.
Proof.
  unfold resolvedTypeName, decodeFrame. intros Hres Hskip.
  destruct (resolvePb_same w st) as (Hsame & Hid & Hlog & _).
  destruct (resolvePb w st) as [[] st1]; [| discriminate]. simpl in Hsame, Hid, Hlog.
  destruct (byteLength bytes <? 6); [discriminate |].
  destruct (is_length_prefixed bytes).
  - destruct (_idToType st1 !! frameMsgId bytes) as [[ns t] |] eqn:E; [| discriminate].
    simpl in Hres. injection Hres as ->.
    rewrite (decodeLengthPrefixed_skip _ _ _ _ _ ns typeName E Hskip). simpl.
    split; [reflexivity |]. split; [exact Hsame |].
    exists []. rewrite app_nil_r. auto.
  - destruct (wrapperTopic GAME_NAMESPACES bytes st1) as [t |] eqn:E; [| discriminate].
    simpl in Hres. injection Hres as <-.
    destruct (decodeWrapper_skip now bytes wsUrl GAME_NAMESPACES st1 t E Hskip)
      as (Hn & Hs & es & Hl & Hw).
    split; [exact Hn |]. split; [exact (same_buffers_trans _ _ _ Hsame Hs) |].
    exists es. rewrite Hl, Hlog. auto.
Qed.

End SkipProperties.

Lemma skip_topics_no_side_effect_witness :
  (fst (decodeFrame stringify None 0 frame_Ping game_url st_ready) = Return None /\
   same_buffers st_ready (snd (decodeFrame stringify None 0 frame_Ping game_url st_ready))) /\
  (fst (decodeFrame stringify None 0 frame_wrapped_Ping game_url st_ready) = Return None /\
   same_buffers st_ready
     (snd (decodeFrame stringify None 0 frame_wrapped_Ping game_url st_ready))).
Proof.
  split.
  - destruct (skip_topics_no_side_effect stringify None 0 frame_Ping game_url st_ready "Ping"
                eq_refl eq_refl) as (Hn & Hs & _).
    split; [exact Hn | exact Hs].
  - destruct (skip_topics_no_side_effect stringify None 0 frame_wrapped_Ping game_url st_ready
                "Ping" eq_refl eq_refl) as (Hn & Hs & _).
    split; [exact Hn | exact Hs].
Defined.

(** ** The invariant of the buffers and of the reverse map *)

Create HintDb tap.
#[local] Hint Resolve relayEmit_bounded pushRing_bounded pushUnknown_bounded busEmit_bounded
  track_roomId_bounded emit_bounded : tap.

Section Invariant.

Variable JSON_stringify : jsobj -> string.

Lemma decodeLengthPrefixed_bounded (now : Z) (bytes : list byte) (wsUrl : string) (st : State) :
  bounded st -> bounded (snd (decodeLengthPrefixed JSON_stringify now bytes wsUrl st)).
Proof.
  intros Hb. unfold decodeLengthPrefixed.
  destruct (_idToType st !! frameMsgId bytes) as [[ns typeName] |].
  - destruct (SKIP_TOPICS_has typeName); cbv zeta; [exact Hb |].
    rewrite then_return_snd. auto 10 with tap.
  - cbn [snd]. auto with tap.
Qed.

Lemma decodeWrapped_bounded (now : Z) (wsUrl ns : string) (nsObj : Namespace) (w : WrapperMsg)
    (st : State) :
  bounded st -> bounded (snd (decodeWrapped JSON_stringify now wsUrl ns nsObj w st)).
Proof.
  intros Hb. unfold decodeWrapped.
  destruct (SKIP_TOPICS_has (last_segment (topic w))); [exact Hb |].
  match goal with |- context [let '(_, _) := ?x in _] => destruct x as [decoder decoderNs] end.
  cbv zeta.
  match goal with |- context [busEmit ?t ?d ?s] =>
    assert (Hb1 : bounded (snd (busEmit t d s))) by auto 10 with tap;
    destruct (busEmit t d s) as [[[] |] st1]
  end; cbn [snd] in *; [| exact Hb1].
  destruct (String.eqb decoderNs ns); [exact Hb1 |].
  rewrite then_return_snd. auto with tap.
Qed.

Lemma decodeWrapper_bounded (now : Z) (bytes : list byte) (wsUrl : string) (nss : list string) :
  forall st : State,
    bounded st -> bounded (snd (decodeWrapper JSON_stringify nss now bytes wsUrl st)).
Proof.
  induction nss as [| ns nss IH]; intros st Hb; simpl; [exact Hb |].
  destruct (pb_get st ns) as [nsObj |]; [| auto].
  destruct (Wrapper nsObj) as [W |]; [| auto].
  destruct (wdecode W bytes) as [[w |] |]; auto with tap.
  destruct (String.eqb (topic w) EmptyString); auto with tap.
  apply decodeWrapped_bounded. auto with tap.
Qed.

Lemma decodeFrame_bounded (w : option Registry) (now : Z) (bytes : list byte) (wsUrl : string)
    (st : State) :
  bounded st -> bounded (snd (decodeFrame JSON_stringify w now bytes wsUrl st)).
Proof.
  intros Hb. unfold decodeFrame.
  destruct (resolvePb_same w st) as (Hs & Hid & _).
  pose proof (bounded_same_buffers _ _ Hs Hid (resolvePb_handlers w st) Hb) as Hb1.
  destruct (resolvePb w st) as [[] st1]; cbn [snd] in *; [| exact Hb1].
  destruct (byteLength bytes <? 6); [exact Hb1 |].
  destruct (is_length_prefixed bytes);
    [apply decodeLengthPrefixed_bounded | apply decodeWrapper_bounded]; exact Hb1.
Qed.

Lemma sendAction_bounded (roomId action coin : json) (st : State) :
  bounded st -> bounded (snd (sendAction roomId action coin st)).
Proof.
  intros Hb. unfold sendAction.
  destruct (pb_get st "holdem") as [holdem |]; [| exact Hb].
  destruct (select_game (sockets st)) as [[[i gameWs] |] |]; [| exact Hb | exact Hb].
  assert (Hs : bounded (snd (transmit_action holdem i gameWs roomId action coin st))).
  { destruct Hb. unfold transmit_action, ws_send.
    destruct (encode_action holdem roomId action coin);
      [destruct (send_throws gameWs (send_calls gameWs)) |]; constructor; assumption. }
  unfold try_catch.
  destruct (transmit_action holdem i gameWs roomId action coin st) as [[b |] s]; exact Hs.
Qed.

(** A set is made for a topic that is not an inherited member only. *)
Lemma busOn_bounded (topic : string) (fn : handler) (st : State) :
  bounded st -> bounded (snd (busOn topic fn st)).
Proof.
  intros Hb. unfold busOn, handlers_get.
  destruct (_handlers st !! topic) as [s |] eqn:Hown.
  - destruct Hb as [? ? ? ? Ht]. constructor; cbn [snd set_handlers queue lastEvents unknownFrames _idToType _handlers]; try assumption.
    intros t Hin. destruct (decide (topic = t)) as [-> | Hne].
    + rewrite (Ht t Hin) in Hown. discriminate.
    + rewrite lookup_insert_ne by exact Hne. auto.
  - destruct (inherited topic) eqn:Hi; [exact Hb |].
    destruct Hb as [? ? ? ? Ht]. constructor; cbn [snd set_handlers queue lastEvents unknownFrames _idToType _handlers]; try assumption.
    intros t Hin. destruct (decide (topic = t)) as [-> | Hne]; [congruence |].
    rewrite lookup_insert_ne by exact Hne. auto.
Qed.

Lemma busOff_bounded (topic : string) (fn : handler) (st : State) :
  bounded st -> bounded (snd (busOff topic fn st)).
Proof.
  intros Hb. unfold busOff, handlers_get.
  destruct (_handlers st !! topic) as [s |] eqn:Hown.
  - destruct Hb as [? ? ? ? Ht]. constructor; cbn [snd set_handlers queue lastEvents unknownFrames _idToType _handlers]; try assumption.
    intros t Hin. destruct (decide (topic = t)) as [-> | Hne].
    + rewrite (Ht t Hin) in Hown. discriminate.
    + rewrite lookup_insert_ne by exact Hne. auto.
  - destruct (inherited topic); exact Hb.
Qed.

Lemma step_bounded (st st' : State) : step JSON_stringify st st' -> bounded st -> bounded st'.
Proof.
  intros Hstep Hb. destruct Hstep.
  - apply openRelay_bounded. exact Hb.
  - destruct Hb. constructor; assumption.
  - apply relay_onopen_bounded. exact Hb.
  - destruct Hb. unfold relay_onclose. by_cases; constructor; assumption.
  - apply pbPoll_bounded. exact Hb.
  - apply decodeFrame_bounded. exact Hb.
  - apply busOn_bounded. exact Hb.
  - apply busOff_bounded. exact Hb.
  - destruct Hb. constructor; assumption.
  - apply sendAction_bounded. exact Hb.
Qed.

(** Whatever the host has run since the script was installed, the queue
    and the rings are within their capacities, the reverse map has no
    entry for 0 and no inherited member has a set of subscribers. *)
Lemma reachable_bounded (st : State) : reachable JSON_stringify st -> bounded st.
Proof.
  unfold reachable. revert st. apply rtc_ind_r.
  - constructor; simpl; try lia; [apply lookup_empty |]. intros t _. apply lookup_empty.
  - intros y z _ Hstep Hy. exact (step_bounded y z Hstep Hy).
Qed.

End Invariant.

Section ReverseMapProperties.

Variable JSON_stringify : jsobj -> string.


End ReverseMapProperties.

Lemma st_ready_reachable : reachable stringify st_ready.
Proof.
  unfold reachable, st_ready.
  eapply rtc_r; [| apply step_pbPoll].
  eapply rtc_r; [| apply step_on].
  eapply rtc_r; [| apply step_on].
  eapply rtc_r; [| apply step_on].
  apply rtc_refl.
Defined.

(** ** Publishing *)





(** ** Frames of 2 GiB and more *)

(** A frame that starts with the header [80 00 00 00] and is 2 ^ 31 bytes
    long: the header read as an unsigned integer is the length, the code
    reads -2 ^ 31, and the frame goes to the wrapper codecs. *)
Lemma header_sign_bit (rest : list byte) :
  Z.of_nat (length rest) = 2147483642 ->
  declaredLength (x80 :: x00 :: x00 :: x00 :: x00 :: x2a :: rest)
  = byteLength (x80 :: x00 :: x00 :: x00 :: x00 :: x2a :: rest) /\
  byteLength (x80 :: x00 :: x00 :: x00 :: x00 :: x2a :: rest) = 2 ^ 31 /\
  frameLen (x80 :: x00 :: x00 :: x00 :: x00 :: x2a :: rest) = - 2 ^ 31 /\
  is_length_prefixed (x80 :: x00 :: x00 :: x00 :: x00 :: x2a :: rest) = false /\
  fst (decodeFrame stringify None 0 (x80 :: x00 :: x00 :: x00 :: x00 :: x2a :: rest)
         game_url st_ready) = Return (Some evt_Foo) /\
  log (snd (decodeFrame stringify None 0 (x80 :: x00 :: x00 :: x00 :: x00 :: x2a :: rest)
              game_url st_ready)) =
  log st_ready ++
  [WrapperDecode "holdem";
   Invoke 3%nat evt_Foo; Invoke 1%nat (with_topic "Foo" evt_Foo);
   Invoke 2%nat evt_Foo; Invoke 1%nat (with_topic "commonProto.Foo" evt_Foo)].
Proof.
  intros Hrest.
  set (bytes := x80 :: x00 :: x00 :: x00 :: x00 :: x2a :: rest).
  assert (Hlen : byteLength bytes = 2 ^ 31).
  { unfold byteLength, bytes. cbn [length]. lia. }
  assert (Hdecl : declaredLength bytes = 2 ^ 31) by reflexivity.
  assert (Hframe : frameLen bytes = - 2 ^ 31) by reflexivity.
  assert (Hlp : is_length_prefixed bytes = false).
  { unfold is_length_prefixed. rewrite Hframe, Hlen. reflexivity. }
  assert (Hshort : (byteLength bytes <? 6) = false) by (rewrite Hlen; reflexivity).
  split; [congruence |]. split; [exact Hlen |]. split; [exact Hframe |].
  split; [exact Hlp |].
  unfold decodeFrame.
  change (resolvePb None st_ready) with (true, st_ready).
  rewrite Hshort, Hlp. unfold bytes. split; vm_compute; reflexivity.
Qed.

(** C1, at the frame [huge_frame] of 2 ^ 31 bytes: its first four bytes
    read as a big-endian 32-bit unsigned integer are its length, and
    [decodeFrame] does not take the length-prefixed branch: it calls the
    wrapper codec of [holdem] and returns the event decoded from the
    wrapper. *)
Theorem huge_frame_falls_through :
  declaredLength huge_frame = byteLength huge_frame /\
  byteLength huge_frame = 2 ^ 31 /\
  frameLen huge_frame = - 2 ^ 31 /\
  is_length_prefixed huge_frame = false /\
  fst (decodeFrame stringify None 0 huge_frame game_url st_ready) = Return (Some evt_Foo) /\
  log (snd (decodeFrame stringify None 0 huge_frame game_url st_ready)) =
  log st_ready ++
  [WrapperDecode "holdem";
   Invoke 3%nat evt_Foo; Invoke 1%nat (with_topic "Foo" evt_Foo);
   Invoke 2%nat evt_Foo; Invoke 1%nat (with_topic "commonProto.Foo" evt_Foo)].
Proof.
  unfold huge_frame. apply header_sign_bit.
  rewrite repeat_length. apply Z2Nat.id. lia.
Qed.

(** The same frame with the message ID 0. *)
Lemma header_sign_bit_zero (rest : list byte) :
  Z.of_nat (length rest) = 2147483642 ->
  declaredLength (x80 :: x00 :: x00 :: x00 :: x00 :: x00 :: rest)
  = byteLength (x80 :: x00 :: x00 :: x00 :: x00 :: x00 :: rest) /\
  frameMsgId (x80 :: x00 :: x00 :: x00 :: x00 :: x00 :: rest) = 0 /\
  fst (decodeFrame stringify None 0 (x80 :: x00 :: x00 :: x00 :: x00 :: x00 :: rest)
         game_url st_ready) = Return (Some evt_Foo) /\
  unknownFrames (snd (decodeFrame stringify None 0
                        (x80 :: x00 :: x00 :: x00 :: x00 :: x00 :: rest) game_url st_ready))
  = unknownFrames st_ready.
Proof.
  intros Hrest.
  set (bytes := x80 :: x00 :: x00 :: x00 :: x00 :: x00 :: rest).
  assert (Hlen : byteLength bytes = 2 ^ 31).
  { unfold byteLength, bytes. cbn [length]. lia. }
  assert (Hdecl : declaredLength bytes = 2 ^ 31) by reflexivity.
  assert (Hframe : frameLen bytes = - 2 ^ 31) by reflexivity.
  assert (Hlp : is_length_prefixed bytes = false).
  { unfold is_length_prefixed. rewrite Hframe, Hlen. reflexivity. }
  assert (Hshort : (byteLength bytes <? 6) = false) by (rewrite Hlen; reflexivity).
  split; [congruence |]. split; [reflexivity |].
  unfold decodeFrame.
  change (resolvePb None st_ready) with (true, st_ready).
  rewrite Hshort, Hlp. unfold bytes. split; vm_compute; reflexivity.
Qed.


(** Short of 2 GiB, a frame whose header gives its length never reaches
    the wrapper codecs. *)
Lemma declared_length_never_wrapper (JSON_stringify : jsobj -> string)
    (w : option Registry) (now : Z) (bytes : list byte) (wsUrl : string) (st : State) :
  byteLength bytes < 2 ^ 31 ->
  declaredLength bytes = byteLength bytes ->
  6 <= byteLength bytes ->
  (fst (resolvePb w st) = true ->
   decodeFrame JSON_stringify w now bytes wsUrl st =
   decodeLengthPrefixed JSON_stringify now bytes wsUrl (snd (resolvePb w st))) /\
  exists es,
    log (snd (decodeFrame JSON_stringify w now bytes wsUrl st)) = log st ++ es /\
    forallb (fun e => negb (is_wrapper_decode e)) es = true.
Proof.
  intros Hlt Hd H6. apply length_prefixed_never_wrapper.
  apply is_length_prefixed_declared; assumption.
Qed.

(** ** Action sender *)

Lemma is_open_game_socket_false (e : url_key * WebSocket) :
  is_open_game_socket e = Return false <-> passed_over e.
Proof.
  destruct e as [[s | f] ws]; unfold is_open_game_socket, passed_over, key_includes;
    cbn [fst snd].
  - destruct (str_includes "localhost" s); [intuition congruence |].
    destruct (str_includes "127.0.0.1" s); [intuition congruence |].
    destruct (readyState ws =? OPEN) eqn:E;
      [apply Z.eqb_eq in E | apply Z.eqb_neq in E]; intuition congruence.
  - destruct (f "localhost"%string) as [[] |]; [intuition congruence | | intuition congruence].
    destruct (f "127.0.0.1"%string) as [[] |]; [intuition congruence | | intuition congruence].
    destruct (readyState ws =? OPEN) eqn:E;
      [apply Z.eqb_eq in E | apply Z.eqb_neq in E]; intuition congruence.
Qed.

Lemma is_open_game_socket_true (e : url_key * WebSocket) :
  is_open_game_socket e = Return true <-> eligible e.
Proof.
  destruct e as [[s | f] ws]; unfold is_open_game_socket, eligible, key_includes;
    cbn [fst snd].
  - destruct (str_includes "localhost" s); [intuition congruence |].
    destruct (str_includes "127.0.0.1" s); [intuition congruence |].
    destruct (readyState ws =? OPEN) eqn:E;
      [apply Z.eqb_eq in E | apply Z.eqb_neq in E]; intuition congruence.
  - destruct (f "localhost"%string) as [[] |]; [intuition congruence | | intuition congruence].
    destruct (f "127.0.0.1"%string) as [[] |]; [intuition congruence | | intuition congruence].
    destruct (readyState ws =? OPEN) eqn:E;
      [apply Z.eqb_eq in E | apply Z.eqb_neq in E]; intuition congruence.
Qed.

Lemma is_open_game_socket_throw (e : url_key * WebSocket) :
  is_open_game_socket e = Throw <-> test_raises e.
Proof.
  destruct e as [[s | f] ws]; unfold is_open_game_socket, test_raises, key_includes;
    cbn [fst snd].
  - destruct (str_includes "localhost" s); [intuition congruence |].
    destruct (str_includes "127.0.0.1" s); intuition congruence.
  - destruct (f "localhost"%string) as [[] |]; [intuition congruence | | intuition congruence].
    destruct (f "127.0.0.1"%string) as [[] |]; intuition congruence.
Qed.

(** The socket selected is the first one in insertion order that is open
    and not a loopback one, when no test before it raised. *)
Lemma select_game_Some (l : list (url_key * WebSocket)) :
  forall (i : nat) (ws : WebSocket),
    select_game l = Return (Some (i, ws)) ->
    exists url,
      l !! i = Some (url, ws) /\
      is_open_game_socket (url, ws) = Return true /\
      forall (j : nat) (e : url_key * WebSocket),
        (j < i)%nat -> l !! j = Some e -> is_open_game_socket e = Return false.
Proof.
  induction l as [| e l IH]; intros i ws; cbn [select_game]; [discriminate |].
  destruct (is_open_game_socket e) as [[] |] eqn:E.
  - intros [= <- <-]. exists (fst e). destruct e as [url ws0]. simpl.
    split; [reflexivity |]. split; [exact E |]. intros j e' Hj. lia.
  - destruct (select_game l) as [[[i' ws'] |] |]; [| discriminate | discriminate].
    intros [= <- <-]. destruct (IH i' ws' eq_refl) as (url & Hl & Ho & Hfirst).
    exists url. split; [exact Hl |]. split; [exact Ho |].
    intros [| j] e' Hj; simpl.
    + intros [= <-]. exact E.
    + apply Hfirst. lia.
  - discriminate.
Qed.

(** The three outcomes of the loop, from the entries. *)
Lemma select_game_none (l : list (url_key * WebSocket)) :
  Forall passed_over l -> select_game l = Return None.
Proof.
  induction 1 as [| e l He _ IH]; cbn [select_game]; [reflexivity |].
  rewrite (proj2 (is_open_game_socket_false e) He), IH. reflexivity.
Qed.

Lemma select_game_first (pre : list (url_key * WebSocket)) :
  forall (e : url_key * WebSocket) (post : list (url_key * WebSocket)),
    Forall passed_over pre ->
    (eligible e -> select_game (pre ++ e :: post) = Return (Some (length pre, snd e))) /\
    (test_raises e -> select_game (pre ++ e :: post) = Throw).
Proof.
  induction pre as [| e0 pre IH]; intros e post Hpre; cbn [app select_game length].
  - split; intros He.
    + rewrite (proj2 (is_open_game_socket_true e) He). reflexivity.
    + rewrite (proj2 (is_open_game_socket_throw e) He). reflexivity.
  - inversion Hpre as [| ? ? He0 Hpre']; subst.
    rewrite (proj2 (is_open_game_socket_false e0) He0).
    destruct (IH e post Hpre') as [H1 H2].
    split; intros He; [rewrite (H1 He) | rewrite (H2 He)]; reflexivity.
Qed.

Lemma select_game_cases (l : list (url_key * WebSocket)) :
  Forall passed_over l \/
  exists pre e post,
    l = pre ++ e :: post /\ Forall passed_over pre /\ (eligible e \/ test_raises e).
Proof.
  induction l as [| e l IH]; [left; constructor |].
  destruct (is_open_game_socket e) as [[] |] eqn:E.
  - right. exists [], e, l. split; [reflexivity |]. split; [constructor |].
    left. apply is_open_game_socket_true. exact E.
  - apply is_open_game_socket_false in E.
    destruct IH as [H | (pre & e' & post & -> & Hpre & He')].
    + left. constructor; assumption.
    + right. exists (e :: pre), e', post. split; [reflexivity |].
      split; [constructor; assumption | exact He'].
  - right. exists [], e, l. split; [reflexivity |]. split; [constructor |].
    right. apply is_open_game_socket_throw. exact E.
Qed.

Lemma alter_at_length {A : Type} (f : A -> A) (pre : list A) (x : A) (post : list A) :
  alter f (length pre) (pre ++ x :: post) = pre ++ f x :: post.
Proof. induction pre as [| a pre IH]; cbn; [reflexivity |]. f_equal. exact IH. Qed.




(** ** The capacities *)

(** C6: the offline queue holds at most 500 records, whatever the host
    has run; forwarding onto a queue of 500 leaves its contents as they
    were (while disconnected the whole state is as it was: the new record
    is dropped), and forwarding never removes a queued record. *)
Theorem relay_queue_capacity :
  (forall (JSON_stringify : jsobj -> string) (st : State),
     reachable JSON_stringify st -> (length (queue st) <= 500)%nat) /\
  (forall (json : string) (st : State),
     ((length (queue st) <= 500)%nat -> (length (queue (relayEmit json st)) <= 500)%nat) /\
     (length (queue st) = 500%nat ->
      queue (relayEmit json st) = queue st /\ (relayOk st = false -> relayEmit json st = st)) /\
     (exists added, queue (relayEmit json st) = queue st ++ added)).
Proof.
  split; [intros J st Hr; exact (queue_bounded st (reachable_bounded J st Hr)) |].
  intros json st. split; [| split].
  - apply relay_queue_capacity_aux.
  - intros Hfull. split.
    + apply relay_queue_capacity_aux. exact Hfull.
    + intros Hok. unfold relayEmit. rewrite Hok, Hfull. reflexivity.
  - destruct (relayEmit_queue json st) as [Hq | [Hlt Hq]]; rewrite Hq.
    + exists []. rewrite app_nil_r. reflexivity.
    + exists [json]. reflexivity.
Qed.

Lemma relay_queue_capacity_witness :
  (length (queue st_ready) <= 500)%nat /\
  queue (relayEmit "y" st_full) = queue st_full /\ relayEmit "y" st_full = st_full.
Proof.
  destruct relay_queue_capacity as [Hreach Hemit].
  split; [exact (Hreach stringify st_ready st_ready_reachable) |].
  destruct (proj1 (proj2 (Hemit "y"%string st_full)) eq_refl) as [Hq Hst].
  split; [exact Hq | exact (Hst eq_refl)].
Defined.

(** C7: neither ring exceeds its capacity, whatever the host has run;
    after any sequence of pushes into the empty buffers, the decoded
    events kept are the last 200 pushed and the unknown frames kept are
    the last 500 pushed, in the order pushed; a push onto a full buffer
    drops its oldest item and keeps the others in order, with the new item
    last. *)
Theorem ring_buffers_evict_oldest :
  (forall (JSON_stringify : jsobj -> string) (st : State),
     reachable JSON_stringify st ->
     (length (lastEvents st) <= 200)%nat /\ (length (unknownFrames st) <= 500)%nat) /\
  (forall (evts : list jsobj) (st : State),
     lastEvents st = [] ->
     lastEvents (fold_left (fun s e => pushRing e s) evts st) = drop (length evts - 200) evts /\
     (length (lastEvents (fold_left (fun s e => pushRing e s) evts st)) <= 200)%nat) /\
  (forall (entries : list jsobj) (st : State),
     unknownFrames st = [] ->
     unknownFrames (fold_left (fun s e => pushUnknown e s) entries st)
     = drop (length entries - 500) entries /\
     (length (unknownFrames (fold_left (fun s e => pushUnknown e s) entries st)) <= 500)%nat) /\
  (forall (evt : jsobj) (st : State),
     length (lastEvents st) = 200%nat ->
     lastEvents (pushRing evt st) = tail (lastEvents st) ++ [evt]) /\
  (forall (entry : jsobj) (st : State),
     length (unknownFrames st) = 500%nat ->
     unknownFrames (pushUnknown entry st) = tail (unknownFrames st) ++ [entry]).
Proof.
  split; [| split; [| split; [| split]]].
  - intros J st Hr. destruct (reachable_bounded J st Hr). auto.
  - intros evts st H. rewrite pushRing_all, H. change RING_SIZE with (Z.of_nat 200).
    rewrite pushes_from_empty, length_drop. split; [reflexivity | lia].
  - intros entries st H. rewrite pushUnknown_all, H. change UNKNOWN_RING with (Z.of_nat 500).
    rewrite pushes_from_empty, length_drop. split; [reflexivity | lia].
  - intros evt st H. apply (push_shift_full 200); [lia | exact H].
  - intros entry st H. apply (push_shift_full 500); [lia | exact H].
Qed.

Lemma ring_buffers_evict_oldest_witness :
  ((length (lastEvents st_ready) <= 200)%nat /\ (length (unknownFrames st_ready) <= 500)%nat) /\
  lastEvents (fold_left (fun s e => pushRing e s) evts_201 initial)
  = drop (length evts_201 - 200) evts_201 /\
  lastEvents (pushRing [] (set_lastEvents (repeat [] 200) initial))
  = tail (repeat [] 200) ++ [[]].
Proof.
  destruct ring_buffers_evict_oldest as (Hreach & Hpushes & _ & Hfull & _).
  split; [exact (Hreach stringify st_ready st_ready_reachable) |].
  split.
  - exact (proj1 (Hpushes evts_201 initial eq_refl)).
  - exact (Hfull [] (set_lastEvents (repeat [] 200) initial) eq_refl).
Defined.

(** ** The action sender at work *)

Example sendAction_first_open_game_socket :
  let st := set_sockets sockets_example st_ready in
  fst (sendAction (JNum 5) (JNum 5) (JNum 600) st) = Return true /\
  map (fun e => sent (snd e)) (sockets (snd (sendAction (JNum 5) (JNum 5) (JNum 600) st)))
  = [[]; []; [Binary [x0a; x08; x05]]].
Proof. split; reflexivity. Qed.


(** * More of the script *)

(** ** Relay: what becomes of a record *)

Lemma flush_flags (q : list string) :
  forall st : State, retries (flush q st) = retries st /\ relayOk (flush q st) = relayOk st.
Proof.
  induction q as [| item q IH]; intros st; cbn [flush]; [auto |].
  unfold relay_send. cbn [relay set_queue].
  destruct (relay st) as [ws |]; [| auto].
  unfold ws_send. destruct (send_throws ws (send_calls ws)); [auto |].
  match goal with |- context [flush q ?s] => destruct (IH s) as [H1 H2]; rewrite H1, H2 end.
  auto.
Qed.

(** X1: a record handed to [relayEmit] is sent on the relay, or goes to
    the end of the queue, or is dropped with the queue holding 500 records
    or more; in the last two cases nothing is sent. *)
Theorem relayEmit_sent_or_queued (json : string) (st : State) :
  (exists ws ws',
     relayOk st = true /\ relay st = Some ws /\ relay (relayEmit json st) = Some ws' /\
     sent ws' = sent ws ++ [Text json] /\ queue (relayEmit json st) = queue st) \/
  (queue (relayEmit json st) = queue st ++ [json] /\
   option_map sent (relay (relayEmit json st)) = option_map sent (relay st)) \/
  ((500 <= length (queue st))%nat /\ queue (relayEmit json st) = queue st /\
   option_map sent (relay (relayEmit json st)) = option_map sent (relay st)).
Proof.
  unfold relayEmit.
  assert (Henq : forall s : State,
    queue s = queue st -> option_map sent (relay s) = option_map sent (relay st) ->
    let s' := if Z.of_nat (length (queue s)) <? 500 then set_queue (queue s ++ [json]) s else s in
    (queue s' = queue st ++ [json] /\ option_map sent (relay s') = option_map sent (relay st)) \/
    ((500 <= length (queue st))%nat /\ queue s' = queue st /\
     option_map sent (relay s') = option_map sent (relay st))).
  { intros s Hq Hs. cbv zeta. destruct (Z.of_nat (length (queue s)) <? 500) eqn:E.
    - left. cbn [queue relay set_queue]. rewrite Hq. auto.
    - right. apply Z.ltb_ge in E. rewrite <- Hq. split; [lia | auto]. }
  destruct (relayOk st) eqn:Hok; [| right; apply (Henq st); reflexivity].
  unfold relay_send. destruct (relay st) as [ws |] eqn:Hr.
  - unfold ws_send. destruct (send_throws ws (send_calls ws)).
    + right. apply Henq; reflexivity.
    + left. eexists ws, _. cbn [queue relay set_relay sent]. auto 10.
  - right. apply Henq; [reflexivity | rewrite Hr; reflexivity].
Qed.

(** X2: on entering Open with the relay socket [ws], the retry counter is
    0 and the relay is marked up; the records of the queue are sent from
    its head, in order; the flush ends with the queue empty or at the
    first [send] that raises, whose record is dropped while those after
    it stay queued.  When no [send] raises the whole queue is delivered
    in order. *)
Theorem relay_onopen_flushes_in_order (st : State) (ws : WebSocket) :
  relay st = Some ws ->
  retries (relay_onopen st) = 0 /\ relayOk (relay_onopen st) = true /\
  (exists delivered lost rest ws',
     queue st = delivered ++ lost ++ rest /\
     relay (relay_onopen st) = Some ws' /\
     sent ws' = sent ws ++ map Text delivered /\
     queue (relay_onopen st) = rest /\
     (lost = [] /\ rest = [] \/
      exists item, lost = [item] /\
                   send_throws ws (send_calls ws + length delivered)%nat = true)) /\
  ((forall n, send_throws ws n = false) ->
   exists ws', relay (relay_onopen st) = Some ws' /\
               sent ws' = sent ws ++ map Text (queue st) /\ queue (relay_onopen st) = []).
Proof.
  intros Hr. unfold relay_onopen.
  set (st1 := set_retries 0 (set_relayOk true st)).
  destruct (flush_flags (queue st1) st1) as [H1 H2].
  destruct (flush_spec (queue st1) st1 ws Hr) as (d & l & r & ws' & Hq & Hrel & Hsent & Hqueue & Hl).
  split; [rewrite H1; reflexivity |]. split; [rewrite H2; reflexivity |]. split.
  - exists d, l, r, ws'. auto 10.
  - intros Hnever. exists ws'. split; [exact Hrel |].
    destruct Hl as [[-> ->] | (item & _ & Hthrow)]; [| rewrite Hnever in Hthrow; discriminate].
    rewrite app_nil_r in Hq. change (queue st1) with (queue st) in Hq.
    rewrite Hqueue, Hsent, Hq. auto.
Qed.

Lemma relay_onopen_flushes_in_order_witness :
  exists ws', relay (relay_onopen st_queued) = Some ws' /\
              retries (relay_onopen st_queued) = 0.
Proof.
  destruct (relay_onopen_flushes_in_order st_queued flaky_relay eq_refl)
    as (Hret & _ & (d & l & r & ws' & _ & Hrel & _) & _).
  exists ws'. split; [exact Hrel | exact Hret].
Defined.

Lemma offline_queue (js : list string) :
  forall st : State,
    relayOk st = false -> (length (queue st) <= 500)%nat ->
    queue (fold_left (fun s j => relayEmit j s) js st) = take 500 (queue st ++ js) /\
    relay (fold_left (fun s j => relayEmit j s) js st) = relay st /\
    relayOk (fold_left (fun s j => relayEmit j s) js st) = false.
Proof.
  induction js as [| j js IH]; intros st Hok Hlen; cbn [fold_left].
  - rewrite app_nil_r, take_ge by lia. auto.
  - assert (Hstep : relayEmit j st
                    = if Z.of_nat (length (queue st)) <? 500
                      then set_queue (queue st ++ [j]) st else st).
    { unfold relayEmit. rewrite Hok. reflexivity. }
    rewrite Hstep. destruct (Z.of_nat (length (queue st)) <? 500) eqn:E.
    + apply Z.ltb_lt in E.
      destruct (IH (set_queue (queue st ++ [j]) st)) as (Hq & Hr & Ho);
        [exact Hok | cbn [queue set_queue]; rewrite length_app; simpl; lia |].
      rewrite Hq, Hr, Ho. cbn [queue relay set_queue]. rewrite <- app_assoc. auto.
    + apply Z.ltb_ge in E. destruct (IH st Hok Hlen) as (Hq & Hr & Ho).
      rewrite Hq, Hr, Ho. rewrite !take_app_le by lia. auto.
Qed.

(** X3: records forwarded while the relay is down, onto an empty queue,
    are queued in the order forwarded, the first 500 of them; when the
    relay opens and no [send] raises they are sent in that order and the
    queue is empty. *)
Theorem offline_records_flush_in_order (js : list string) (st : State) (ws : WebSocket) :
  relayOk st = false -> queue st = [] -> relay st = Some ws ->
  (forall n, send_throws ws n = false) ->
  queue (fold_left (fun s j => relayEmit j s) js st) = take 500 js /\
  exists ws',
    relay (relay_onopen (fold_left (fun s j => relayEmit j s) js st)) = Some ws' /\
    sent ws' = sent ws ++ map Text (take 500 js) /\
    queue (relay_onopen (fold_left (fun s j => relayEmit j s) js st)) = [].
Proof.
  intros Hok Hq Hr Hnever.
  destruct (offline_queue js st Hok) as (Hq1 & Hr1 & _); [rewrite Hq; simpl; lia |].
  rewrite Hq in Hq1. cbn [app] in Hq1. split; [exact Hq1 |].
  set (st1 := fold_left (fun s j => relayEmit j s) js st) in *.
  assert (Hrel : relay st1 = Some ws) by congruence.
  unfold relay_onopen. set (st2 := set_retries 0 (set_relayOk true st1)).
  destruct (flush_spec (queue st2) st2 ws Hrel)
    as (d & l & r & ws' & Hsplit & Hrel' & Hsent & Hqueue & Hl).
  exists ws'. split; [exact Hrel' |].
  destruct Hl as [[-> ->] | (item & _ & Hthrow)]; [| rewrite Hnever in Hthrow; discriminate].
  rewrite app_nil_r in Hsplit. change (queue st2) with (queue st1) in Hsplit.
  rewrite Hqueue, Hsent, <- Hsplit, Hq1. auto.
Qed.

Lemma offline_records_flush_in_order_witness :
  queue (fold_left (fun s j => relayEmit j s) ["a"; "b"]%string
           (set_relay (Some (mkWebSocket CONNECTING (fun _ => false) 0 [])) initial))
  = take 500 ["a"; "b"]%string.
Proof.
  apply (offline_records_flush_in_order ["a"; "b"]%string
           (set_relay (Some (mkWebSocket CONNECTING (fun _ => false) 0 [])) initial)
           (mkWebSocket CONNECTING (fun _ => false) 0 []) eq_refl eq_refl eq_refl).
  reflexivity.
Defined.

(** X4: the backoff starts over after an open: whatever the retry
    counter was, the first failure after the relay opened schedules the
    reconnect after 1000 ms. *)
Theorem backoff_restarts_after_open (fresh : option WebSocket) (st : State) :
  fst (failed_attempt fresh (relay_onopen st)) = Some 1000 /\
  retries (snd (failed_attempt fresh (relay_onopen st))) = 1.
Proof.
  destruct (failed_attempt_delay fresh (relay_onopen st)) as [Hd Hr].
  assert (H0 : retries (relay_onopen st) = 0).
  { unfold relay_onopen.
    destruct (flush_flags (queue (set_retries 0 (set_relayOk true st)))
                (set_retries 0 (set_relayOk true st))) as [H _].
    rewrite H. reflexivity. }
  rewrite Hd, Hr, H0. split; reflexivity.
Qed.

(** ** Event bus: subscribing and unsubscribing *)

Lemma handlers_of_set (topic t' : string) (l : list handler) (st : State) :
  handlers_of (set_handlers (<[topic := l]> (_handlers st)) st) t'
  = if decide (topic = t') then l else handlers_of st t'.
Proof.
  unfold handlers_of. cbn [_handlers set_handlers]. rewrite lookup_insert.
  destruct (decide (topic = t')); reflexivity.
Qed.

Lemma busOn_returns (topic : string) (fn : handler) (st : State) :
  inherited topic = false ->
  busOn topic fn st
  = (Return tt,
     set_handlers
       (<[topic := if bool_decide (fn ∈ handlers_of st topic) then handlers_of st topic
                   else handlers_of st topic ++ [fn]]> (_handlers st)) st).
Proof.
  intros H. unfold busOn, handlers_of. rewrite (handlers_get_own st topic H).
  destruct (_handlers st !! topic) as [s |]; cbn [default]; [reflexivity |].
  rewrite bool_decide_eq_false_2 by apply not_elem_of_nil. reflexivity.
Qed.

Lemma busOff_returns (topic : string) (fn : handler) (st : State) :
  inherited topic = false ->
  fst (busOff topic fn st) = Return tt /\
  forall t', handlers_of (snd (busOff topic fn st)) t'
             = if decide (topic = t') then filter (fun g => g ≠ fn) (handlers_of st topic)
               else handlers_of st t'.
Proof.
  intros H. unfold busOff. rewrite (handlers_get_own st topic H).
  destruct (_handlers st !! topic) as [s |] eqn:Hown; cbn [fst snd].
  - split; [reflexivity |]. intros t'. rewrite handlers_of_set.
    unfold handlers_of at 2. rewrite Hown. reflexivity.
  - split; [reflexivity |]. intros t'. destruct (decide (topic = t')) as [<- |]; [| reflexivity].
    unfold handlers_of. rewrite Hown. reflexivity.
Qed.

Lemma handlers_of_busOn (topic t' : string) (fn : handler) (st : State) :
  inherited topic = false ->
  handlers_of (snd (busOn topic fn st)) t'
  = if decide (topic = t')
    then (if bool_decide (fn ∈ handlers_of st topic) then handlers_of st topic
          else handlers_of st topic ++ [fn])
    else handlers_of st t'.
Proof. intros H. rewrite (busOn_returns topic fn st H). apply handlers_of_set. Qed.

Lemma filter_absent (fn : handler) (l : list handler) :
  fn ∉ l -> filter (fun g => g ≠ fn) l = l.
Proof.
  induction l as [| g l IH]; intros H; [reflexivity |].
  apply not_elem_of_cons in H. destruct H as [Hne Hl].
  rewrite filter_cons_True by congruence. rewrite IH by exact Hl. reflexivity.
Qed.

(** X5: subscribing to a topic that is not the name of a member of
    [Object.prototype] is adding to a set: the call returns, the function
    is subscribed afterwards, a function already subscribed is not added
    again (so a publish calls it once), the order of the earlier
    subscribers is kept, the other topics are as they were, and
    subscribing a second time changes nothing.  Subscribing to the name of
    such a member raises, in every state the tap reaches, and changes
    nothing. *)
Theorem busOn_adds_once (topic : string) (fn : handler) (st : State) :
  (inherited topic = false ->
   fst (busOn topic fn st) = Return tt /\
   fn ∈ handlers_of (snd (busOn topic fn st)) topic /\
   (List.NoDup (handlers_of st topic) ->
    List.NoDup (handlers_of (snd (busOn topic fn st)) topic)) /\
   (exists added, handlers_of (snd (busOn topic fn st)) topic = handlers_of st topic ++ added) /\
   (forall t', t' <> topic -> handlers_of (snd (busOn topic fn st)) t' = handlers_of st t') /\
   busOn topic fn (snd (busOn topic fn st)) = busOn topic fn st) /\
  (inherited topic = true ->
   forall JSON_stringify : jsobj -> string,
     reachable JSON_stringify st -> busOn topic fn st = (Throw, st)).
Proof.
  split.
  2:{ intros Hi J Hr. unfold busOn, handlers_get.
      rewrite (topics_own st (reachable_bounded J st Hr) topic Hi), Hi. reflexivity. }
  intros Hi.
  assert (Hin : fn ∈ handlers_of (snd (busOn topic fn st)) topic).
  { rewrite handlers_of_busOn by exact Hi. rewrite decide_True by reflexivity.
    destruct (bool_decide (fn ∈ handlers_of st topic)) eqn:E.
    - apply bool_decide_eq_true in E. exact E.
    - apply elem_of_app. right. apply list_elem_of_singleton. reflexivity. }
  split; [rewrite (busOn_returns topic fn st Hi); reflexivity |].
  split; [exact Hin |]. split; [| split; [| split]].
  - intros Hnd. rewrite handlers_of_busOn, decide_True by (exact Hi || reflexivity).
    destruct (bool_decide (fn ∈ handlers_of st topic)) eqn:E; [exact Hnd |].
    apply bool_decide_eq_false in E. apply NoDup_ListNoDup.
    apply NoDup_app. split; [apply NoDup_ListNoDup; exact Hnd |]. split.
    + intros x Hx Hx'. apply list_elem_of_singleton in Hx'. subst x. contradiction.
    + apply NoDup_singleton.
  - rewrite handlers_of_busOn, decide_True by (exact Hi || reflexivity).
    destruct (bool_decide (fn ∈ handlers_of st topic)).
    + exists []. rewrite app_nil_r. reflexivity.
    + exists [fn]. reflexivity.
  - intros t' Hne. rewrite handlers_of_busOn, decide_False by (exact Hi || congruence).
    reflexivity.
  - rewrite (busOn_returns topic fn (snd (busOn topic fn st)) Hi).
    rewrite (bool_decide_eq_true_2 _ Hin).
    rewrite (busOn_returns topic fn st Hi). cbn [snd].
    rewrite handlers_of_set, decide_True by reflexivity.
    unfold set_handlers. cbn. rewrite insert_insert_eq. reflexivity.
Qed.

Lemma busOn_adds_once_witness :
  List.NoDup (handlers_of (snd (busOn "Foo" 2%nat (snd (busOn "Foo" 1%nat initial)))) "Foo") /\
  busOn "toString" 1%nat initial = (Throw, initial).
Proof.
  split.
  - apply (proj1 (proj2 (proj2 (proj1 (busOn_adds_once "Foo" 2%nat
                                         (snd (busOn "Foo" 1%nat initial))) eq_refl)))).
    apply (proj1 (proj2 (proj2 (proj1 (busOn_adds_once "Foo" 1%nat initial) eq_refl)))).
    vm_compute. constructor.
  - apply (proj2 (busOn_adds_once "toString" 1%nat initial) eq_refl stringify).
    apply rtc_refl.
Defined.

(** X6: unsubscribing from a topic that is not the name of a member of
    [Object.prototype] returns and removes the function from the topic
    and nothing else: the other subscribers of the topic keep their order,
    the other topics are as they were, and unsubscribing a function right
    after subscribing it, when it was not subscribed before, gives back
    the subscribers there were.  Unsubscribing from the name of such a
    member raises, in every state the tap reaches, and changes nothing. *)
Theorem busOff_removes (topic : string) (fn : handler) (st : State) :
  (inherited topic = false ->
   fst (busOff topic fn st) = Return tt /\
   (fn ∉ handlers_of (snd (busOff topic fn st)) topic) /\
   handlers_of (snd (busOff topic fn st)) topic
   = filter (fun g => g ≠ fn) (handlers_of st topic) /\
   (forall t', t' <> topic -> handlers_of (snd (busOff topic fn st)) t' = handlers_of st t') /\
   (fn ∉ handlers_of st topic ->
    forall t', handlers_of (snd (busOff topic fn (snd (busOn topic fn st)))) t'
               = handlers_of st t')) /\
  (inherited topic = true ->
   forall JSON_stringify : jsobj -> string,
     reachable JSON_stringify st -> busOff topic fn st = (Throw, st)).
Proof.
  split.
  2:{ intros Hi J Hr. unfold busOff, handlers_get.
      rewrite (topics_own st (reachable_bounded J st Hr) topic Hi), Hi. reflexivity. }
  intros Hi. destruct (busOff_returns topic fn st Hi) as [Hret Hof].
  split; [exact Hret |]. split; [| split; [| split]].
  - rewrite Hof, decide_True by reflexivity.
    intros H. apply list_elem_of_filter in H. destruct H as [H _]. apply H. reflexivity.
  - rewrite Hof, decide_True by reflexivity. reflexivity.
  - intros t' Hne. rewrite Hof, decide_False by congruence. reflexivity.
  - intros Hnot t'.
    rewrite (proj2 (busOff_returns topic fn (snd (busOn topic fn st)) Hi)).
    destruct (decide (topic = t')) as [<- | Hne].
    + rewrite handlers_of_busOn, decide_True by (exact Hi || reflexivity).
      rewrite bool_decide_eq_false_2 by exact Hnot.
      rewrite filter_app. cbn. rewrite decide_False by (intros H; apply H; reflexivity).
      rewrite app_nil_r. apply filter_absent. exact Hnot.
    + rewrite handlers_of_busOn, decide_False by (exact Hi || exact Hne). reflexivity.
Qed.

Lemma busOff_removes_witness :
  handlers_of (snd (busOff "Foo" 2%nat
                      (snd (busOn "Foo" 2%nat (snd (busOn "Foo" 1%nat initial)))))) "Foo"
  = handlers_of (snd (busOn "Foo" 1%nat initial)) "Foo" /\
  busOff "valueOf" 1%nat initial = (Throw, initial).
Proof.
  split.
  - apply (proj2 (proj2 (proj2 (proj2 (proj1 (busOff_removes "Foo" 2%nat
                                                (snd (busOn "Foo" 1%nat initial))) eq_refl))))).
    vm_compute. intros H. apply list_elem_of_singleton in H. discriminate.
  - apply (proj2 (busOff_removes "valueOf" 1%nat initial) eq_refl stringify).
    apply rtc_refl.
Defined.

(** ** The ID maps *)

Lemma reverse_entries_other (ns : string) (entries : list (string * Z)) (id : Z) :
  forall m : gmap Z (string * string),
    ~ In id (map snd entries) -> reverse_entries ns entries m !! id = m !! id.
Proof.
  unfold reverse_entries.
  induction entries as [| [name k] entries IH]; intros m Hnot; cbn [fold_left]; [reflexivity |].
  cbn [map snd In] in Hnot. rewrite IH by tauto. cbn [snd fst].
  destruct (k =? 0); [reflexivity |]. apply lookup_insert_ne. tauto.
Qed.

Lemma reverse_entries_last (ns : string) (pre post : list (string * Z)) (name : string)
    (id : Z) (m : gmap Z (string * string)) :
  id <> 0 -> ~ In id (map snd post) ->
  reverse_entries ns (pre ++ (name, id) :: post) m !! id = Some (ns, name).
Proof.
  intros Hid Hpost. unfold reverse_entries. rewrite fold_left_app. cbn [fold_left snd fst].
  rewrite (proj2 (Z.eqb_neq id 0) Hid).
  fold (reverse_entries ns pre m).
  match goal with |- fold_left _ post ?m1 !! id = _ =>
    change (reverse_entries ns post m1 !! id = Some (ns, name)) end.
  rewrite reverse_entries_other by exact Hpost. apply lookup_insert_eq.
Qed.

Lemma reverse_entries_sound (ns : string) (entries : list (string * Z)) (id : Z)
    (v : string * string) :
  forall m : gmap Z (string * string),
    reverse_entries ns entries m !! id = Some v ->
    m !! id = Some v \/ (exists name, v = (ns, name) /\ In (name, id) entries /\ id <> 0).
Proof.
  unfold reverse_entries.
  induction entries as [| [name k] entries IH]; intros m H; cbn [fold_left] in H; [auto |].
  apply IH in H. cbn [snd fst] in H.
  destruct H as [H | (n & -> & Hin & H0)]; [| right; exists n; cbn [In]; auto].
  destruct (k =? 0) eqn:E; [auto |]. apply Z.eqb_neq in E.
  destruct (decide (k = id)) as [-> | Hne].
  - rewrite lookup_insert_eq in H. injection H as <-. right. exists name. cbn [In]. auto.
  - rewrite lookup_insert_ne in H by exact Hne. auto.
Qed.

(** X7: every entry of the reverse map comes from the [MessageId] of one
    of the four namespaces and has an ID other than 0; and [holdem], the
    last namespace visited, wins: an ID other than 0 that [holdem] assigns
    resolves to [holdem] and to the last name [holdem] gives it,
    whatever the other namespaces and the map before say. *)
Theorem reverse_map_priority (r : Registry) :
  (forall (id : Z) (ns name : string),
     buildReverseIdMap r ∅ !! id = Some (ns, name) ->
     id <> 0 /\ In ns priorityOrder /\
     exists nsObj entries,
       registry_get r ns = Some nsObj /\ MessageId nsObj = Some entries /\
       In (name, id) entries) /\
  (forall (m : gmap Z (string * string)) (nsObj : Namespace) (pre post : list (string * Z))
          (name : string) (id : Z),
     registry_get r "holdem" = Some nsObj ->
     MessageId nsObj = Some (pre ++ (name, id) :: post) ->
     ~ In id (map snd post) -> id <> 0 ->
     buildReverseIdMap r m !! id = Some ("holdem"%string, name)).
Proof.
  split.
  - intros id ns name. unfold buildReverseIdMap.
    assert (Hgen : forall (nss : list string) (m : gmap Z (string * string)),
      fold_left
        (fun m ns =>
           match registry_get r ns with
           | None => m
           | Some nsObj =>
               match MessageId nsObj with
               | None => m
               | Some entries => reverse_entries ns entries m
               end
           end) nss m !! id = Some (ns, name) ->
      m !! id = Some (ns, name) \/
      (id <> 0 /\ In ns nss /\
       exists nsObj entries,
         registry_get r ns = Some nsObj /\ MessageId nsObj = Some entries /\
         In (name, id) entries)).
    { induction nss as [| n nss IH]; intros m H; cbn [fold_left] in H; [auto |].
      apply IH in H. destruct H as [H | (H0 & Hin & Hex)]; [| right; cbn [In]; auto].
      destruct (registry_get r n) as [nsObj |] eqn:Hreg; [| auto].
      destruct (MessageId nsObj) as [entries |] eqn:Hmid; [| auto].
      apply reverse_entries_sound in H.
      destruct H as [H | (name' & Heq & Hin & H0)]; [auto |].
      injection Heq as -> ->. right. split; [exact H0 |]. split; [cbn [In]; auto |].
      exists nsObj, entries. auto. }
    intros H. apply Hgen in H. destruct H as [H | H]; [| exact H].
    rewrite lookup_empty in H. discriminate.
  - intros m nsObj pre post name id Hreg Hmid Hpost Hid.
    unfold buildReverseIdMap, priorityOrder. cbn [fold_left].
    rewrite Hreg, Hmid. apply reverse_entries_last; assumption.
Qed.

Lemma reverse_map_priority_witness :
  buildReverseIdMap registry_example ∅ !! 42 = Some ("holdem"%string, "ActionReq"%string).
Proof.
  apply (proj2 (reverse_map_priority registry_example) ∅ ns_holdem
           [("Unknown", 0); ("Ping", 1)]%string [] "ActionReq"%string 42 eq_refl eq_refl).
  - intros [].
  - discriminate.
Defined.

Lemma in_keys (k : Z) (v : string) (m : idmap) : In (k, v) m -> In k (map fst m).
Proof. intros H. apply (in_map fst) in H. exact H. Qed.

(** [m[id] = name] on a well-ordered object: the order is kept, and the
    properties afterwards are the new one and the old ones under other
    keys. *)
Lemma idmap_set_spec (id : Z) (name : string) (m : idmap) :
  js_ordered m ->
  js_ordered (idmap_set id name m) /\
  (forall k v, In (k, v) (idmap_set id name m) <-> (k = id /\ v = name) \/ (k <> id /\ In (k, v) m)).
Proof.
  induction m as [| [k0 v0] m IH]; intros Hok.
  - split; [cbn; tauto |]. intros k v. cbn. split.
    + intros [[= <- <-] | []]. auto.
    + intros [[-> ->] | [_ []]]. auto.
  - destruct Hok as (Hnotin & Hord & Hok'). specialize (IH Hok'). destruct IH as [IHok IHin].
    assert (Hkeys : forall b, In b (map fst (idmap_set id name m)) -> b = id \/ In b (map fst m)).
    { intros b Hb. apply in_map_iff in Hb. destruct Hb as ([k v] & <- & Hin).
      apply IHin in Hin. cbn [fst]. destruct Hin as [[-> _] | [_ Hin]]; [auto |].
      right. exact (in_keys _ _ _ Hin). }
    cbn [idmap_set]. destruct (k0 =? id) eqn:E0.
    { apply Z.eqb_eq in E0. subst k0. split.
      - cbn [js_ordered map fst]. auto.
      - intros k v. cbn [In]. split.
        + intros [[= <- <-] | Hin]; [auto |]. right. split; [| auto].
          intros ->. apply Hnotin. exact (in_keys _ _ _ Hin).
        + intros [[-> ->] | [Hne [[= <- <-] | Hin]]]; [auto | congruence | auto]. }
    apply Z.eqb_neq in E0.
    destruct (is_array_index id && (negb (is_array_index k0) || (id <? k0))) eqn:Ec.
    { apply andb_true_iff in Ec. destruct Ec as [Hidx Hc].
      assert (Hbefore : is_array_index k0 = true -> id < k0).
      { intros Hk0. rewrite Hk0 in Hc. cbn in Hc. apply Z.ltb_lt. exact Hc. }
      assert (Hfresh : ~ In id (map fst ((k0, v0) :: m))).
      { cbn [map fst In]. intros [H | H]; [congruence |].
        destruct (Hord id H Hidx) as [Hk0 Hlt]. specialize (Hbefore Hk0). lia. }
      split.
      - cbn [js_ordered]. split; [exact Hfresh |]. split; [| cbn [js_ordered]; auto].
        intros b Hb Hbidx. split; [exact Hidx |]. cbn [map fst In] in Hb.
        destruct Hb as [<- | Hb]; [auto |].
        destruct (Hord b Hb Hbidx) as [Hk0 Hlt]. specialize (Hbefore Hk0). lia.
      - intros k v. cbn [In]. split.
        + intros [[= <- <-] | Hin]; [auto |]. right. split; [| exact Hin].
          intros ->. apply Hfresh. destruct Hin as [[= <- <-] | Hin]; [cbn; auto |].
          cbn [map fst In]. right. exact (in_keys _ _ _ Hin).
        + intros [[-> ->] | [_ Hin]]; auto. }
    split.
    + cbn [js_ordered]. split; [| split; [| exact IHok]].
      * intros H. apply Hkeys in H. destruct H; [congruence | contradiction].
      * intros b Hb Hbidx. apply Hkeys in Hb. destruct Hb as [-> | Hb]; [| auto].
        rewrite Hbidx in Ec. cbn in Ec. apply orb_false_iff in Ec. destruct Ec as [Hk0 Hlt].
        apply negb_false_iff in Hk0. apply Z.ltb_ge in Hlt. split; [exact Hk0 | lia].
    + intros k v. cbn [In]. rewrite IHin. split.
      * intros [[= <- <-] | [[-> ->] | [Hne Hin]]]; auto.
      * intros [[-> ->] | [Hne [[= <- <-] | Hin]]]; auto.
Qed.

Lemma idmap_build (entries : list (string * Z)) :
  forall m0 : idmap,
    js_ordered m0 ->
    js_ordered (fold_left (fun m e => idmap_set (snd e) (fst e) m) entries m0) /\
    (forall k v,
       In (k, v) (fold_left (fun m e => idmap_set (snd e) (fst e) m) entries m0) ->
       In (k, v) m0 \/ In (v, k) entries) /\
    (forall k v,
       ~ In k (map snd entries) -> In (k, v) m0 ->
       In (k, v) (fold_left (fun m e => idmap_set (snd e) (fst e) m) entries m0)) /\
    (List.NoDup (map snd entries) ->
     forall k v, In (v, k) entries ->
                 In (k, v) (fold_left (fun m e => idmap_set (snd e) (fst e) m) entries m0)).
Proof.
  induction entries as [| [name id] entries IH]; intros m0 Hok; cbn [fold_left].
  - split; [exact Hok |]. split; [auto |]. split; [auto |]. intros _ k v [].
  - destruct (idmap_set_spec id name m0 Hok) as [Hok1 Hin1]. cbn [snd fst].
    destruct (IH (idmap_set id name m0) Hok1) as (Hok2 & Hsound & Hkeep & Hcomplete).
    split; [exact Hok2 |]. split; [| split].
    + intros k v H. apply Hsound in H. destruct H as [H | H]; [| cbn [In]; auto].
      apply Hin1 in H. destruct H as [[-> ->] | [_ H]]; cbn [In]; auto.
    + intros k v Hnot Hin. cbn [map snd In] in Hnot. apply Hkeep; [tauto |].
      apply Hin1. right. split; [intros ->; tauto | exact Hin].
    + intros Hnd k v Hin. cbn [map snd] in Hnd. inversion Hnd as [| ? ? Hnotin Hnd']; subst.
      cbn [In] in Hin. destruct Hin as [[= <- <-] | Hin].
      * apply Hkeep; [exact Hnotin |]. apply Hin1. auto.
      * apply Hcomplete; assumption.
Qed.

(** Below 10 ^ 21 in magnitude the key of an ID reads back as the ID;
    at 10 ^ 21 the key is [1e+21], which reads as 1, and the number
    nearest to 10 ^ 23 has the key [1e+23]. *)
Lemma parseInt_key_small (id : Z) : Z.abs id < 10 ^ 21 -> parseInt_key id = id.
Proof. intros H. unfold parseInt_key. rewrite (proj2 (Z.ltb_lt _ _) H). reflexivity. Qed.

Example parseInt_key_exponent :
  parseInt_key (10 ^ 21) = 1 /\ parseInt_key (- (25 * 10 ^ 20)) = -2 /\
  parseInt_key 99999999999999991611392 = 1.
Proof. repeat split. Qed.

Lemma buildIdMap_lookup (ns : string) (st : State) (nsObj : Namespace)
    (entries : list (string * Z)) :
  msgIdMaps st !! ns = None -> pb_get st ns = Some nsObj -> MessageId nsObj = Some entries ->
  (forall t id, lookupMsgId ns t (buildIdMap ns st) = Some id ->
     exists k, In (t, k) entries /\ id = parseInt_key k) /\
  (List.NoDup (map snd entries) ->
   forall t id, In (t, id) entries ->
     exists k, lookupMsgId ns t (buildIdMap ns st) = Some (parseInt_key k) /\
               In (t, k) entries) /\
  (List.NoDup (map snd entries) -> List.NoDup (map fst entries) ->
   forall t id, In (t, id) entries ->
     lookupMsgId ns t (buildIdMap ns st) = Some (parseInt_key id)).
Proof.
  intros Hnone Hpb Hmid.
  destruct (idmap_build entries [] I) as (_ & Hsound & _ & Hcomplete).
  set (m := fold_left (fun m e => idmap_set (snd e) (fst e) m) entries []) in *.
  assert (Hlook : forall t, lookupMsgId ns t (buildIdMap ns st)
                            = match List.find (fun e => String.eqb (snd e) t) m with
                              | Some e => Some (parseInt_key (fst e))
                              | None => None
                              end).
  { intros t. unfold lookupMsgId, buildIdMap. rewrite Hnone, Hpb, Hmid.
    cbn [msgIdMaps set_msgIdMaps]. rewrite lookup_insert_eq. reflexivity. }
  assert (Hfound : forall t id, lookupMsgId ns t (buildIdMap ns st) = Some id ->
                                exists k, In (t, k) entries /\ id = parseInt_key k).
  { intros t id. rewrite Hlook.
    destruct (List.find (fun e => String.eqb (snd e) t) m) as [[k v] |] eqn:E; [| discriminate].
    intros [= <-]. apply find_some in E. destruct E as [Hin Heq]. cbn [snd fst] in *.
    apply String.eqb_eq in Heq. subst v. exists k. split; [| reflexivity].
    destruct (Hsound k t Hin) as [[] | H]. exact H. }
  assert (Hsome : List.NoDup (map snd entries) ->
                  forall t id, In (t, id) entries ->
                    exists k, lookupMsgId ns t (buildIdMap ns st) = Some (parseInt_key k) /\
                              In (t, k) entries).
  { intros Hnd t id Hin. rewrite Hlook.
    destruct (List.find (fun e => String.eqb (snd e) t) m) as [[k v] |] eqn:E.
    - exists k. split; [reflexivity |]. apply find_some in E. destruct E as [Hin' Heq].
      cbn [snd] in Heq. apply String.eqb_eq in Heq. subst v.
      destruct (Hsound k t Hin') as [[] | H]. exact H.
    - pose proof (find_none _ _ E (id, t) (Hcomplete Hnd id t Hin)) as Hno.
      cbn [snd] in Hno. rewrite String.eqb_refl in Hno. discriminate. }
  split; [exact Hfound |]. split; [exact Hsome |].
  intros Hnd Hnames t id Hin. destruct (Hsome Hnd t id Hin) as (k & H & Hin'). rewrite H.
  f_equal. f_equal.
  clear - Hnames Hin Hin'. induction entries as [| [n k0] entries IH]; [destruct Hin |].
  cbn [map fst] in Hnames. inversion Hnames as [| ? ? Hnotin Hnd']; subst.
  cbn [In] in Hin, Hin'.
  destruct Hin as [Heq | Hin]; destruct Hin' as [Heq' | Hin'].
  - congruence.
  - exfalso. injection Heq as -> ->. apply Hnotin. apply (in_map fst) in Hin'. exact Hin'.
  - exfalso. injection Heq' as -> ->. apply Hnotin. apply (in_map fst) in Hin. exact Hin.
  - apply IH; assumption.
Qed.



(** ** Decode: frames turned away *)

(** X9: a frame of fewer than 6 bytes (the empty frame too), and any
    frame while the registry is not there, is turned away: null is
    returned, nothing is pushed on either ring, nothing is handed to the
    relay, no wrapper codec and no subscriber is called. *)
Theorem decodeFrame_turns_away (JSON_stringify : jsobj -> string) (w : option Registry)
    (now : Z) (bytes : list byte) (wsUrl : string) (st : State) :
  byteLength bytes < 6 \/ fst (resolvePb w st) = false ->
  fst (decodeFrame JSON_stringify w now bytes wsUrl st) = Return None /\
  same_buffers st (snd (decodeFrame JSON_stringify w now bytes wsUrl st)) /\
  log (snd (decodeFrame JSON_stringify w now bytes wsUrl st)) = log st.
Proof.
  intros H. destruct (resolvePb_same w st) as (Hs & _ & Hlog & _).
  destruct (fst (resolvePb w st)) eqn:Hr.
  - destruct H as [Hlt | H]; [| discriminate]. unfold decodeFrame.
    destruct (resolvePb w st) as [[] st1]; [| discriminate]. cbn [snd] in *.
    rewrite (proj2 (Z.ltb_lt _ _) Hlt). auto.
  - rewrite decodeFrame_not_ready by exact Hr. cbn [fst snd].
    split; [reflexivity |]. split; [apply same_buffers_refl | reflexivity].
Qed.

Lemma decodeFrame_turns_away_witness :
  fst (decodeFrame stringify None 0 [] game_url st_ready) = Return None /\
  fst (decodeFrame stringify None 0 frame_9999 game_url initial) = Return None.
Proof.
  split.
  - apply (decodeFrame_turns_away stringify None 0 [] game_url st_ready). left. reflexivity.
  - apply (decodeFrame_turns_away stringify None 0 frame_9999 game_url initial).
    right. reflexivity.
Defined.

(** ** Decode: the event of a length-prefixed frame *)

Section EventProperties.

Variable JSON_stringify : jsobj -> string.

(** The branch for a known type that is not skipped, with the payload
    [decoded] it settles on. *)
Lemma decodeLengthPrefixed_event (now : Z) (bytes : list byte) (wsUrl : string) (st : State)
    (ns typeName : string) :
  _idToType st !! frameMsgId bytes = Some (ns, typeName) ->
  SKIP_TOPICS_has typeName = false ->
  exists decoded,
    decodeLengthPrefixed JSON_stringify now bytes wsUrl st =
    then_return
      (busEmit typeName (proto_event ns typeName (JNum (frameMsgId bytes)) now wsUrl decoded)
         (pushRing (proto_event ns typeName (JNum (frameMsgId bytes)) now wsUrl decoded)
            (relayEmit
               (JSON_stringify
                  (proto_event ns typeName (JNum (frameMsgId bytes)) now wsUrl decoded))
               (track_roomId decoded st))))
      (Some (proto_event ns typeName (JNum (frameMsgId bytes)) now wsUrl decoded)) /\
    (forall nsObj d,
       pb_get st ns = Some nsObj -> member nsObj typeName = Some d -> 6 < byteLength bytes ->
       decoded = decode_or_raw d (drop 6 bytes)) /\
    (byteLength bytes <= 6 -> decoded = JNull) /\
    ((forall nsObj, pb_get st ns = Some nsObj -> member nsObj typeName = None) ->
     decoded = JNull).
Proof.
  intros Hid Hskip. unfold decodeLengthPrefixed. rewrite Hid, Hskip. cbv zeta.
  eexists. split; [reflexivity |]. split; [| split].
  - intros nsObj d Hpb Hm Hlen. rewrite Hpb, Hm.
    rewrite (proj2 (Z.ltb_lt _ _) Hlen). reflexivity.
  - intros Hlen. rewrite (proj2 (Z.ltb_ge _ _) Hlen).
    destruct (pb_get st ns) as [o |]; [destruct (member o typeName) |]; reflexivity.
  - intros Hno. destruct (pb_get st ns) as [o |]; [| reflexivity].
    rewrite (Hno o eq_refl). reflexivity.
Qed.

(** What the branch has done when it comes to the publish: the state
    [st2] in which [busEmit] is called. *)
Lemma before_publish (evt : jsobj) (decoded : json) (st0 st : State) :
  same_buffers st st0 -> _handlers st0 = _handlers st -> log st0 = log st ->
  let st1 := track_roomId decoded st0 in
  let st2 := pushRing evt (relayEmit (JSON_stringify evt) st1) in
  same_buffers_but_room st0 st1 /\
  relay st2 = relay (relayEmit (JSON_stringify evt) st1) /\
  queue st2 = queue (relayEmit (JSON_stringify evt) st1) /\
  lastEvents st2 = push_shift RING_SIZE evt (lastEvents st) /\
  unknownFrames st2 = unknownFrames st /\
  log st2 = log st /\
  _handlers st2 = _handlers st.
Proof.
  intros [] Hh Hlog. cbv zeta.
  pose proof (track_roomId_others decoded st0) as Htr.
  destruct (track_roomId_rest decoded st0) as [Hth _].
  destruct (relayEmit_others (JSON_stringify evt) (track_roomId decoded st0))
    as (He & Hu & _ & Hl & _).
  destruct (relayEmit_rest (JSON_stringify evt) (track_roomId decoded st0)) as (Hh' & _).
  split; [exact Htr |]. destruct Htr.
  cbn [relay queue lastEvents unknownFrames log _handlers pushRing set_lastEvents].
  rewrite He, Hu, Hl, Hh', Hth.
  repeat split; congruence.
Qed.


End EventProperties.


Section PayloadProperties.

Variable JSON_stringify : jsobj -> string.


(** X12: when the codec decodes the body to an object with a truthy
    [roomId], that value is the last room seen after the call. *)
Theorem decoded_roomId_is_tracked (w : option Registry) (now : Z) (bytes : list byte)
    (wsUrl : string) (st : State) (ns typeName : string) (nsObj : Namespace) (d : Codec)
    (o : jsobj) (room : json) :
  fst (resolvePb w st) = true ->
  is_length_prefixed bytes = true ->
  _idToType st !! frameMsgId bytes = Some (ns, typeName) ->
  SKIP_TOPICS_has typeName = false ->
  pb_get (snd (resolvePb w st)) ns = Some nsObj ->
  member nsObj typeName = Some d ->
  6 < byteLength bytes ->
  decode d (drop 6 bytes) = Return (JObj o) ->
  obj_get o "roomId" = Some room ->
  truthy room = true ->
  _lastRoomId (snd (decodeFrame JSON_stringify w now bytes wsUrl st)) = room.
Proof.
  intros Hr Hlp Hid Hskip Hpb Hm Hlen Hret Hroom Htruthy.
  destruct (resolvePb_same w st) as (_ & Hid1 & _).
  rewrite decodeFrame_length_prefixed by assumption.
  destruct (decodeLengthPrefixed_event JSON_stringify now bytes wsUrl (snd (resolvePb w st))
              ns typeName) as (decoded & Heq & Hdec & _);
    [rewrite Hid1; exact Hid | exact Hskip |].
  rewrite Heq. rewrite then_return_snd.
  match goal with |- context [busEmit ?t ?ev ?s] =>
    destruct (busEmit_emit t ev s) as (es & -> & _) end.
  rewrite (Hdec nsObj d Hpb Hm Hlen). unfold decode_or_raw. rewrite Hret.
  cbn [_lastRoomId emit pushRing set_lastEvents].
  match goal with |- context [relayEmit ?j ?s] =>
    destruct (relayEmit_rest j s) as (_ & Hroom' & _); rewrite Hroom' end.
  unfold track_roomId. cbn [truthy get_prop]. rewrite Hroom, Htruthy. reflexivity.
Qed.

End PayloadProperties.


Lemma decoded_roomId_is_tracked_witness :
  _lastRoomId (snd (decodeFrame stringify None 0 frame_42 game_url st_ready)) = JNum 5.
Proof.
  assert (H3 : _idToType st_ready !! frameMsgId frame_42 = Some ("holdem", "ActionReq")%string)
    by (vm_compute; reflexivity).
  exact (decoded_roomId_is_tracked stringify None 0 frame_42 game_url st_ready
           "holdem" "ActionReq" ns_holdem codec_ActionReq [("roomId"%string, JNum 5)] (JNum 5)
           eq_refl eq_refl H3 eq_refl eq_refl eq_refl eq_refl eq_refl eq_refl eq_refl).
Defined.

(** ** Decode: the fallback loop *)

Lemma wrapperResolve_emit (nss : list string) (bytes : list byte) (es : list effect)
    (st : State) :
  wrapperResolve nss bytes (emit es st) = wrapperResolve nss bytes st.
Proof.
  induction nss as [| ns nss IH]; cbn [wrapperResolve]; [reflexivity |].
  change (pb_get (emit es st) ns) with (pb_get st ns). rewrite IH. reflexivity.
Qed.

Lemma str_mem_app (c : ascii) (s t : string) :
  str_mem c (s +:+ t) = str_mem c s || str_mem c t.
Proof.
  induction s as [| a s IH]; [reflexivity |].
  change (String a s +:+ t) with (String a (s +:+ t)). cbn [str_mem].
  rewrite IH. apply orb_assoc.
Qed.

(** No inherited member has a dot in its name: the composite topic
    [namespace.typeName] is never one. *)
Lemma inherited_no_dot (s : string) : inherited s = true -> str_mem "." s = false.
Proof.
  unfold inherited. intros H. apply existsb_exists in H. destruct H as (x & Hin & Heq).
  apply String.eqb_eq in Heq. subst x. cbn [Object_prototype_names In] in Hin.
  repeat (destruct Hin as [<- | Hin]; [reflexivity |]). destruct Hin.
Qed.

Lemma inherited_composite (ns typeName : string) :
  inherited (ns +:+ "." +:+ typeName) = false.
Proof.
  destruct (inherited (ns +:+ "." +:+ typeName)) eqn:E; [| reflexivity].
  apply inherited_no_dot in E. rewrite str_mem_app in E.
  change ("." +:+ typeName) with (String "."%char typeName) in E.
  cbn [str_mem] in E. rewrite Ascii.eqb_refl, orb_true_r in E. discriminate.
Qed.

Section WrapperProperties.

Variable JSON_stringify : jsobj -> string.

(** The loop is the resolution followed by the body of the loop on what
    was resolved. *)
Lemma decodeWrapper_factor (now : Z) (bytes : list byte) (wsUrl : string) (nss : list string) :
  forall st : State,
    decodeWrapper JSON_stringify nss now bytes wsUrl st =
    match wrapperResolve nss bytes st with
    | (es, Some (ns, nsObj, w)) => decodeWrapped JSON_stringify now wsUrl ns nsObj w (emit es st)
    | (es, None) => (Return None, emit es st)
    end.
Proof.
  induction nss as [| ns nss IH]; intros st; cbn [decodeWrapper wrapperResolve].
  - rewrite emit_nil. reflexivity.
  - assert (Hcont :
      decodeWrapper JSON_stringify nss now bytes wsUrl (emit [WrapperDecode ns] st) =
      match (let (es, r) := wrapperResolve nss bytes st in (WrapperDecode ns :: es, r)) with
      | (es, Some (ns', nsObj, w)) =>
          decodeWrapped JSON_stringify now wsUrl ns' nsObj w (emit es st)
      | (es, None) => (Return None, emit es st)
      end).
    { rewrite IH, wrapperResolve_emit.
      destruct (wrapperResolve nss bytes st) as [es [[[ns' o] w'] |]];
        rewrite emit_emit; reflexivity. }
    destruct (pb_get st ns) as [nsObj |]; [| apply IH].
    destruct (Wrapper nsObj) as [W |]; [| apply IH].
    destruct (wdecode W bytes) as [[w |] |]; [| exact Hcont | exact Hcont].
    destruct (String.eqb (topic w) EmptyString); [exact Hcont | reflexivity].
Qed.

Lemma decodeFrame_wrapper (w : option Registry) (now : Z) (bytes : list byte)
    (wsUrl : string) (st : State) :
  fst (resolvePb w st) = true -> 6 <= byteLength bytes -> is_length_prefixed bytes = false ->
  decodeFrame JSON_stringify w now bytes wsUrl st =
  decodeWrapper JSON_stringify GAME_NAMESPACES now bytes wsUrl (snd (resolvePb w st)).
Proof.
  intros Hr H6 Hlp. unfold decodeFrame.
  destruct (resolvePb w st) as [[] st1]; [| discriminate]. cbn [snd].
  rewrite (proj2 (Z.ltb_ge _ _) H6), Hlp. reflexivity.
Qed.

Lemma wrapperResolve_effects (nss : list string) (bytes : list byte) (st : State) :
  forallb is_wrapper_decode (fst (wrapperResolve nss bytes st)) = true.
Proof.
  induction nss as [| ns nss IH]; cbn [wrapperResolve]; [reflexivity |].
  destruct (pb_get st ns) as [nsObj |]; [| exact IH].
  destruct (Wrapper nsObj) as [W |]; [| exact IH].
  destruct (wrapperResolve nss bytes st) as [es r]. cbn [fst] in IH.
  destruct (wdecode W bytes) as [[w |] |]; [| cbn; exact IH | cbn; exact IH].
  destruct (String.eqb (topic w) EmptyString); cbn; [exact IH | reflexivity].
Qed.

(** X13: a frame of at least 6 bytes that fails the length test and that
    no wrapper codec of the four namespaces decodes to a wrapper with a
    topic is dropped: null is returned and nothing is recorded, not even
    an unknown frame; the wrapper codecs were called, and nothing else. *)
Theorem undecodable_frame_is_dropped (w : option Registry) (now : Z) (bytes : list byte)
    (wsUrl : string) (st : State) :
  fst (resolvePb w st) = true -> 6 <= byteLength bytes -> is_length_prefixed bytes = false ->
  snd (wrapperResolve GAME_NAMESPACES bytes (snd (resolvePb w st))) = None ->
  fst (decodeFrame JSON_stringify w now bytes wsUrl st) = Return None /\
  same_buffers st (snd (decodeFrame JSON_stringify w now bytes wsUrl st)) /\
  log (snd (decodeFrame JSON_stringify w now bytes wsUrl st))
  = log st ++ fst (wrapperResolve GAME_NAMESPACES bytes (snd (resolvePb w st))) /\
  forallb is_wrapper_decode (fst (wrapperResolve GAME_NAMESPACES bytes (snd (resolvePb w st))))
  = true.
Proof.
  intros Hr H6 Hlp Hnone.
  destruct (resolvePb_same w st) as ([] & _ & Hlog & _).
  rewrite decodeFrame_wrapper, decodeWrapper_factor by assumption.
  pose proof (wrapperResolve_effects GAME_NAMESPACES bytes (snd (resolvePb w st))) as Hw.
  destruct (wrapperResolve GAME_NAMESPACES bytes (snd (resolvePb w st))) as [es r].
  cbn [fst snd] in *. subst r. cbn [fst snd log emit].
  split; [reflexivity |]. split; [constructor; assumption |].
  split; [rewrite Hlog; reflexivity | exact Hw].
Qed.


End WrapperProperties.


Lemma undecodable_frame_is_dropped_witness :
  fst (decodeFrame stringify None 0 frame_noise game_url st_ready) = Return None /\
  same_buffers st_ready (snd (decodeFrame stringify None 0 frame_noise game_url st_ready)).
Proof.
  destruct (undecodable_frame_is_dropped stringify None 0 frame_noise game_url st_ready
              eq_refl ltac:(cbv; discriminate) eq_refl eq_refl) as (Hn & Hs & _).
  split; [exact Hn | exact Hs].
Defined.

(** ** Strings: the URL shown and the type name *)

Lemma substring_0_length (n : nat) (s : string) :
  (String.length (String.substring 0 n s) <= n)%nat.
Proof.
  revert s. induction n as [| n IH]; intros s.
  - destruct s; cbn; lia.
  - destruct s as [| c s]; cbn; [lia |]. specialize (IH s). lia.
Qed.

Lemma substring_0_mem (c : ascii) (n : nat) (s : string) :
  str_mem c s = false -> str_mem c (String.substring 0 n s) = false.
Proof.
  revert s. induction n as [| n IH]; intros s H.
  - destruct s; reflexivity.
  - destruct s as [| a s]; cbn in *; [reflexivity |].
    apply orb_false_iff in H. destruct H as [Ha Hs]. rewrite Ha, (IH s Hs). reflexivity.
Qed.

Lemma substring_0_all (n : nat) (s : string) :
  (String.length s <= n)%nat -> String.substring 0 n s = s.
Proof.
  revert s. induction n as [| n IH]; intros s H.
  - destruct s; cbn in *; [reflexivity | lia].
  - destruct s as [| a s]; cbn in *; [reflexivity |]. rewrite IH by lia. reflexivity.
Qed.

Lemma strip_query_marks (s : string) :
  has_line_terminator s = false ->
  str_mem "?" (strip_query s) = false /\ str_mem "#" (strip_query s) = false.
Proof.
  induction s as [| c s IH]; intros H; cbn in *; [auto |].
  apply orb_false_iff in H. destruct H as [_ Hs]. rewrite Hs. cbn [negb]. rewrite andb_true_r.
  destruct (Ascii.eqb c "?") eqn:E1; cbn; [auto |].
  destruct (Ascii.eqb c "#") eqn:E2; cbn; [auto |].
  rewrite E1, E2. cbn. apply IH. exact Hs.
Qed.

Lemma strip_query_plain (s : string) :
  str_mem "?" s = false -> str_mem "#" s = false -> strip_query s = s.
Proof.
  induction s as [| c s IH]; intros H1 H2; cbn in *; [reflexivity |].
  apply orb_false_iff in H1. apply orb_false_iff in H2.
  destruct H1 as [E1 H1]. destruct H2 as [E2 H2].
  rewrite E1, E2. cbn. rewrite IH by assumption. reflexivity.
Qed.

(** X15: the URL put in a record has at most 80 characters; when the URL
    has no line terminator it has neither ["?"] nor ["#"] left; and a URL
    of at most 80 characters without query and fragment is kept as it
    is. *)
Theorem trimUrl_bounds (wsUrl : string) :
  (String.length (trimUrl wsUrl) <= 80)%nat /\
  (has_line_terminator wsUrl = false ->
   str_mem "?" (trimUrl wsUrl) = false /\ str_mem "#" (trimUrl wsUrl) = false) /\
  (str_mem "?" wsUrl = false -> str_mem "#" wsUrl = false ->
   (String.length wsUrl <= 80)%nat -> trimUrl wsUrl = wsUrl).
Proof.
  unfold trimUrl. split; [apply substring_0_length |]. split.
  - intros H. destruct (strip_query_marks wsUrl H) as [H1 H2].
    split; apply substring_0_mem; assumption.
  - intros H1 H2 Hlen. rewrite strip_query_plain by assumption.
    apply substring_0_all. exact Hlen.
Qed.

Lemma trimUrl_bounds_witness :
  str_mem "?" (trimUrl game_url) = false /\ str_mem "#" (trimUrl game_url) = false.
Proof. apply (proj1 (proj2 (trimUrl_bounds game_url))). reflexivity. Defined.

Lemma after_last_dot_some (s : string) :
  forall acc : option string,
    str_mem "." s = true \/ acc <> None -> after_last_dot s acc <> None.
Proof.
  induction s as [| c s IH]; intros acc H; cbn [after_last_dot str_mem] in *.
  - destruct H as [H | H]; [discriminate | exact H].
  - destruct (Ascii.eqb c ".") eqn:E.
    + apply IH. right. discriminate.
    + apply IH. cbn [orb] in H. destruct H as [H | H]; [auto |].
      right. destruct acc; [discriminate | contradiction].
Qed.

Lemma str_append_nil_r (s : string) : s +:+ EmptyString = s.
Proof.
  induction s as [| a s IH]; [reflexivity |].
  change (String a s +:+ EmptyString) with (String a (s +:+ EmptyString)).
  rewrite IH. reflexivity.
Qed.

Lemma str_append_assoc (s t u : string) : (s +:+ t) +:+ u = s +:+ (t +:+ u).
Proof.
  induction s as [| a s IH]; [reflexivity |].
  change ((String a s +:+ t) +:+ u) with (String a ((s +:+ t) +:+ u)).
  rewrite IH. reflexivity.
Qed.

Lemma after_last_dot_none (s : string) :
  forall acc : option string,
    str_mem "." s = false ->
    after_last_dot s acc = option_map (fun seg => seg +:+ s) acc.
Proof.
  induction s as [| c s IH]; intros acc H; cbn [after_last_dot str_mem] in *.
  - destruct acc as [seg |]; cbn [option_map]; [| reflexivity].
    rewrite str_append_nil_r. reflexivity.
  - apply orb_false_iff in H. destruct H as [Hc Hs]. rewrite Hc, (IH _ Hs).
    destruct acc as [seg |]; cbn [option_map]; [| reflexivity].
    rewrite str_append_assoc. reflexivity.
Qed.

Lemma after_last_dot_prefix (p t : string) :
  forall acc : option string,
    after_last_dot (p +:+ String "." t) acc = after_last_dot t (Some EmptyString).
Proof.
  induction p as [| c p IH]; intros acc.
  - change (EmptyString +:+ String "." t) with (String "." t). reflexivity.
  - change (String c p +:+ String "." t) with (String c (p +:+ String "." t)).
    cbn [after_last_dot]. destruct (Ascii.eqb c "."); apply IH.
Qed.

Lemma after_last_dot_no_dot (s : string) :
  forall (acc : option string) (r : string),
    (forall seg, acc = Some seg -> str_mem "." seg = false) ->
    after_last_dot s acc = Some r -> str_mem "." r = false.
Proof.
  induction s as [| c s IH]; intros acc r Hacc H; cbn in H.
  - apply Hacc. exact H.
  - destruct (Ascii.eqb c ".") eqn:E.
    + apply (IH (Some EmptyString) r); [intros seg [= <-]; reflexivity | exact H].
    + apply (IH _ r) in H; [exact H |].
      intros seg Hseg. destruct acc as [seg0 |]; cbn in Hseg; [| discriminate].
      injection Hseg as <-. rewrite str_mem_app, (Hacc seg0 eq_refl). cbn [str_mem orb].
      rewrite E. reflexivity.
Qed.

(** X16: the type name taken from a topic has no dot; a topic without a
    dot is its own type name, and the type name of [prefix.name], for a
    name without a dot, is the name: so is that of the composite topic
    [namespace.typeName]. *)
Theorem last_segment_is_type_name :
  (forall s, str_mem "." (last_segment s) = false) /\
  (forall s, str_mem "." s = false -> last_segment s = s) /\
  (forall p t, str_mem "." t = false -> last_segment (p +:+ "." +:+ t) = t).
Proof.
  split; [| split].
  - intros s. unfold last_segment.
    destruct (after_last_dot s None) as [r |] eqn:E.
    + apply (after_last_dot_no_dot s None r); [discriminate | exact E].
    + destruct (str_mem "." s) eqn:Hs; [| reflexivity].
      exfalso. apply (after_last_dot_some s None); [left; exact Hs | exact E].
  - intros s H. unfold last_segment. rewrite after_last_dot_none by exact H. reflexivity.
  - intros p t H. unfold last_segment.
    change ("." +:+ t) with (String "." t).
    rewrite after_last_dot_prefix, after_last_dot_none by exact H. reflexivity.
Qed.

Lemma last_segment_is_type_name_witness :
  last_segment ("commonProto" +:+ "." +:+ "Foo") = "Foo"%string.
Proof. apply (proj2 (proj2 last_segment_is_type_name) "commonProto"%string "Foo"%string). reflexivity. Defined.

(** ** Action sender: what is left alone *)

(** X17: [sendAction] changes nothing of the tap but the socket it
    selected: the registry keeps its entries and their order, every socket
    keeps its ready state, a socket whose data sent has grown is an open
    one with a URL that is not a loopback one and has grown by one binary
    message, and the relay, its queue, the rings and the log of calls are
    as they were. *)
Theorem sendAction_touches_one_socket (roomId action coin : json) (st : State) :
  length (sockets (snd (sendAction roomId action coin st))) = length (sockets st) /\
  (forall (j : nat) (url : url_key) (ws : WebSocket),
     sockets st !! j = Some (url, ws) ->
     exists ws',
       sockets (snd (sendAction roomId action coin st)) !! j = Some (url, ws') /\
       readyState ws' = readyState ws /\
       (sent ws' = sent ws \/
        is_open_game_socket (url, ws) = Return true /\ exists buf, sent ws' = sent ws ++ [Binary buf])) /\
  same_buffers st (snd (sendAction roomId action coin st)) /\
  log (snd (sendAction roomId action coin st)) = log st.
Proof.
  assert (Hsame : forall s : State,
    length (sockets s) = length (sockets s) /\
    (forall j url ws, sockets s !! j = Some (url, ws) ->
       exists ws', sockets s !! j = Some (url, ws') /\ readyState ws' = readyState ws /\
         (sent ws' = sent ws \/
          is_open_game_socket (url, ws) = Return true /\ exists buf, sent ws' = sent ws ++ [Binary buf])) /\
    same_buffers s s /\ log s = log s).
  { intros s. split; [reflexivity |]. split; [| split; [apply same_buffers_refl | reflexivity]].
    intros j url ws H. exists ws. auto. }
  unfold sendAction.
  destruct (pb_get st "holdem") as [holdem |]; [| apply Hsame].
  destruct (select_game (sockets st)) as [[[i gameWs] |] |] eqn:Hsel;
    [| apply Hsame | apply Hsame].
  destruct (select_game_Some _ _ _ Hsel) as (url0 & Hl & Ho & _).
  unfold try_catch, transmit_action.
  destruct (encode_action holdem roomId action coin) as [buf |]; [| apply Hsame].
  assert (Hgen : forall (ws' : WebSocket) (r : result bool),
    readyState ws' = readyState gameWs ->
    (sent ws' = sent gameWs \/ sent ws' = sent gameWs ++ [Binary buf]) ->
    let s := set_sockets (alter (fun e => (fst e, ws')) i (sockets st)) st in
    length (sockets s) = length (sockets st) /\
    (forall j url ws, sockets st !! j = Some (url, ws) ->
       exists ws'', sockets s !! j = Some (url, ws'') /\ readyState ws'' = readyState ws /\
         (sent ws'' = sent ws \/
          is_open_game_socket (url, ws) = Return true /\
          exists buf', sent ws'' = sent ws ++ [Binary buf'])) /\
    same_buffers st s /\ log s = log st).
  { intros ws' r Hrs Hsent. cbv zeta. cbn [sockets set_sockets log].
    split; [apply length_alter |]. split; [| split; [constructor; reflexivity | reflexivity]].
    intros j url ws Hj. destruct (decide (i = j)) as [<- | Hne].
    - rewrite list_lookup_alter_eq, Hj. cbn. rewrite Hl in Hj. injection Hj as <- <-.
      exists ws'. split; [reflexivity |]. split; [exact Hrs |].
      destruct Hsent as [H | H]; [auto |]. right. split; [exact Ho |]. exists buf. exact H.
    - rewrite list_lookup_alter_ne by exact Hne. exists ws. auto. }
  unfold ws_send. destruct (send_throws gameWs (send_calls gameWs)); cbn [fst snd].
  - apply (Hgen _ Throw); [reflexivity | left; reflexivity].
  - apply (Hgen _ (Return true)); [reflexivity | right; reflexivity].
Qed.

(** ** The frame header *)

(** X18: the length read from the header is the unsigned big-endian
    value of bytes 0 to 3 when byte 0 is below 128, and that value less
    2 ^ 32 otherwise, so it is a signed 32-bit number; the message ID is
    the unsigned big-endian value of bytes 4 and 5. *)
Theorem header_fields (bytes : list byte) :
  frameLen bytes
  = (if at_index bytes 0 <? 128 then declaredLength bytes else declaredLength bytes - 2 ^ 32) /\
  - 2 ^ 31 <= frameLen bytes < 2 ^ 31 /\
  frameMsgId bytes = at_index bytes 4 * 256 + at_index bytes 5 /\
  0 <= frameMsgId bytes < 65536.
Proof.
  split; [apply frameLen_declaredLength |]. split; [| split].
  - rewrite frameLen_declaredLength. unfold declaredLength.
    pose proof (at_index_range bytes 0). pose proof (at_index_range bytes 1).
    pose proof (at_index_range bytes 2). pose proof (at_index_range bytes 3).
    destruct (at_index bytes 0 <? 128) eqn:E;
      [apply Z.ltb_lt in E | apply Z.ltb_ge in E]; lia.
  - rewrite frameMsgId_unsigned. lia.
  - rewrite frameMsgId_unsigned.
    pose proof (at_index_range bytes 4). pose proof (at_index_range bytes 5). lia.
Qed.

(** X19: short of 2 GiB the length-prefixed scheme comes first: a frame
    of at least 6 and fewer than 2 ^ 31 bytes whose first four bytes, as
    a big-endian unsigned integer, are its length is handled by the
    length-prefixed branch once the registry is resolved, and no wrapper
    codec is called for it in any state. *)
Theorem length_prefix_first_below_2GiB (JSON_stringify : jsobj -> string)
    (w : option Registry) (now : Z) (bytes : list byte) (wsUrl : string) (st : State) :
  byteLength bytes < 2 ^ 31 ->
  declaredLength bytes = byteLength bytes ->
  6 <= byteLength bytes ->
  (fst (resolvePb w st) = true ->
   decodeFrame JSON_stringify w now bytes wsUrl st =
   decodeLengthPrefixed JSON_stringify now bytes wsUrl (snd (resolvePb w st))) /\
  exists es,
    log (snd (decodeFrame JSON_stringify w now bytes wsUrl st)) = log st ++ es /\
    forallb (fun e => negb (is_wrapper_decode e)) es = true.
Proof.
  intros Hlt Hd H6. apply length_prefixed_never_wrapper.
  apply is_length_prefixed_declared; assumption.
Qed.

Lemma length_prefix_first_below_2GiB_witness :
  exists es,
    log (snd (decodeFrame stringify None 0 frame_42 game_url st_ready)) = log st_ready ++ es /\
    forallb (fun e => negb (is_wrapper_decode e)) es = true.
Proof.
  apply (length_prefix_first_below_2GiB stringify None 0 frame_42 game_url st_ready).
  - reflexivity.
  - reflexivity.
  - cbv. discriminate.
Defined.

Lemma sendAction_touches_one_socket_witness :
  length (sockets (snd (sendAction (JNum 5) (JNum 5) (JNum 600) st_ready)))
  = length (sockets st_ready).
Proof. apply (sendAction_touches_one_socket (JNum 5) (JNum 5) (JNum 600) st_ready). Defined.

(** ** Socket tracking *)

Lemma map_get_set (u url : string) (ws : handle) (m : list (string * handle)) :
  map_get u (map_set url ws m) = if String.eqb u url then Some ws else map_get u m.
Proof.
  induction m as [| [k v] m IH]; cbn [map_set map_get].
  - destruct (String.eqb u url); reflexivity.
  - destruct (String.eqb url k) eqn:E; cbn [map_get].
    + apply String.eqb_eq in E. subst k. destruct (String.eqb u url); reflexivity.
    + rewrite IH. destruct (String.eqb u k) eqn:E'; [| reflexivity].
      apply String.eqb_eq in E'. subst k.
      destruct (String.eqb u url) eqn:E''; [| reflexivity].
      apply String.eqb_eq in E''. subst. rewrite String.eqb_refl in E. discriminate.
Qed.

Lemma map_set_keys (url : string) (ws : handle) (m : list (string * handle)) :
  (forall k, In k (map fst (map_set url ws m)) <-> k = url \/ In k (map fst m)) /\
  (List.NoDup (map fst m) -> List.NoDup (map fst (map_set url ws m))) /\
  (forall k h, In (k, h) (map_set url ws m) -> (k = url /\ h = ws) \/ In (k, h) m).
Proof.
  induction m as [| [k0 v0] m (IHk & IHnd & IHin)]; cbn [map_set map fst In].
  - split; [intros k; intuition congruence |].
    split; [intros _; repeat constructor; intros [] |].
    intros k h [[= <- <-] | []]. auto.
  - destruct (String.eqb url k0) eqn:E; cbn [map fst In].
    + apply String.eqb_eq in E. subst k0.
      split; [intros k; intuition congruence |]. split; [auto |].
      intros k h [[= <- <-] | H]; auto.
    + split; [intros k; rewrite IHk; intuition congruence |]. split.
      * intros Hnd. inversion Hnd as [| ? ? Hnotin Hnd']; subst. constructor; [| auto].
        rewrite IHk. intros [-> | H]; [rewrite String.eqb_refl in E; discriminate | contradiction].
      * intros k h [[= <- <-] | H]; [auto |]. apply IHin in H. tauto.
Qed.

Lemma map_delete_spec (url : string) (m : list (string * handle)) :
  List.NoDup (map fst m) ->
  List.NoDup (map fst (map_delete url m)) /\
  (forall u, map_get u (map_delete url m) = if String.eqb u url then None else map_get u m) /\
  (forall k h, In (k, h) (map_delete url m) -> In (k, h) m).
Proof.
  induction m as [| [k0 v0] m IH]; intros Hnd; cbn [map_delete map_get map fst In].
  - split; [constructor |]. split; [intros u; destruct (String.eqb u url); reflexivity | auto].
  - cbn [map fst] in Hnd. inversion Hnd as [| ? ? Hnotin Hnd']; subst.
    destruct (IH Hnd') as (IHnd & IHget & IHin).
    assert (Hget_absent : forall u, ~ In u (map fst m) -> map_get u m = None).
    { clear. intros u. induction m as [| [k v] m IHm]; cbn; [reflexivity |]. intros H.
      destruct (String.eqb u k) eqn:E; [apply String.eqb_eq in E; subst; tauto | apply IHm; tauto]. }
    destruct (String.eqb url k0) eqn:E; cbn [map_get map fst In].
    + apply String.eqb_eq in E. subst k0. split; [exact Hnd' |]. split; [| auto].
      intros u. destruct (String.eqb u url) eqn:E'; [| reflexivity].
      apply String.eqb_eq in E'. subst u. apply Hget_absent. exact Hnotin.
    + split.
      * constructor; [| exact IHnd]. intros H. apply in_map_iff in H.
        destruct H as ([k h] & <- & Hin). apply IHin in Hin. apply Hnotin.
        apply (in_map fst) in Hin. exact Hin.
      * split; [| intros k h [H | H]; auto].
        intros u. rewrite IHget. destruct (String.eqb u k0) eqn:E'; [| reflexivity].
        apply String.eqb_eq in E'. subst u. rewrite String.eqb_sym, E. reflexivity.
Qed.

Lemma patchSocket_ok (ws : handle) (url : string) (t : Tracker) :
  tracker_ok t -> tracker_ok (patchSocket ws url t).
Proof.
  intros [Hm Hmp Hc Hcp Htp Hto]. unfold patchSocket.
  destruct (bool_decide (ws ∈ _patchedSockets t)) eqn:E; [constructor; assumption |].
  apply bool_decide_eq_false in E.
  destruct (map_set_keys url ws (tracked t)) as (_ & Hnd & Hin).
  constructor; cbn [message_listeners close_listeners tracked _patchedSockets].
  - apply NoDup_ListNoDup, NoDup_app. split; [apply NoDup_ListNoDup; exact Hm |]. split.
    + intros h Hh Hh'. apply list_elem_of_singleton in Hh'. subst h.
      apply E, Hmp, list_elem_of_In. exact Hh.
    + apply NoDup_singleton.
  - intros h. rewrite in_app_iff, Hmp, elem_of_union, elem_of_singleton. cbn [In].
    intuition congruence.
  - rewrite map_app. cbn [map fst].
    apply NoDup_ListNoDup, NoDup_app. split; [apply NoDup_ListNoDup; exact Hc |]. split.
    + intros h Hh Hh'. apply list_elem_of_singleton in Hh'. subst h.
      apply E, Hcp, list_elem_of_In. exact Hh.
    + apply NoDup_singleton.
  - intros h. rewrite map_app, in_app_iff, Hcp, elem_of_union, elem_of_singleton.
    cbn [map fst In]. intuition congruence.
  - intros u h H. apply elem_of_union. apply Hin in H.
    destruct H as [[_ ->] | H]; [left; apply elem_of_singleton; reflexivity |].
    right. exact (Htp u h H).
  - apply Hnd. exact Hto.
Qed.

Lemma close_listener_ok (ws : handle) (url : string) (t : Tracker) :
  tracker_ok t -> tracker_ok (close_listener ws url t).
Proof.
  intros Hok. unfold close_listener.
  destruct (map_get url (tracked t)) as [ws' |]; [| exact Hok].
  destruct (Nat.eqb ws' ws); [| exact Hok].
  destruct Hok as [Hm Hmp Hc Hcp Htp Hto].
  destruct (map_delete_spec url (tracked t) Hto) as (Hnd & _ & Hin).
  constructor; cbn [message_listeners close_listeners tracked _patchedSockets]; auto.
  intros u h H. apply Hin in H. eauto.
Qed.

Lemma socket_onclose_ok (ws : handle) (t : Tracker) :
  tracker_ok t -> tracker_ok (socket_onclose ws t).
Proof.
  unfold socket_onclose. generalize (close_listeners t). intros l. revert t.
  induction l as [| [h url] l IH]; intros t Hok; cbn [fold_left fst snd]; [exact Hok |].
  apply IH. destruct (Nat.eqb h ws); [apply close_listener_ok |]; exact Hok.
Qed.

Lemma tracker_step_ok (t t' : Tracker) : tracker_step t t' -> tracker_ok t -> tracker_ok t'.
Proof.
  intros Hstep Hok. destruct Hstep.
  - unfold ProxiedWebSocket. cbn [snd].
    destruct (isLocal (urlStr_of url)); [exact Hok | apply patchSocket_ok; exact Hok].
  - unfold attachToSocket. destruct ws as [o |]; [| exact Hok].
    destruct (sl_addEventListener o); [apply patchSocket_ok |]; exact Hok.
  - unfold hooked_send. destruct (bool_decide (ws ∈ _patchedSockets t)); [exact Hok |].
    destruct (isLocal (url_or_empty url)); [exact Hok | apply patchSocket_ok; exact Hok].
  - apply socket_onclose_ok. exact Hok.
Qed.

(** X20: whatever sockets the page opens, attaches, sends on and closes,
    no socket has its message listener or its close listener twice, the
    sockets with listeners are those of [_patchedSockets], every socket
    of the registry is one of them, and the registry has one entry for a
    URL. *)
Theorem tracker_invariant (t : Tracker) : tracker_reachable t -> tracker_ok t.
Proof.
  unfold tracker_reachable. revert t. apply rtc_ind_r.
  - constructor; cbn.
    + constructor.
    + intros h. rewrite elem_of_empty. tauto.
    + constructor.
    + intros h. rewrite elem_of_empty. tauto.
    + intros url h [].
    + constructor.
  - intros y z _ Hstep Hy. exact (tracker_step_ok y z Hstep Hy).
Qed.

Lemma tracker_invariant_witness :
  tracker_ok (snd (attachToSocket (Some (mkSocketLike 1%nat true (Some url_game)))
                     (snd (ProxiedWebSocket (UrlString url_game) 1%nat no_tracker)))).
Proof.
  apply tracker_invariant. unfold tracker_reachable.
  eapply rtc_r; [| apply tstep_attach].
  eapply rtc_r; [| apply tstep_new].
  apply rtc_refl.
Defined.

Lemma patchSocket_patched (ws : handle) (url : string) (t : Tracker) :
  ws ∈ _patchedSockets (patchSocket ws url t).
Proof.
  unfold patchSocket. destruct (bool_decide (ws ∈ _patchedSockets t)) eqn:E.
  - apply bool_decide_eq_true in E. exact E.
  - cbn. apply elem_of_union. left. apply elem_of_singleton. reflexivity.
Qed.

Lemma patchSocket_again (ws : handle) (url url' : string) (t : Tracker) :
  patchSocket ws url' (patchSocket ws url t) = patchSocket ws url t.
Proof.
  unfold patchSocket at 1.
  rewrite (bool_decide_eq_true_2 _ (patchSocket_patched ws url t)). reflexivity.
Qed.

(** X21: [attachToSocket] refuses nothing and objects without
    [addEventListener] and leaves the tracker alone; it instruments a
    socket once: attaching a socket again, whatever URL it then shows,
    returns true and changes nothing, and the socket has one message
    listener. *)
Theorem attachToSocket_once (t : Tracker) :
  attachToSocket None t = (false, t) /\
  (forall o, sl_addEventListener o = false -> attachToSocket (Some o) t = (false, t)) /\
  (forall o o',
     sl_addEventListener o = true -> sl_addEventListener o' = true ->
     sl_handle o' = sl_handle o ->
     fst (attachToSocket (Some o) t) = true /\
     attachToSocket (Some o') (snd (attachToSocket (Some o) t))
     = (true, snd (attachToSocket (Some o) t)) /\
     (tracker_ok t ->
      count_occ Nat.eq_dec (message_listeners (snd (attachToSocket (Some o) t))) (sl_handle o)
      = 1%nat)).
Proof.
  split; [reflexivity |]. split.
  - intros o H. unfold attachToSocket. rewrite H. reflexivity.
  - intros o o' H H' Hh. unfold attachToSocket. rewrite H, H', Hh. cbn [fst snd].
    split; [reflexivity |]. split; [rewrite patchSocket_again; reflexivity |].
    intros Hok.
    pose proof (patchSocket_ok (sl_handle o) (url_or_empty (sl_url o)) t Hok) as [Hm Hmp _ _ _ _].
    apply NoDup_count_occ'; [exact Hm |]. apply Hmp. apply patchSocket_patched.
Qed.

Lemma attachToSocket_once_witness :
  attachToSocket (Some (mkSocketLike 1%nat true None))
    (snd (attachToSocket (Some (mkSocketLike 1%nat true (Some url_game))) no_tracker))
  = (true, snd (attachToSocket (Some (mkSocketLike 1%nat true (Some url_game))) no_tracker)).
Proof.
  apply (proj2 (proj2 (attachToSocket_once no_tracker))
           (mkSocketLike 1%nat true (Some url_game)) (mkSocketLike 1%nat true None)
           eq_refl eq_refl eq_refl).
Defined.

Lemma str_startsWith_app (needle post : string) : str_startsWith needle (needle +:+ post) = true.
Proof.
  induction needle as [| a n IH]; [reflexivity |].
  change (String a n +:+ post) with (String a (n +:+ post)). cbn [str_startsWith].
  rewrite Ascii.eqb_refl. exact IH.
Qed.

Lemma str_includes_app (needle pre post : string) :
  str_includes needle (pre +:+ needle +:+ post) = true.
Proof.
  induction pre as [| a pre IH].
  - change (EmptyString +:+ needle +:+ post) with (needle +:+ post).
    destruct (needle +:+ post) eqn:E; cbn [str_includes];
      rewrite <- E, str_startsWith_app; reflexivity.
  - change (String a pre +:+ needle +:+ post) with (String a (pre +:+ needle +:+ post)).
    cbn [str_includes]. rewrite IH. apply orb_true_r.
Qed.

(** X22: the proxy returns the socket the original constructor made; a
    socket whose URL has [localhost] or [127.0.0.1] anywhere in it is not
    tracked and gets no listener; any other new socket is registered
    under its URL and instrumented. *)
Theorem ProxiedWebSocket_tracks_game_sockets (url : url_arg) (ws : handle) (t : Tracker) :
  fst (ProxiedWebSocket url ws t) = ws /\
  (forall pre post,
     isLocal (pre +:+ "localhost" +:+ post) = true /\
     isLocal (pre +:+ "127.0.0.1" +:+ post) = true) /\
  (isLocal (urlStr_of url) = true -> snd (ProxiedWebSocket url ws t) = t) /\
  (isLocal (urlStr_of url) = false -> (ws ∉ _patchedSockets t) ->
   map_get (urlStr_of url) (tracked (snd (ProxiedWebSocket url ws t))) = Some ws /\
   ws ∈ _patchedSockets (snd (ProxiedWebSocket url ws t)) /\
   message_listeners (snd (ProxiedWebSocket url ws t)) = message_listeners t ++ [ws]).
Proof.
  split; [reflexivity |]. split; [| split].
  - intros pre post. unfold isLocal. rewrite !str_includes_app.
    split; [reflexivity | apply orb_true_r].
  - intros H. unfold ProxiedWebSocket. rewrite H. reflexivity.
  - intros H Hnew. unfold ProxiedWebSocket. rewrite H. cbn [snd].
    split; [| split; [apply patchSocket_patched |]].
    + unfold patchSocket. rewrite bool_decide_eq_false_2 by exact Hnew. cbn [tracked].
      rewrite map_get_set, String.eqb_refl. reflexivity.
    + unfold patchSocket. rewrite bool_decide_eq_false_2 by exact Hnew. reflexivity.
Qed.

Lemma ProxiedWebSocket_tracks_game_sockets_witness :
  snd (ProxiedWebSocket (UrlString url_relay) 7%nat no_tracker) = no_tracker /\
  map_get url_game (tracked (snd (ProxiedWebSocket (UrlString url_game) 1%nat no_tracker)))
  = Some 1%nat.
Proof.
  split.
  - apply (ProxiedWebSocket_tracks_game_sockets (UrlString url_relay) 7%nat no_tracker).
    reflexivity.
  - apply (ProxiedWebSocket_tracks_game_sockets (UrlString url_game) 1%nat no_tracker).
    + reflexivity.
    + apply not_elem_of_empty.
Defined.

Lemma close_listeners_fold (ws : handle) (l : list (handle * string)) :
  forall t : Tracker,
    List.NoDup (map fst l) ->
    (~ In ws (map fst l) ->
     fold_left (fun t l => if Nat.eqb (fst l) ws then close_listener ws (snd l) t else t) l t
     = t) /\
    (forall url, In (ws, url) l ->
     fold_left (fun t l => if Nat.eqb (fst l) ws then close_listener ws (snd l) t else t) l t
     = close_listener ws url t).
Proof.
  induction l as [| [h u] l IH]; intros t Hnd; cbn [fold_left fst snd map In].
  - split; [reflexivity | intros url []].
  - cbn [map fst] in Hnd. inversion Hnd as [| ? ? Hnotin Hnd']; subst.
    destruct (Nat.eqb h ws) eqn:E.
    + apply Nat.eqb_eq in E. subst h. split; [intros H; exfalso; apply H; auto |].
      intros url [[= <-] | Hin].
      * apply (proj1 (IH _ Hnd')). exact Hnotin.
      * exfalso. apply Hnotin. apply (in_map fst) in Hin. exact Hin.
    + apply Nat.eqb_neq in E. split.
      * intros H. apply (proj1 (IH _ Hnd')). tauto.
      * intros url [[= -> _] | Hin]; [congruence |]. apply (proj2 (IH _ Hnd')). exact Hin.
Qed.

(** X23: when a socket closes, its URL leaves the registry only if the
    registry still has that very socket under the URL: then the URL is
    gone and the other entries are as they were; when another socket has
    taken the URL since, or the entry is gone, the close changes nothing;
    and the close of a socket that was never instrumented changes
    nothing. *)
Theorem socket_onclose_guard (ws : handle) (t : Tracker) :
  tracker_ok t ->
  ((ws ∉ _patchedSockets t) -> socket_onclose ws t = t) /\
  (forall url,
     In (ws, url) (close_listeners t) ->
     (map_get url (tracked t) = Some ws ->
      forall u, map_get u (tracked (socket_onclose ws t))
                = if String.eqb u url then None else map_get u (tracked t)) /\
     (map_get url (tracked t) <> Some ws -> socket_onclose ws t = t)).
Proof.
  intros [Hm Hmp Hc Hcp Htp Hto]. unfold socket_onclose.
  destruct (close_listeners_fold ws (close_listeners t) t Hc) as [Hnone Hone]. split.
  - intros Hnot. apply Hnone. intros H. apply Hnot, Hcp. exact H.
  - intros url Hin. rewrite (Hone url Hin). unfold close_listener. split.
    + intros Hget u. rewrite Hget, Nat.eqb_refl. cbn [tracked].
      apply (map_delete_spec url (tracked t) Hto).
    + intros Hget. destruct (map_get url (tracked t)) as [ws' |]; [| reflexivity].
      destruct (Nat.eqb ws' ws) eqn:E; [| reflexivity].
      apply Nat.eqb_eq in E. subst ws'. contradiction.
Qed.

(** X24: the [send] hook instruments a socket it meets for the first
    time unless its URL is a loopback one, and does so once: on a socket
    already instrumented or with a loopback URL the tracker is as it was,
    and a second [send] on the same socket changes nothing. *)
Theorem hooked_send_discovers_once (ws : handle) (url : option string) (t : Tracker) :
  (ws ∈ _patchedSockets t \/ isLocal (url_or_empty url) = true -> hooked_send ws url t = t) /\
  ((ws ∉ _patchedSockets t) -> isLocal (url_or_empty url) = false ->
   ws ∈ _patchedSockets (hooked_send ws url t) /\
   map_get (url_or_empty url) (tracked (hooked_send ws url t)) = Some ws /\
   message_listeners (hooked_send ws url t) = message_listeners t ++ [ws]) /\
  hooked_send ws url (hooked_send ws url t) = hooked_send ws url t.
Proof.
  split; [| split].
  - intros [H | H]; unfold hooked_send.
    + rewrite bool_decide_eq_true_2 by exact H. reflexivity.
    + rewrite H. destruct (bool_decide (ws ∈ _patchedSockets t)); reflexivity.
  - intros Hnew Hloc. unfold hooked_send.
    rewrite bool_decide_eq_false_2 by exact Hnew. rewrite Hloc.
    split; [apply patchSocket_patched |].
    unfold patchSocket. rewrite bool_decide_eq_false_2 by exact Hnew. cbn [tracked message_listeners].
    rewrite map_get_set, String.eqb_refl. auto.
  - destruct (bool_decide (ws ∈ _patchedSockets t)) eqn:E.
    + assert (H : hooked_send ws url t = t) by (unfold hooked_send; rewrite E; reflexivity).
      rewrite !H. reflexivity.
    + destruct (isLocal (url_or_empty url)) eqn:Hloc.
      * assert (H : hooked_send ws url t = t)
          by (unfold hooked_send; rewrite E, Hloc; reflexivity).
        rewrite !H. reflexivity.
      * assert (H : hooked_send ws url t = patchSocket ws (url_or_empty url) t)
          by (unfold hooked_send; rewrite E, Hloc; reflexivity).
        rewrite H. unfold hooked_send.
        rewrite (bool_decide_eq_true_2 _ (patchSocket_patched ws (url_or_empty url) t)).
        reflexivity.
Qed.

Lemma no_tracker_ok : tracker_ok no_tracker.
Proof.
  constructor; cbn.
  - constructor.
  - intros h. rewrite elem_of_empty. tauto.
  - constructor.
  - intros h. rewrite elem_of_empty. tauto.
  - intros url h [].
  - constructor.
Qed.

Lemma socket_onclose_guard_witness :
  socket_onclose 1%nat
    (patchSocket 2%nat url_game (patchSocket 1%nat url_game no_tracker))
  = patchSocket 2%nat url_game (patchSocket 1%nat url_game no_tracker).
Proof.
  apply (proj2 (proj2 (socket_onclose_guard 1%nat
                         (patchSocket 2%nat url_game (patchSocket 1%nat url_game no_tracker))
                         (patchSocket_ok _ _ _ (patchSocket_ok _ _ _ no_tracker_ok)))
                  url_game ltac:(vm_compute; auto))).
  vm_compute. discriminate.
Defined.

Lemma hooked_send_discovers_once_witness :
  hooked_send 7%nat (Some url_relay) no_tracker = no_tracker /\
  map_get url_game (tracked (hooked_send 1%nat (Some url_game) no_tracker)) = Some 1%nat.
Proof.
  split.
  - apply (proj1 (hooked_send_discovers_once 7%nat (Some url_relay) no_tracker)).
    right. reflexivity.
  - apply (proj1 (proj2 (hooked_send_discovers_once 1%nat (Some url_game) no_tracker))).
    + apply not_elem_of_empty.
    + reflexivity.
Defined.

(** ** Startup *)

Lemma buildIdMap_other (ns ns' : string) (st : State) :
  ns <> ns' -> msgIdMaps (buildIdMap ns st) !! ns' = msgIdMaps st !! ns'.
Proof.
  intros Hne. unfold buildIdMap.
  destruct (msgIdMaps st !! ns); [reflexivity |].
  destruct (pb_get st ns) as [o |]; [| reflexivity].
  destruct (MessageId o); [| reflexivity].
  cbn [msgIdMaps set_msgIdMaps]. apply lookup_insert_ne. exact Hne.
Qed.

Lemma buildIdMap_fields (ns : string) (st : State) :
  _idToType (buildIdMap ns st) = _idToType st /\ log (buildIdMap ns st) = log st /\
  _handlers (buildIdMap ns st) = _handlers st.
Proof. unfold buildIdMap. by_cases. Qed.

Lemma lookupMsgId_ext (ns t : string) (st st' : State) :
  msgIdMaps st' !! ns = msgIdMaps st !! ns -> lookupMsgId ns t st' = lookupMsgId ns t st.
Proof. intros H. unfold lookupMsgId. unfold idmap in *. rewrite H. reflexivity. Qed.



(** ** Diagnostics *)

(** X26: whatever the host has run, [stats()] reports a queue of at most
    500 records, at most 200 decoded events and at most 500 unknown
    frames, and reports the registry ready, with its namespaces, exactly
    when the tap has cached it. *)
Theorem stats_within_capacities (JSON_stringify : jsobj -> string) (st : State) :
  reachable JSON_stringify st ->
  0 <= queuedEvents (stats st) <= 500 /\
  0 <= ringBufferSize (stats st) <= 200 /\
  0 <= unknownFrameCount (stats st) <= 500 /\
  (protobufReady (stats st) = true <-> pb st <> None) /\
  (protobufReady (stats st) = false -> namespaces (stats st) = []).
Proof.
  intros Hr. destruct (reachable_bounded JSON_stringify st Hr) as [Hq He Hu _].
  unfold stats. cbn [queuedEvents ringBufferSize unknownFrameCount protobufReady namespaces].
  split; [lia |]. split; [lia |]. split; [lia |].
  destruct (pb st); split; try split; try congruence; try discriminate.
Qed.

Lemma stats_within_capacities_witness :
  0 <= queuedEvents (stats st_ready) <= 500.
Proof. apply (stats_within_capacities stringify st_ready st_ready_reachable). Defined.

(** ** Reconnecting *)

(** X27: while the retry counter, once incremented, is at most 8, a close
    of the relay ends with the socket that [openRelay] made as the new
    relay, marked down; past that the closed relay stays; when the
    constructor raises the closed relay stays too.  The queue is not
    touched. *)
Theorem reconnect_replaces_relay (n : WebSocket) (st : State) :
  (retries st + 1 <= 8 ->
   relay (snd (failed_attempt (Some n) st)) = Some n /\
   relay (snd (failed_attempt None st)) = relay (relay_closed st) /\
   relayOk (snd (failed_attempt (Some n) st)) = false) /\
  (8 < retries st + 1 ->
   relay (snd (failed_attempt (Some n) st)) = relay (relay_closed st)) /\
  (forall f, queue (snd (failed_attempt f st)) = queue st).
Proof.
  unfold failed_attempt, relay_onclose, relay_closed, MAX_RETRIES.
  destruct (relay st) as [ws |] eqn:Hr; cbn [retries set_relayOk set_retries set_relay];
    (split; [| split]).
  - intros H. rewrite (proj2 (Z.leb_le _ _) H). cbn [snd]. unfold openRelay. cbn.
    auto.
  - intros H. rewrite (proj2 (Z.leb_gt _ _)) by lia. reflexivity.
  - intros f. destruct (retries st + 1 <=? 8); cbn [snd]; [| reflexivity].
    unfold openRelay. cbn. destruct f; reflexivity.
  - intros H. rewrite (proj2 (Z.leb_le _ _) H). cbn [snd]. unfold openRelay. cbn.
    rewrite Hr. auto.
  - intros H. rewrite (proj2 (Z.leb_gt _ _)) by lia. reflexivity.
  - intros f. destruct (retries st + 1 <=? 8); cbn [snd]; [| reflexivity].
    unfold openRelay. cbn. rewrite Hr. destruct f; reflexivity.
Qed.

Lemma reconnect_replaces_relay_witness :
  relay (snd (failed_attempt (Some flaky_relay) initial)) = Some flaky_relay.
Proof.
  apply (proj1 (reconnect_replaces_relay flaky_relay initial)). cbv. discriminate.
Defined.

(** ** The hex dump of a frame *)

Lemma str_length_app (s t : string) :
  String.length (s +:+ t) = (String.length s + String.length t)%nat.
Proof.
  induction s as [| a s IH]; [reflexivity |].
  change (String a s +:+ t) with (String a (s +:+ t)). cbn [String.length].
  rewrite IH. reflexivity.
Qed.

(** X28: the hex dump of a record has two characters for a byte and one
    space between two bytes: it is empty for no byte, has 3n - 1
    characters for n bytes, and starts with the two digits of the first
    byte. *)
Theorem hex_join_length (bytes : list byte) :
  String.length (hex_join bytes) = (3 * length bytes - 1)%nat /\
  (bytes = [] -> hex_join bytes = EmptyString) /\
  (forall b rest, bytes = b :: rest ->
     String.substring 0 2 (hex_join bytes) = hex2 b).
Proof.
  split; [| split].
  - induction bytes as [| b rest IH]; [reflexivity |].
    destruct rest as [| b' rest']; [reflexivity |].
    change (hex_join (b :: b' :: rest'))
      with (hex2 b +:+ String " " (hex_join (b' :: rest'))).
    rewrite str_length_app. cbn [String.length hex2]. rewrite IH. cbn [length]. lia.
  - intros ->. reflexivity.
  - intros b rest ->. destruct rest as [| b' rest']; reflexivity.
Qed.

Lemma hex_join_length_witness :
  String.substring 0 2 (hex_join frame_9999) = hex2 x00.
Proof. apply (proj2 (proj2 (hex_join_length frame_9999)) x00 (tl frame_9999)). reflexivity. Defined.
